(** * Continuum: the threading engine (src/threading.ts) over a modelled store

    The engine of continuum files chat messages into threads, ages threads
    (active, cooling, archived) and merges duplicates.  This development
    embeds the engine of [src/threading.ts] as functions over an explicit
    store (the two tables of [db/schema.sql]) and proves the properties its
    specification states.

    Conventions of the embedding.
    - Text is a [string] of ASCII characters; the regular expressions of the
      source are written out as character classes.
    - A timestamp is its position on the time line, in microseconds ([Z]);
      [NOW()] is an argument of the operation that reads the clock.  A
      timestamp that a query hands to JavaScript is a [Date] there, which
      holds whole milliseconds ([getTime], [asDate]).
    - A JavaScript number that holds a score or a confidence is a rational
      ([Q]); the scores are quotients of small integers.
    - A row is stored under its primary key: [threads] and [messages] are
      finite maps from the id to the rest of the row.
    - A call to the decision provider is the value [AICall]: the provider is
      disabled, the call throws, or it answers.
    - A run of the system is given twice: tick by tick ([run], [serial]),
      and one round trip to the store at a time ([exec], [reachable]), the
      loops being asynchronous functions on timers of their own. *)

From Stdlib Require Import ZArith QArith Qminmax String Ascii List Bool Lia.
From stdpp Require Import base option list sorting gmap strings fin_maps.

Open Scope string_scope.
Open Scope Z_scope.

(** ** Text: the similarity scorer and the fallback title *)

Module Text.

Definition code (c : ascii) : nat := nat_of_ascii c.

(** [\s] on ASCII text: tab, line feed, vertical tab, form feed, carriage
    return, space. *)
Definition is_space (c : ascii) : bool :=
  let n := code c in ((9 <=? n) && (n <=? 13))%nat || (n =? 32)%nat.

Definition is_lower (c : ascii) : bool :=
  let n := code c in ((97 <=? n) && (n <=? 122))%nat.

Definition is_upper (c : ascii) : bool :=
  let n := code c in ((65 <=? n) && (n <=? 90))%nat.

Definition is_digit (c : ascii) : bool :=
  let n := code c in ((48 <=? n) && (n <=? 57))%nat.

(** [\w] is [[A-Za-z0-9_]]. *)
Definition is_word (c : ascii) : bool :=
  is_lower c || is_upper c || is_digit c || (code c =? 95)%nat.

Definition lower (c : ascii) : ascii :=
  if is_upper c then ascii_of_nat (code c + 32) else c.

Definition upper (c : ascii) : ascii :=
  if is_lower c then ascii_of_nat (code c - 32) else c.

Fixpoint map_chars (f : ascii -> ascii) (s : string) : string :=
  match s with
  | EmptyString => EmptyString
  | String c r => String (f c) (map_chars f r)
  end.

Fixpoint filter_chars (p : ascii -> bool) (s : string) : string :=
  match s with
  | EmptyString => EmptyString
  | String c r => if p c then String c (filter_chars p r) else filter_chars p r
  end.

Definition toLowerCase : string -> string := map_chars lower.

(** [.split(/\s+/)]: the pieces between the runs of white space.  A string
    that starts (or ends) with white space yields an empty first (or last)
    piece, and the empty string yields one empty piece, as in JavaScript. *)
Fixpoint split_ws_from (cur : string) (in_ws : bool) (s : string) : list string :=
  match s with
  | EmptyString => [cur]
  | String c r =>
      if is_space c
      then if in_ws then split_ws_from cur true r
           else cur :: split_ws_from EmptyString true r
      else split_ws_from (cur ++ String c EmptyString) false r
  end.

Definition split_ws (s : string) : list string := split_ws_from EmptyString false s.

Definition STOP_WORDS : gset string :=
  list_to_set
    ["a"; "an"; "and"; "are"; "as"; "at"; "be"; "by"; "for"; "from"; "in";
     "into"; "is"; "it"; "of"; "on"; "or"; "that"; "the"; "this"; "to"; "we";
     "with"; "you"].

(** [.replace(/[^a-z0-9\s]/g, " ")] *)
Definition blank_non_alnum (c : ascii) : ascii :=
  if is_lower c || is_digit c || is_space c then c else " "%char.

Definition keep_word (word : string) : bool :=
  (3 <=? String.length word)%nat && negb (bool_decide (word ∈ STOP_WORDS)).

Definition tokenize (input : string) : gset string :=
  list_to_set
    (List.filter keep_word (split_ws (map_chars blank_non_alnum (toLowerCase input)))).

Definition jaccard (a b : gset string) : Q :=
  if ((size a =? 0) || (size b =? 0))%nat then 0%Q
  else
    let intersection := length (List.filter (fun token => bool_decide (token ∈ b)) (elements a)) in
    (Z.of_nat intersection # Pos.of_nat (size a + size b - intersection))%Q.

Definition scoreSimilarity (textA textB : string) : Q :=
  jaccard (tokenize textA) (tokenize textB).

(** [.trim()] *)
Fixpoint trim_start (s : string) : string :=
  match s with
  | EmptyString => EmptyString
  | String c r => if is_space c then trim_start r else s
  end.

Fixpoint trim_end (s : string) : string :=
  match s with
  | EmptyString => EmptyString
  | String c r =>
      match trim_end r with
      | EmptyString => if is_space c then EmptyString else String c EmptyString
      | r' => String c r'
      end
  end.

Definition trim (s : string) : string := trim_end (trim_start s).

(** [.slice(0, n)] *)
Fixpoint slice_to (n : nat) (s : string) : string :=
  match n, s with
  | S k, String c r => String c (slice_to k r)
  | _, _ => EmptyString
  end.

Definition capitalize (s : string) : string :=
  match s with
  | EmptyString => EmptyString
  | String c r => String (upper c) r
  end.

Definition buildTitle (message : string) : string :=
  let words := take 8 (split_ws (trim message)) in
  let joined :=
    trim (filter_chars (fun c => is_word c || is_space c || (code c =? 45)%nat)
                       (String.concat " " words)) in
  if (String.length joined =? 0)%nat then "Untitled discussion"
  else
    let withFirstUpper := capitalize joined in
    if (96 <? String.length withFirstUpper)%nat
    then trim (slice_to 93 withFirstUpper) ++ "..."
    else withFirstUpper.

End Text.

Import Text.

(** ** Types (src/types.ts and the interfaces of src/threading.ts) *)

Inductive ThreadState := active | cooling | archived | superseded.
Inductive AssignmentStatus := pending | in_progress | assigned | failed.
Inductive Action := assign | create.

#[global] Instance ThreadState_eq_dec : EqDecision ThreadState.
Proof. solve_decision. Defined.
#[global] Instance AssignmentStatus_eq_dec : EqDecision AssignmentStatus.
Proof. solve_decision. Defined.
#[global] Instance Action_eq_dec : EqDecision Action.
Proof. solve_decision. Defined.

(** A row of [messages]; its [id] is the key it is stored under. *)
Record MessageRecord := {
  msg_created_at : Z;
  msg_author : string;
  msg_content : string;
  msg_thread_id : option string;
  msg_assignment_status : AssignmentStatus;
  msg_assignment_note : option string
}.

(** A row of [threads]; its [id] is the key it is stored under. *)
Record ThreadRecord := {
  thr_title : string;
  thr_state : ThreadState;
  thr_created_at : Z;
  thr_updated_at : Z;
  thr_last_message_at : option Z;
  thr_archived_at : option Z;
  thr_superseded_at : option Z;
  thr_revives_thread_id : option string;
  thr_continued_in_thread_id : option string;
  thr_merged_into_thread_id : option string
}.

(** [ThreadCandidate], and [MergeCandidate], which has the same fields. *)
Record ThreadCandidate := {
  cand_id : string;
  cand_title : string;
  cand_state : ThreadState;
  cand_last_message_at : option Z;
  cand_recent_excerpt : string
}.

Abbreviation MergeCandidate := ThreadCandidate (only parsing).

Record ArchivedCandidate := {
  arch_id : string;
  arch_title : string;
  arch_recent_excerpt : string
}.

(** The driver of the database hands a [timestamptz] to JavaScript as a
    [Date], which holds whole milliseconds.  [getTime] is the number that
    a comparison of two Dates compares; [asDate] is the timestamp that the
    Date stands for when it is sent back to the store as a parameter. *)
Definition getTime (timestamp : Z) : Z := timestamp / 1000.

Definition asDate (timestamp : Z) : Z := getTime timestamp * 1000.

(** [created_at] is the [Date] that the query returned. *)
Record PendingMessage := {
  pend_id : string;
  pend_created_at : Z;
  pend_author : string;
  pend_content : string
}.

(** [confidence] is optional: the answer of the provider is parsed JSON that
    nobody validates, and the code defaults it with [??]. *)
Record AssignmentDecision := {
  dec_action : Action;
  dec_threadId : option string;
  dec_title : option string;
  dec_confidence : option Q;
  dec_reason : string
}.

Record MergeDecision := {
  md_shouldMerge : bool;
  md_sourceThreadId : string;
  md_targetThreadId : string;
  md_confidence : Q;
  md_reason : string
}.

Record RevivalDecision := {
  rd_archivedThreadId : option string;
  rd_confidence : Q
}.

(** One call to the decision provider, as its call site sees it:
    [this.ai.enabled] is false, the awaited call throws, or it answers. *)
Inductive AICall (A : Type) :=
  | AIDisabled
  | AIFailed
  | AIAnswer (answer : A).
Arguments AIDisabled {A}.
Arguments AIFailed {A}.
Arguments AIAnswer {A} answer.

(** ** The decisions *)

(** JavaScript truthiness of a [string | null]: [null] and [""] are falsy. *)
Definition truthy (s : option string) : bool :=
  match s with
  | Some x => negb (String.eqb x "")
  | None => false
  end.

Definition Qge_bool (x y : Q) : bool := Qle_bool y x.
Definition Qgt_bool (x y : Q) : bool := negb (Qle_bool x y).

(** [Math.min(1, x)] *)
Definition min1 (x : Q) : Q := if Qle_bool 1 x then 1%Q else x.

Definition has_id (ids : gset string) (s : option string) : bool :=
  match s with
  | Some x => bool_decide (x ∈ ids)
  | None => false
  end.

(** The guard of [normalizeAssignmentDecision] (lines 100-105). *)
Definition acceptsAssign (decision : AssignmentDecision) (candidates : list ThreadCandidate) : bool :=
  let candidateIds : gset string := list_to_set (cand_id <$> candidates) in
  bool_decide (dec_action decision = assign)
  && truthy (dec_threadId decision)
  && has_id candidateIds (dec_threadId decision)
  && match dec_confidence decision with
     | Some c => Qge_bool c (45 # 100)
     | None => false
     end.

Definition normalizeAssignmentDecision (decision : AssignmentDecision)
    (candidates : list ThreadCandidate) (fallbackTitle : string) : AssignmentDecision :=
  if acceptsAssign decision candidates then decision
  else
    {| dec_action := create;
       dec_threadId := None;
       dec_title := Some (default fallbackTitle (dec_title decision));
       dec_confidence := Some (default (5 # 10)%Q (dec_confidence decision));
       dec_reason :=
         if String.eqb (dec_reason decision) "" then "No clear active thread match."
         else dec_reason decision |}.

(** The loop shared by [fallbackAssignment] and [findRevivalSource]:
    [if (!best || score > best.score) best = { id, score }]. *)
Definition keepBest (best : option (string * Q)) (entry : string * Q) : option (string * Q) :=
  match best with
  | None => Some entry
  | Some b => if Qgt_bool (snd entry) (snd b) then Some entry else best
  end.

Definition bestOf (scored : list (string * Q)) : option (string * Q) :=
  foldl keepBest None scored.

Definition candidateText (title excerpt : string) : string := title ++ " " ++ excerpt.

Definition scoreCandidates (messageText : string) (candidates : list ThreadCandidate)
  : list (string * Q) :=
  (fun candidate =>
     (cand_id candidate,
      scoreSimilarity messageText
        (candidateText (cand_title candidate) (cand_recent_excerpt candidate))))
  <$> candidates.

Definition fallbackAssignment (pending : PendingMessage)
    (candidates : list ThreadCandidate) (defaultTitle : string) : AssignmentDecision :=
  let messageText := pend_content pending in
  match bestOf (scoreCandidates messageText candidates) with
  | Some (id, score) =>
      if Qge_bool score (26 # 100) then
        {| dec_action := assign;
           dec_threadId := Some id;
           dec_title := None;
           dec_confidence := Some (min1 (score + (25 # 100)));
           dec_reason := "Heuristic token overlap matched an existing thread." |}
      else
        {| dec_action := create;
           dec_threadId := None;
           dec_title := Some defaultTitle;
           dec_confidence := Some (62 # 100)%Q;
           dec_reason := "No strong overlap with existing active threads." |}
  | None =>
      {| dec_action := create;
         dec_threadId := None;
         dec_title := Some defaultTitle;
         dec_confidence := Some (62 # 100)%Q;
         dec_reason := "No strong overlap with existing active threads." |}
  end.

(** [findRevivalSource], lines 526-568: the choice among the archived
    candidates that its query returned. *)
Definition scoreArchived (messageText : string) (archivedRows : list ArchivedCandidate)
  : list (string * Q) :=
  (fun candidate =>
     (arch_id candidate,
      scoreSimilarity messageText
        (candidateText (arch_title candidate) (arch_recent_excerpt candidate))))
  <$> archivedRows.

Definition heuristicRevival (pending : PendingMessage) (archivedRows : list ArchivedCandidate)
  : option string :=
  match bestOf (scoreArchived (pend_content pending) archivedRows) with
  | Some (id, score) => if Qge_bool score (31 # 100) then Some id else None
  | None => None
  end.

Definition acceptsRevival (aiDecision : RevivalDecision) (archivedRows : list ArchivedCandidate) : bool :=
  truthy (rd_archivedThreadId aiDecision)
  && Qge_bool (rd_confidence aiDecision) (62 # 100)
  && existsb (fun row => bool_decide (Some (arch_id row) = rd_archivedThreadId aiDecision))
             archivedRows.

Definition selectRevivalSource (ai : AICall RevivalDecision) (pending : PendingMessage)
    (archivedRows : list ArchivedCandidate) : option string :=
  match archivedRows with
  | [] => None
  | _ =>
      match ai with
      | AIAnswer aiDecision =>
          if acceptsRevival aiDecision archivedRows then rd_archivedThreadId aiDecision
          else heuristicRevival pending archivedRows
      | AIFailed | AIDisabled => heuristicRevival pending archivedRows
      end
  end.

(** [findMergePair] *)
Record MergePair := {
  pair_source : MergeCandidate;
  pair_target : MergeCandidate;
  pair_score : Q
}.

(** The pairs [(candidates[i], candidates[j])], [i < j], in the order of the
    two nested loops. *)
Fixpoint orderedPairs (candidates : list MergeCandidate) : list (MergeCandidate * MergeCandidate) :=
  match candidates with
  | [] => []
  | first :: rest => ((fun second => (first, second)) <$> rest) ++ orderedPairs rest
  end.

Definition scorePair (p : MergeCandidate * MergeCandidate) : MergePair :=
  {| pair_source := fst p;
     pair_target := snd p;
     pair_score :=
       scoreSimilarity
         (candidateText (cand_title (fst p)) (cand_recent_excerpt (fst p)))
         (candidateText (cand_title (snd p)) (cand_recent_excerpt (snd p))) |}.

Definition keepBestPair (best : option MergePair) (p : MergePair) : option MergePair :=
  match best with
  | None => Some p
  | Some b => if Qgt_bool (pair_score p) (pair_score b) then Some p else best
  end.

Definition findMergePair (candidates : list MergeCandidate) : option MergePair :=
  match foldl keepBestPair None (scorePair <$> orderedPairs candidates) with
  | Some best => if Qgt_bool (58 # 100) (pair_score best) then None else Some best
  | None => None
  end.

(** [mergeTick], lines 208-230: should-merge, source and target before the
    two are put in order. *)
Record MergeVerdict := {
  v_shouldMerge : bool;
  v_sourceThreadId : string;
  v_targetThreadId : string
}.

Definition heuristicVerdict (pair : MergePair) : MergeVerdict :=
  {| v_shouldMerge := Qge_bool (pair_score pair) (78 # 100);
     v_sourceThreadId := cand_id (pair_source pair);
     v_targetThreadId := cand_id (pair_target pair) |}.

Definition inPair (pair : MergePair) (id : string) : bool :=
  bool_decide (id ∈ ({[cand_id (pair_source pair); cand_id (pair_target pair)]} : gset string)).

Definition mergeVerdict (ai : AICall MergeDecision) (pair : MergePair) : MergeVerdict :=
  let proposed :=
    match ai with
    | AIAnswer decision =>
        {| v_shouldMerge :=
             md_shouldMerge decision && Qge_bool (md_confidence decision) (6 # 10);
           v_sourceThreadId := md_sourceThreadId decision;
           v_targetThreadId := md_targetThreadId decision |}
    | AIFailed | AIDisabled => heuristicVerdict pair
    end in
  let validated :=
    if negb (inPair pair (v_sourceThreadId proposed))
       || negb (inPair pair (v_targetThreadId proposed))
    then {| v_shouldMerge := v_shouldMerge proposed;
            v_sourceThreadId := cand_id (pair_source pair);
            v_targetThreadId := cand_id (pair_target pair) |}
    else proposed in
  if String.eqb (v_sourceThreadId validated) (v_targetThreadId validated)
  then {| v_shouldMerge := false;
          v_sourceThreadId := v_sourceThreadId validated;
          v_targetThreadId := v_targetThreadId validated |}
  else validated.

(** [sourceLast > targetLast] on [last_message_at ?? ""].  A
    [last_message_at] is a [Date] or [null]; [>] compares two Dates by
    their [getTime()], and a Date with [""] as numbers, the empty string
    being 0.  Two empty strings compare as strings, and neither is greater. *)
Definition timeOrEmpty (lastMessageAt : option Z) : Z :=
  match lastMessageAt with
  | Some timestamp => getTime timestamp
  | None => 0
  end.

Definition laterThan (a b : option Z) : bool :=
  timeOrEmpty b <? timeOrEmpty a.

(** [mergeTick], lines 231-241: nothing to do, or the source and the target
    of the merge that is executed. *)
Definition resolveMerge (ai : AICall MergeDecision) (pair : MergePair) : option (string * string) :=
  let verdict := mergeVerdict ai pair in
  if negb (v_shouldMerge verdict) then None
  else
    if laterThan (cand_last_message_at (pair_source pair))
                 (cand_last_message_at (pair_target pair))
    then Some (v_targetThreadId verdict, v_sourceThreadId verdict)
    else Some (v_sourceThreadId verdict, v_targetThreadId verdict).

(** ** The store (db/schema.sql) *)

Record Config := {
  ACTIVE_TO_COOLING_MINUTES : Z;
  COOLING_TO_ARCHIVED_HOURS : Z;
  MAX_ACTIVE_THREAD_CANDIDATES : nat;
  MAX_ARCHIVED_THREAD_CANDIDATES : nat
}.

(** The defaults of src/config.ts. *)
Definition defaultConfig : Config :=
  {| ACTIVE_TO_COOLING_MINUTES := 30;
     COOLING_TO_ARCHIVED_HOURS := 72;
     MAX_ACTIVE_THREAD_CANDIDATES := 15;
     MAX_ARCHIVED_THREAD_CANDIDATES := 20 |}.

Record Store := {
  threads : gmap string ThreadRecord;
  messages : gmap string MessageRecord
}.

Definition emptyStore : Store := {| threads := ∅; messages := ∅ |}.

(** [make_interval(mins => n)] and [make_interval(hours => n)], in microseconds. *)
Definition minutes (n : Z) : Z := n * 60000000.
Definition hours (n : Z) : Z := n * 3600000000.

(** Why a transaction did not commit: the guarded update of the merge source
    matched no row (the code rolls back and returns), the thrown
    ["Assignment did not produce a thread id"], or a constraint of the
    schema (a [REFERENCES threads(id)], a primary key). *)
Inductive TxAbort := SourceNotLive | NoThreadId | ForeignKeyViolation | UniqueViolation.

Inductive TxResult (A : Type) :=
  | Committed (result : A)
  | RolledBack (why : TxAbort).
Arguments Committed {A} result.
Arguments RolledBack {A} why.

(** *** Column updates *)

Definition set_state (v : ThreadState) (t : ThreadRecord) : ThreadRecord :=
  {| thr_title := thr_title t; thr_state := v; thr_created_at := thr_created_at t;
     thr_updated_at := thr_updated_at t; thr_last_message_at := thr_last_message_at t;
     thr_archived_at := thr_archived_at t; thr_superseded_at := thr_superseded_at t;
     thr_revives_thread_id := thr_revives_thread_id t;
     thr_continued_in_thread_id := thr_continued_in_thread_id t;
     thr_merged_into_thread_id := thr_merged_into_thread_id t |}.

Definition set_updated_at (v : Z) (t : ThreadRecord) : ThreadRecord :=
  {| thr_title := thr_title t; thr_state := thr_state t; thr_created_at := thr_created_at t;
     thr_updated_at := v; thr_last_message_at := thr_last_message_at t;
     thr_archived_at := thr_archived_at t; thr_superseded_at := thr_superseded_at t;
     thr_revives_thread_id := thr_revives_thread_id t;
     thr_continued_in_thread_id := thr_continued_in_thread_id t;
     thr_merged_into_thread_id := thr_merged_into_thread_id t |}.

Definition set_last_message_at (v : option Z) (t : ThreadRecord) : ThreadRecord :=
  {| thr_title := thr_title t; thr_state := thr_state t; thr_created_at := thr_created_at t;
     thr_updated_at := thr_updated_at t; thr_last_message_at := v;
     thr_archived_at := thr_archived_at t; thr_superseded_at := thr_superseded_at t;
     thr_revives_thread_id := thr_revives_thread_id t;
     thr_continued_in_thread_id := thr_continued_in_thread_id t;
     thr_merged_into_thread_id := thr_merged_into_thread_id t |}.

Definition set_archived_at (v : option Z) (t : ThreadRecord) : ThreadRecord :=
  {| thr_title := thr_title t; thr_state := thr_state t; thr_created_at := thr_created_at t;
     thr_updated_at := thr_updated_at t; thr_last_message_at := thr_last_message_at t;
     thr_archived_at := v; thr_superseded_at := thr_superseded_at t;
     thr_revives_thread_id := thr_revives_thread_id t;
     thr_continued_in_thread_id := thr_continued_in_thread_id t;
     thr_merged_into_thread_id := thr_merged_into_thread_id t |}.

Definition set_superseded_at (v : option Z) (t : ThreadRecord) : ThreadRecord :=
  {| thr_title := thr_title t; thr_state := thr_state t; thr_created_at := thr_created_at t;
     thr_updated_at := thr_updated_at t; thr_last_message_at := thr_last_message_at t;
     thr_archived_at := thr_archived_at t; thr_superseded_at := v;
     thr_revives_thread_id := thr_revives_thread_id t;
     thr_continued_in_thread_id := thr_continued_in_thread_id t;
     thr_merged_into_thread_id := thr_merged_into_thread_id t |}.

Definition set_revives_thread_id (v : option string) (t : ThreadRecord) : ThreadRecord :=
  {| thr_title := thr_title t; thr_state := thr_state t; thr_created_at := thr_created_at t;
     thr_updated_at := thr_updated_at t; thr_last_message_at := thr_last_message_at t;
     thr_archived_at := thr_archived_at t; thr_superseded_at := thr_superseded_at t;
     thr_revives_thread_id := v;
     thr_continued_in_thread_id := thr_continued_in_thread_id t;
     thr_merged_into_thread_id := thr_merged_into_thread_id t |}.

Definition set_continued_in_thread_id (v : option string) (t : ThreadRecord) : ThreadRecord :=
  {| thr_title := thr_title t; thr_state := thr_state t; thr_created_at := thr_created_at t;
     thr_updated_at := thr_updated_at t; thr_last_message_at := thr_last_message_at t;
     thr_archived_at := thr_archived_at t; thr_superseded_at := thr_superseded_at t;
     thr_revives_thread_id := thr_revives_thread_id t;
     thr_continued_in_thread_id := v;
     thr_merged_into_thread_id := thr_merged_into_thread_id t |}.

Definition set_merged_into_thread_id (v : option string) (t : ThreadRecord) : ThreadRecord :=
  {| thr_title := thr_title t; thr_state := thr_state t; thr_created_at := thr_created_at t;
     thr_updated_at := thr_updated_at t; thr_last_message_at := thr_last_message_at t;
     thr_archived_at := thr_archived_at t; thr_superseded_at := thr_superseded_at t;
     thr_revives_thread_id := thr_revives_thread_id t;
     thr_continued_in_thread_id := thr_continued_in_thread_id t;
     thr_merged_into_thread_id := v |}.

Definition set_thread_id (v : option string) (m : MessageRecord) : MessageRecord :=
  {| msg_created_at := msg_created_at m; msg_author := msg_author m;
     msg_content := msg_content m; msg_thread_id := v;
     msg_assignment_status := msg_assignment_status m;
     msg_assignment_note := msg_assignment_note m |}.

Definition set_assignment (status : AssignmentStatus) (note : option string)
    (m : MessageRecord) : MessageRecord :=
  {| msg_created_at := msg_created_at m; msg_author := msg_author m;
     msg_content := msg_content m; msg_thread_id := msg_thread_id m;
     msg_assignment_status := status;
     msg_assignment_note := note |}.

Definition set_assignment_status (status : AssignmentStatus) (m : MessageRecord) : MessageRecord :=
  set_assignment status (msg_assignment_note m) m.

(** *** Statements *)

Definition with_threads (ths : gmap string ThreadRecord) (s : Store) : Store :=
  {| threads := ths; messages := messages s |}.

Definition with_messages (msgs : gmap string MessageRecord) (s : Store) : Store :=
  {| threads := threads s; messages := msgs |}.

(** [UPDATE threads SET ... WHERE <guard>], on every row. *)
Definition updateThreadsWhere (guard : ThreadRecord -> bool)
    (set : ThreadRecord -> ThreadRecord) (s : Store) : Store :=
  with_threads ((fun row => if guard row then set row else row) <$> threads s) s.

(** [UPDATE threads SET ... WHERE id = $1 AND <guard> RETURNING id], with its
    [rowCount]. *)
Definition updateThreadById (id : string) (guard : ThreadRecord -> bool)
    (set : ThreadRecord -> ThreadRecord) (s : Store) : Store * nat :=
  match threads s !! id with
  | Some row =>
      if guard row then (with_threads (<[id := set row]> (threads s)) s, 1%nat)
      else (s, 0%nat)
  | None => (s, 0%nat)
  end.

(** [UPDATE messages SET ... WHERE id = $1]. *)
Definition updateMessageById (id : string) (set : MessageRecord -> MessageRecord)
    (s : Store) : Store :=
  with_messages (alter set id (messages s)) s.

Definition isLive (t : ThreadRecord) : bool :=
  bool_decide (thr_state t = active) || bool_decide (thr_state t = cooling).

Definition isArchived (t : ThreadRecord) : bool := bool_decide (thr_state t = archived).

(** [last_message_at IS NOT NULL AND last_message_at < limit] *)
Definition idleBefore (limit : Z) (t : ThreadRecord) : bool :=
  match thr_last_message_at t with
  | Some last => Z.ltb last limit
  | None => false
  end.

#[global] Instance TxResult_ret : MRet TxResult := fun A a => Committed a.
#[global] Instance TxResult_bind : MBind TxResult := fun A B f r =>
  match r with
  | Committed a => f a
  | RolledBack why => RolledBack why
  end.

(** [INSERT INTO threads ... RETURNING id]; [id] is the value that
    [gen_random_uuid()] draws for the new row. *)
Definition insertThread (id : string) (row : ThreadRecord) (s : Store) : TxResult Store :=
  match threads s !! id with
  | Some _ => RolledBack UniqueViolation
  | None => Committed (with_threads (<[id := row]> (threads s)) s)
  end.

(** *** Queries *)

(** [COALESCE(t.last_message_at, t.updated_at)] *)
Definition recencyKey (t : ThreadRecord) : Z :=
  default (thr_updated_at t) (thr_last_message_at t).

Definition newline : string := String (ascii_of_nat 10) EmptyString.

(** [ORDER BY created_at DESC] and [ORDER BY COALESCE(...) DESC].  SQL
    leaves the order of rows with equal keys open; the sort used here keeps
    them in the order of the table scan. *)
Definition newerMessage (a b : MessageRecord) : Prop :=
  msg_created_at b ≤ msg_created_at a.

Definition moreRecent (a b : string * ThreadRecord) : Prop :=
  recencyKey (snd b) ≤ recencyKey (snd a).

#[global] Instance newerMessage_dec : RelDecision newerMessage.
Proof. intros a b. unfold newerMessage. apply _. Defined.

#[global] Instance moreRecent_dec : RelDecision moreRecent.
Proof. intros a b. unfold moreRecent. apply _. Defined.

(** The lateral subquery and its [STRING_AGG]: the contents of the [n] most
    recent messages of thread [tid], newest first, one per line. *)
Definition recentExcerpt (n : nat) (tid : string) (s : Store) : string :=
  String.concat newline
    (msg_content <$>
       take n
         (merge_sort newerMessage
            (filter (fun m => msg_thread_id m = Some tid)
                    (snd <$> map_to_list (messages s))))).

(** [SELECT ... FROM threads t WHERE <states> ORDER BY COALESCE(...) DESC LIMIT n] *)
Definition selectThreads (states : ThreadRecord -> bool) (limit : nat) (s : Store)
  : list (string * ThreadRecord) :=
  take limit
    (merge_sort moreRecent
       (filter (fun row => states (snd row) = true) (map_to_list (threads s)))).

Definition toCandidate (excerptSize : nat) (s : Store) (row : string * ThreadRecord)
  : ThreadCandidate :=
  {| cand_id := fst row;
     cand_title := thr_title (snd row);
     cand_state := thr_state (snd row);
     cand_last_message_at := thr_last_message_at (snd row);
     cand_recent_excerpt := recentExcerpt excerptSize (fst row) s |}.

Definition fetchActiveThreadCandidates (cfg : Config) (s : Store) : list ThreadCandidate :=
  toCandidate 6 s <$> selectThreads isLive (MAX_ACTIVE_THREAD_CANDIDATES cfg) s.

Definition fetchMergeCandidates (s : Store) : list MergeCandidate :=
  toCandidate 5 s <$> selectThreads isLive 16 s.

Definition fetchArchivedCandidates (cfg : Config) (s : Store) : list ArchivedCandidate :=
  (fun row =>
     {| arch_id := fst row;
        arch_title := thr_title (snd row);
        arch_recent_excerpt := recentExcerpt 8 (fst row) s |})
  <$> selectThreads isArchived (MAX_ARCHIVED_THREAD_CANDIDATES cfg) s.

Definition findRevivalSource (cfg : Config) (ai : AICall RevivalDecision)
    (pending : PendingMessage) (s : Store) : option string :=
  selectRevivalSource ai pending (fetchArchivedCandidates cfg s).

(** [SELECT MAX(created_at) FROM messages WHERE thread_id = $1] *)
Definition maxOpt (acc : option Z) (x : Z) : option Z :=
  match acc with
  | Some y => Some (Z.max y x)
  | None => Some x
  end.

Definition maxCreatedAt (tid : string) (s : Store) : option Z :=
  foldl maxOpt None
    (msg_created_at <$>
       filter (fun m => msg_thread_id m = Some tid) (snd <$> map_to_list (messages s))).

(** ** The lifecycle loop *)

Definition coolRow (now : Z) (t : ThreadRecord) : ThreadRecord :=
  set_updated_at now (set_state cooling t).

Definition archiveRow (now : Z) (t : ThreadRecord) : ThreadRecord :=
  set_updated_at now
    (set_archived_at (Some (default now (thr_archived_at t))) (set_state archived t)).

(** The two statements of [lifecycleTick], each with the [NOW()] it reads. *)
Definition coolThreads (cfg : Config) (now : Z) (s : Store) : Store :=
  updateThreadsWhere
    (fun t => bool_decide (thr_state t = active)
              && idleBefore (now - minutes (ACTIVE_TO_COOLING_MINUTES cfg)) t)
    (coolRow now) s.

Definition archiveThreads (cfg : Config) (now : Z) (s : Store) : Store :=
  updateThreadsWhere
    (fun t => bool_decide (thr_state t = cooling)
              && idleBefore (now - hours (COOLING_TO_ARCHIVED_HOURS cfg)) t)
    (archiveRow now) s.

Definition lifecycleTick (cfg : Config) (nowCool nowArchive : Z) (s : Store) : Store :=
  archiveThreads cfg nowArchive (coolThreads cfg nowCool s).

(** ** The merge loop *)

Definition supersedeIntoRow (now : Z) (target : string) (t : ThreadRecord) : ThreadRecord :=
  set_updated_at now
    (set_superseded_at (Some now)
       (set_merged_into_thread_id (Some target) (set_state superseded t))).

Definition repointMessages (source target : string) (s : Store) : Store :=
  with_messages
    ((fun m => if bool_decide (msg_thread_id m = Some source)
               then set_thread_id (Some target) m else m) <$> messages s) s.

Definition reopenRow (now : Z) (lastMessageAt : option Z) (t : ThreadRecord) : ThreadRecord :=
  set_updated_at now (set_last_message_at lastMessageAt (set_state active t)).

(** [mergeTick], lines 243-301: the transaction. *)
Definition executeMerge (now : Z) (sourceThreadId targetThreadId : string) (s : Store)
  : TxResult Store :=
  let '(s1, rowCount) :=
    updateThreadById sourceThreadId isLive (supersedeIntoRow now targetThreadId) s in
  if (rowCount =? 0)%nat then RolledBack SourceNotLive
  else if negb (bool_decide (is_Some (threads s !! targetThreadId)))
  then RolledBack ForeignKeyViolation
  else
    let s2 := repointMessages sourceThreadId targetThreadId s1 in
    let '(s3, _) :=
      updateThreadById targetThreadId (fun _ => true)
        (fun t => reopenRow now (maxCreatedAt targetThreadId s2) t) s2 in
    Committed s3.

Definition mergeTick (ai : AICall MergeDecision) (now : Z) (s : Store) : Store :=
  let candidates := fetchMergeCandidates s in
  if (length candidates <? 2)%nat then s
  else
    match findMergePair candidates with
    | None => s
    | Some best =>
        match resolveMerge ai best with
        | None => s
        | Some (sourceThreadId, targetThreadId) =>
            match executeMerge now sourceThreadId targetThreadId s with
            | Committed s' => s'
            | RolledBack _ => s
            end
        end
    end.

(** ** The assignment loop *)

Definition olderMessage (a b : string * MessageRecord) : Prop :=
  msg_created_at (snd a) ≤ msg_created_at (snd b).

#[global] Instance olderMessage_dec : RelDecision olderMessage.
Proof. intros a b. unfold olderMessage. apply _. Defined.

(** [claimPendingMessage]: the oldest pending row, marked [in_progress].
    The row comes back with its [created_at] as a [Date]. *)
Definition claimPendingMessage (s : Store) : option (PendingMessage * Store) :=
  let picked :=
    take 1
      (merge_sort olderMessage
         (filter (fun row => msg_assignment_status (snd row) = pending)
                 (map_to_list (messages s)))) in
  match picked with
  | [] => None
  | row :: _ =>
      let pending :=
        {| pend_id := fst row;
           pend_created_at := asDate (msg_created_at (snd row));
           pend_author := msg_author (snd row);
           pend_content := msg_content (snd row) |} in
      Some (pending, updateMessageById (pend_id pending) (set_assignment_status in_progress) s)
  end.

Definition newThreadRow (title : string) (lastMessageAt now : Z) : ThreadRecord :=
  {| thr_title := title;
     thr_state := active;
     thr_created_at := now;
     thr_updated_at := now;
     thr_last_message_at := Some lastMessageAt;
     thr_archived_at := None;
     thr_superseded_at := None;
     thr_revives_thread_id := None;
     thr_continued_in_thread_id := None;
     thr_merged_into_thread_id := None |}.

Definition continuedInRow (now : Z) (newId : string) (t : ThreadRecord) : ThreadRecord :=
  set_updated_at now
    (set_continued_in_thread_id (Some newId)
       (set_superseded_at (Some now) (set_state superseded t))).

Definition revivesRow (now : Z) (oldId : string) (t : ThreadRecord) : ThreadRecord :=
  set_updated_at now (set_revives_thread_id (Some oldId) t).

(** [state = CASE WHEN state = 'cooling' THEN 'active' ELSE state END],
    [last_message_at = GREATEST(COALESCE(last_message_at, $2), $2)] *)
Definition touchRow (now messageAt : Z) (t : ThreadRecord) : ThreadRecord :=
  set_last_message_at
    (Some (Z.max (default messageAt (thr_last_message_at t)) messageAt))
    (set_updated_at now
       (set_state (if bool_decide (thr_state t = cooling) then active else thr_state t) t)).

(** A falsy [string | null] counts as absent. *)
Definition present (o : option string) : option string :=
  if truthy o then o else None.

Record Applied := {
  ap_threadId : string;
  ap_createdThreadId : option string;
  ap_revivalLink : option (string * string)
}.

(** [UPDATE messages SET thread_id = $2, ... WHERE id = $1]: the new
    [thread_id] must reference a row of [threads]. *)
Definition assignMessage (id threadId : string) (note : string) (s : Store) : TxResult Store :=
  match messages s !! id, threads s !! threadId with
  | Some _, None => RolledBack ForeignKeyViolation
  | _, _ =>
      Committed
        (updateMessageById id
           (fun m => set_assignment assigned (Some note) (set_thread_id (Some threadId) m)) s)
  end.

(** [applyAssignment], lines 583-632: the thread the message goes to, a new
    row (with its revival link) or the one the decision names.  [newId] is
    the id the [INSERT] returns when it runs. *)
Definition provideThread (now : Z) (newId : string) (pending : PendingMessage)
    (decision : AssignmentDecision) (revivalSourceId : option string) (s : Store)
  : TxResult (Store * option string * option string * option (string * string)) :=
  if bool_decide (dec_action decision = create) || negb (truthy (dec_threadId decision))
  then
    s1 ← insertThread newId
            (newThreadRow (default (buildTitle (pend_content pending)) (dec_title decision))
                          (pend_created_at pending) now) s;
    match present revivalSourceId with
    | Some oldId =>
        let '(s2, rowCount) :=
          updateThreadById oldId isArchived (continuedInRow now newId) s1 in
        if (0 <? rowCount)%nat then
          let '(s3, _) := updateThreadById newId (fun _ => true) (revivesRow now oldId) s2 in
          mret (s3, Some newId, Some newId, Some (oldId, newId))
        else mret (s2, Some newId, Some newId, None)
    | None => mret (s1, Some newId, Some newId, None)
    end
  else mret (s, dec_threadId decision, None, None).

(** [applyAssignment]: one transaction. *)
Definition applyAssignment (now : Z) (newId : string) (pending : PendingMessage)
    (decision : AssignmentDecision) (revivalSourceId : option string) (s : Store)
  : TxResult (Store * Applied) :=
  '(s3, threadId, createdThreadId, revivalLink) ←
    provideThread now newId pending decision revivalSourceId s;
  match present threadId with
  | None => RolledBack NoThreadId
  | Some tid =>
      s4 ← assignMessage (pend_id pending) tid (dec_reason decision) s3;
      let '(s5, _) :=
        updateThreadById tid (fun _ => true) (touchRow now (pend_created_at pending)) s4 in
      mret (s5, {| ap_threadId := tid;
                   ap_createdThreadId := createdThreadId;
                   ap_revivalLink := revivalLink |})
  end.

(** What one run of [processSinglePendingMessage] meets: the clock, the id
    drawn for a new thread, the provider's two calls, and whether a round
    trip to the store inside the [try] block throws. *)
Record AssignmentEnv := {
  env_now : Z;
  env_newId : string;
  env_assignment : AICall AssignmentDecision;
  env_revival : AICall RevivalDecision;
  env_storeThrows : bool
}.

(** [processSinglePendingMessage], lines 325-343 *)
Definition decideAssignment (ai : AICall AssignmentDecision) (pending : PendingMessage)
    (candidates : list ThreadCandidate) (defaultTitle : string) : AssignmentDecision :=
  match candidates with
  | [] =>
      {| dec_action := create;
         dec_threadId := None;
         dec_title := Some defaultTitle;
         dec_confidence := Some 1%Q;
         dec_reason := "First thread in the system." |}
  | _ =>
      match ai with
      | AIAnswer aiDecision => normalizeAssignmentDecision aiDecision candidates defaultTitle
      | AIFailed | AIDisabled => fallbackAssignment pending candidates defaultTitle
      end
  end.

(** The [catch] clause of [processSinglePendingMessage]. *)
Definition markFailed (id : string) (s : Store) : Store :=
  updateMessageById id
    (set_assignment failed (Some "Assignment failed. Check server logs.")) s.

Definition processSinglePendingMessage (cfg : Config) (env : AssignmentEnv) (s : Store)
  : Store * bool :=
  match claimPendingMessage s with
  | None => (s, false)
  | Some claim =>
      let pending := fst claim in
      let s1 := snd claim in
      if env_storeThrows env then (markFailed (pend_id pending) s1, true)
      else
        let defaultTitle := buildTitle (pend_content pending) in
        let candidates := fetchActiveThreadCandidates cfg s1 in
        let decision := decideAssignment (env_assignment env) pending candidates defaultTitle in
        let revivalSourceId :=
          if bool_decide (dec_action decision = create)
          then findRevivalSource cfg (env_revival env) pending s1
          else None in
        match applyAssignment (env_now env) (env_newId env) pending decision revivalSourceId s1 with
        | Committed (s2, _) => (s2, true)
        | RolledBack _ => (markFailed (pend_id pending) s1, true)
        end
  end.

(** ** The producer (src/server.ts, [POST /api/messages]) *)

Definition postMessage (id author content : string) (now : Z) (s : Store) : Store :=
  match messages s !! id with
  | Some _ => s
  | None =>
      with_messages
        (<[id := {| msg_created_at := now;
                    msg_author := author;
                    msg_content := content;
                    msg_thread_id := None;
                    msg_assignment_status := pending;
                    msg_assignment_note := None |}]> (messages s)) s
  end.

(** ** Runs of the system *)

Inductive Op :=
  | OpPost (id author content : string) (now : Z)
  | OpAssign (env : AssignmentEnv)
  | OpLifecycle (nowCool nowArchive : Z)
  | OpMerge (ai : AICall MergeDecision) (now : Z).

Definition run (cfg : Config) (op : Op) (s : Store) : Store :=
  match op with
  | OpPost id author content now => postMessage id author content now s
  | OpAssign env => fst (processSinglePendingMessage cfg env s)
  | OpLifecycle nowCool nowArchive => lifecycleTick cfg nowCool nowArchive s
  | OpMerge ai now => mergeTick ai now s
  end.

(** The stores that the producer and the three loops build from the empty
    tables when every tick runs to its end before the next operation
    starts. *)
Inductive serial (cfg : Config) : Store -> Prop :=
  | serial_empty : serial cfg emptyStore
  | serial_run op s : serial cfg s -> serial cfg (run cfg op s).

(** ** The loops, one round trip to the store at a time

    The three loops are asynchronous functions on timers of their own: a
    tick gives way at every [await], and the producer and the other loops
    may reach the store between two of its round trips.  The engine is
    then the store together with what the loops hold between round trips:
    the message that the assignment loop has claimed, with the decision and
    the revival source once it has read them, and the pair of ids that the
    merge loop has decided to merge.  A decision of the provider belongs to
    the read it follows. *)
Inductive Assigning :=
  | Claimed (pending : PendingMessage)
  | Decided (pending : PendingMessage) (decision : AssignmentDecision)
  | Resolved (pending : PendingMessage) (decision : AssignmentDecision)
             (revivalSourceId : option string).

Definition claimedMessage (a : Assigning) : PendingMessage :=
  match a with
  | Claimed p => p
  | Decided p _ => p
  | Resolved p _ _ => p
  end.

Record Engine := {
  store : Store;
  assigning : option Assigning;
  merging : option (string * string)
}.

Definition idleEngine (s : Store) : Engine :=
  {| store := s; assigning := None; merging := None |}.

Definition with_store (s : Store) (e : Engine) : Engine :=
  {| store := s; assigning := assigning e; merging := merging e |}.

Definition with_assigning (a : option Assigning) (e : Engine) : Engine :=
  {| store := store e; assigning := a; merging := merging e |}.

Definition with_merging (m : option (string * string)) (e : Engine) : Engine :=
  {| store := store e; assigning := assigning e; merging := m |}.

(** What can happen next: a post; the round trips of
    [processSinglePendingMessage] in their order (the claim, the read of
    the candidates with the decision, the read of the archived threads with
    the revival source, the transaction, or a round trip that throws and
    the [catch] clause); a statement of the lifecycle pass; the read of the
    merge tick with its decision, and its transaction. *)
Inductive Event :=
  | Post (id author content : string) (now : Z)
  | Claim
  | Decide (ai : AICall AssignmentDecision)
  | LookForRevival (ai : AICall RevivalDecision)
  | Apply (now : Z) (newId : string)
  | Throw
  | Cool (now : Z)
  | Archive (now : Z)
  | MergeRead (ai : AICall MergeDecision)
  | MergeCommit (now : Z).

(** The engine after an event, when the event can happen: the busy flags
    keep each loop to one tick at a time. *)
Definition exec (cfg : Config) (ev : Event) (e : Engine) : option Engine :=
  match ev with
  | Post id author content now =>
      Some (with_store (postMessage id author content now (store e)) e)
  | Claim =>
      match assigning e, claimPendingMessage (store e) with
      | None, Some claim =>
          Some (with_assigning (Some (Claimed (fst claim))) (with_store (snd claim) e))
      | _, _ => None
      end
  | Decide ai =>
      match assigning e with
      | Some (Claimed p) =>
          let candidates := fetchActiveThreadCandidates cfg (store e) in
          let decision := decideAssignment ai p candidates (buildTitle (pend_content p)) in
          Some (with_assigning (Some (Decided p decision)) e)
      | _ => None
      end
  | LookForRevival ai =>
      match assigning e with
      | Some (Decided p decision) =>
          let revivalSourceId :=
            if bool_decide (dec_action decision = create)
            then findRevivalSource cfg ai p (store e)
            else None in
          Some (with_assigning (Some (Resolved p decision revivalSourceId)) e)
      | _ => None
      end
  | Apply now newId =>
      match assigning e with
      | Some (Resolved p decision revivalSourceId) =>
          let s' :=
            match applyAssignment now newId p decision revivalSourceId (store e) with
            | Committed (s2, _) => s2
            | RolledBack _ => markFailed (pend_id p) (store e)
            end in
          Some (with_assigning None (with_store s' e))
      | _ => None
      end
  | Throw =>
      match assigning e with
      | Some a =>
          Some (with_assigning None
                  (with_store (markFailed (pend_id (claimedMessage a)) (store e)) e))
      | None => None
      end
  | Cool now => Some (with_store (coolThreads cfg now (store e)) e)
  | Archive now => Some (with_store (archiveThreads cfg now (store e)) e)
  | MergeRead ai =>
      let candidates := fetchMergeCandidates (store e) in
      if (length candidates <? 2)%nat then None
      else
        match merging e, findMergePair candidates with
        | None, Some best =>
            match resolveMerge ai best with
            | Some ids => Some (with_merging (Some ids) e)
            | None => None
            end
        | _, _ => None
        end
  | MergeCommit now =>
      match merging e with
      | Some (sourceThreadId, targetThreadId) =>
          let s' :=
            match executeMerge now sourceThreadId targetThreadId (store e) with
            | Committed s2 => s2
            | RolledBack _ => store e
            end in
          Some (with_merging None (with_store s' e))
      | None => None
      end
  end.

Definition execAll (cfg : Config) (evs : list Event) (e : Engine) : option Engine :=
  foldl (fun oe ev => oe ≫= exec cfg ev) (Some e) evs.

(** The engines that the events build from the empty tables. *)
Inductive reachable (cfg : Config) : Engine -> Prop :=
  | reachable_start : reachable cfg (idleEngine emptyStore)
  | reachable_event ev e e' :
      reachable cfg e -> exec cfg ev e = Some e' -> reachable cfg e'.

(** ** The HTTP interface (src/server.ts) *)

(** [.split(",")]: the pieces between the separators; the empty string
    yields one empty piece. *)
Fixpoint split_on_from (sep : ascii) (cur : string) (s : string) : list string :=
  match s with
  | EmptyString => [cur]
  | String c r =>
      if Ascii.eqb c sep then cur :: split_on_from sep EmptyString r
      else split_on_from sep (cur ++ String c EmptyString) r
  end.

Definition split_on (sep : ascii) (s : string) : list string :=
  split_on_from sep EmptyString s.

(** [["active", "cooling", "archived", "superseded"].includes(state)] *)
Definition stateOfName (name : string) : option ThreadState :=
  if String.eqb name "active" then Some active
  else if String.eqb name "cooling" then Some cooling
  else if String.eqb name "archived" then Some archived
  else if String.eqb name "superseded" then Some superseded
  else None.

Definition allStates : list ThreadState := [active; cooling; archived; superseded].

(** [GET /api/threads], lines 102-112.  [states] is the query parameter
    when it is a string. *)
Definition requestedStates (states : option string) : list ThreadState :=
  let rawStates := default "" states in
  let requested := omap (fun piece => stateOfName (trim piece)) (split_on "," rawStates) in
  match requested with
  | [] => allStates
  | _ => requested
  end.

(** A row of the answer: the thread with the number of its messages and
    the content of the latest one. *)
Record ThreadListing := {
  tl_id : string;
  tl_thread : ThreadRecord;
  tl_message_count : nat;
  tl_preview : option string
}.

(** [COALESCE(t.last_message_at, t.created_at)] *)
Definition listedKey (t : ThreadRecord) : Z :=
  default (thr_created_at t) (thr_last_message_at t).

Definition listedBefore (a b : string * ThreadRecord) : Prop :=
  listedKey (snd b) ≤ listedKey (snd a).

#[global] Instance listedBefore_dec : RelDecision listedBefore.
Proof. intros a b. unfold listedBefore. apply _. Defined.

Definition messagesOf (threadId : string) (s : Store) : list MessageRecord :=
  filter (fun m => msg_thread_id m = Some threadId) (snd <$> map_to_list (messages s)).

(** The query of [GET /api/threads], lines 114-137. *)
Definition listThreads (states : list ThreadState) (s : Store) : list ThreadListing :=
  (fun row =>
     {| tl_id := fst row;
        tl_thread := snd row;
        tl_message_count := length (messagesOf (fst row) s);
        tl_preview :=
          msg_content <$> head (merge_sort newerMessage (messagesOf (fst row) s)) |})
  <$> merge_sort listedBefore
        (filter (fun row => thr_state (snd row) ∈ states) (map_to_list (threads s))).

Definition getThreads (states : option string) (s : Store) : list ThreadListing :=
  listThreads (requestedStates states) s.

(** [GET /api/messages], lines 30-33.  [limitParam] is
    [Number(req.query.limit ?? 200)]: a number, or a value that
    [Number.isFinite] refuses ([NaN], an infinity). *)
Inductive JSNumber :=
  | Finite (q : Q)
  | NotFinite.

Definition messageLimit (limitParam : JSNumber) : Q :=
  match limitParam with
  | Finite q => Qmin (Qmax q 1) 500
  | NotFinite => 200
  end.

(** A row of the answer: the message with the title and the state of its
    thread ([LEFT JOIN threads]). *)
Record MessageListing := {
  ml_id : string;
  ml_message : MessageRecord;
  ml_thread_title : option string;
  ml_thread_state : option ThreadState
}.

Definition newerRow (a b : string * MessageRecord) : Prop :=
  msg_created_at (snd b) ≤ msg_created_at (snd a).

#[global] Instance newerRow_dec : RelDecision newerRow.
Proof. intros a b. unfold newerRow. apply _. Defined.

(** The query of [GET /api/messages], lines 35-59: the [limit] latest
    messages, oldest first. *)
Definition listMessages (limit : nat) (s : Store) : list MessageListing :=
  (fun row =>
     let thread := msg_thread_id (snd row) ≫= (fun threadId => threads s !! threadId) in
     {| ml_id := fst row;
        ml_message := snd row;
        ml_thread_title := thr_title <$> thread;
        ml_thread_state := thr_state <$> thread |})
  <$> merge_sort olderMessage (take limit (merge_sort newerRow (map_to_list (messages s)))).

(** [createMessageSchema], lines 13-16: [z.string().trim().min(1).max(n)]
    on a field that is a string or not. *)
Definition trimmedWithin (least most : nat) (field : option string) : option string :=
  value ← field;
  let trimmed := trim value in
  if ((least <=? String.length trimmed) && (String.length trimmed <=? most))%nat
  then Some trimmed else None.

Definition createMessageSchema (author content : option string) : option (string * string) :=
  match trimmedWithin 1 40 author, trimmedWithin 1 2000 content with
  | Some a, Some c => Some (a, c)
  | _, _ => None
  end.

(** [POST /api/messages], lines 66-99: 400 for a payload that the schema
    refuses, 201 with the inserted row, or no answer when the [INSERT]
    throws. *)
Inductive PostAnswer :=
  | BadRequest
  | Created (id : string) (message : MessageRecord)
  | InsertThrows.

Definition handlePostMessage (author content : option string) (newId : string) (now : Z)
    (s : Store) : PostAnswer * Store :=
  match createMessageSchema author content with
  | None => (BadRequest, s)
  | Some (a, c) =>
      match messages s !! newId with
      | Some _ => (InsertThrows, s)
      | None =>
          (Created newId
             {| msg_created_at := now; msg_author := a; msg_content := c;
                msg_thread_id := None; msg_assignment_status := pending;
                msg_assignment_note := None |},
           postMessage newId a c now s)
      end
  end.

(** ** The page (public/app.js) *)

(** [.replaceAll(c, by)] for a pattern of one character. *)
Fixpoint replaceAll (c : ascii) (replacement : string) (s : string) : string :=
  match s with
  | EmptyString => EmptyString
  | String x r =>
      if Ascii.eqb x c then replacement ++ replaceAll c replacement r
      else String x (replaceAll c replacement r)
  end.

Definition escapeHtml (value : string) : string :=
  replaceAll ">" "&gt;" (replaceAll "<" "&lt;" (replaceAll "&" "&amp;" value)).

(** * The vocabulary of the properties *)

(** [e] sits at index [i] of [l], no entry scores higher, and every entry
    before it scores strictly lower. *)
Definition firstMax (l : list (string * Q)) (i : nat) (e : string * Q) : Prop :=
  l !! i = Some e
  ∧ (∀ j x, l !! j = Some x → (snd x <= snd e)%Q)
  ∧ (∀ j x, (j < i)%nat → l !! j = Some x → (snd x < snd e)%Q).

(** The score of a candidate against the text of the message. *)
Definition candidateScore (pending : PendingMessage) (c : ThreadCandidate) : Q :=
  scoreSimilarity (pend_content pending)
    (candidateText (cand_title c) (cand_recent_excerpt c)).

Definition pairIds (pair : MergePair) : gset string :=
  {[cand_id (pair_source pair); cand_id (pair_target pair)]}.

(** [last_message_at] of one pair member is not older than the other's. *)
Definition notOlder (kept dropped : MergeCandidate) : Prop :=
  laterThan (cand_last_message_at dropped) (cand_last_message_at kept) = false.

Definition archivedScore (pending : PendingMessage) (c : ArchivedCandidate) : Q :=
  scoreSimilarity (pend_content pending)
    (candidateText (arch_title c) (arch_recent_excerpt c)).

(** What one pass does to one row. *)
Definition lifecycleRow (cfg : Config) (nowCool nowArchive : Z) (row : ThreadRecord)
  : ThreadRecord :=
  let cooled :=
    if bool_decide (thr_state row = active)
       && idleBefore (nowCool - minutes (ACTIVE_TO_COOLING_MINUTES cfg)) row
    then coolRow nowCool row else row in
  if bool_decide (thr_state cooled = cooling)
     && idleBefore (nowArchive - hours (COOLING_TO_ARCHIVED_HOURS cfg)) cooled
  then archiveRow nowArchive cooled else cooled.

Definition pendingRows (s : Store) : list (string * MessageRecord) :=
  merge_sort olderMessage
    (filter (fun row => msg_assignment_status (snd row) = pending)
            (map_to_list (messages s))).

(** The three moves of [assignment_status]. *)
Inductive advances : AssignmentStatus -> AssignmentStatus -> Prop :=
  | advances_claim : advances pending in_progress
  | advances_assign : advances in_progress assigned
  | advances_fail : advances in_progress failed.

(** Any number of moves, one after the other. *)
Definition along : AssignmentStatus -> AssignmentStatus -> Prop := rtc advances.

(** The row a [create] inserts. *)
Definition insertedRow (now : Z) (pending : PendingMessage) (decision : AssignmentDecision)
  : ThreadRecord :=
  newThreadRow (default (buildTitle (pend_content pending)) (dec_title decision))
               (pend_created_at pending) now.

(** Every [revives_thread_id] is answered by the [continued_in_thread_id]
    of the row it names, every [continued_in_thread_id] by the
    [revives_thread_id] of the row it names, and a row that is continued
    elsewhere is superseded. *)
Definition revivalLinked (s : Store) : Prop :=
  (∀ x X y, threads s !! x = Some X → thr_revives_thread_id X = Some y →
     ∃ Y, threads s !! y = Some Y ∧ thr_continued_in_thread_id Y = Some x)
  ∧ (∀ y Y x, threads s !! y = Some Y → thr_continued_in_thread_id Y = Some x →
       thr_state Y = superseded
       ∧ ∃ X, threads s !! x = Some X ∧ thr_revives_thread_id X = Some y).

(** Rows are rewritten in place, the two link columns are kept, and no
    superseded row leaves that state. *)
Definition keepsLinks (s s' : Store) : Prop :=
  ∀ id,
    match threads s !! id, threads s' !! id with
    | Some row, Some row' =>
        thr_revives_thread_id row' = thr_revives_thread_id row
        ∧ thr_continued_in_thread_id row' = thr_continued_in_thread_id row
        ∧ (thr_state row = superseded → thr_state row' = superseded)
    | None, None => True
    | _, _ => False
    end.

(** The [assignment_status] of the message [id], when there is one. *)
Definition statusOf (s : Store) (id : string) : option AssignmentStatus :=
  msg_assignment_status <$> messages s !! id.

(** The message that the assignment loop holds between two round trips. *)
Definition heldId (e : Engine) : option string :=
  pend_id ∘ claimedMessage <$> assigning e.

(** The messages that are [in_progress] are the one that the assignment
    loop holds, and no other. *)
Definition holdsClaim (e : Engine) : Prop :=
  ∀ id, statusOf (store e) id = Some in_progress ↔ heldId e = Some id.

(** What a committed [applyAssignment] has done to the link columns.
    Either it reports a link (old, new): the old row was archived, the new
    row now revives it, the old row is superseded and continued in the new
    one, and no other row's link columns have changed.  Or it reports none:
    no link column of any row has changed, and a new row has none. *)
Definition linkWritten (newId : string) (revivalSourceId : option string)
    (s s' : Store) (applied : Applied) : Prop :=
  match ap_revivalLink applied with
  | Some (oldId, new) =>
      new = newId ∧ revivalSourceId = Some oldId
      ∧ threads s !! newId = None
      ∧ (∃ oldRow, threads s !! oldId = Some oldRow ∧ thr_state oldRow = archived)
      ∧ (∃ newRow', threads s' !! newId = Some newRow'
                    ∧ thr_revives_thread_id newRow' = Some oldId
                    ∧ thr_continued_in_thread_id newRow' = None)
      ∧ (∃ oldRow', threads s' !! oldId = Some oldRow'
                    ∧ thr_continued_in_thread_id oldRow' = Some newId
                    ∧ thr_state oldRow' = superseded)
      ∧ (∀ id row', id ≠ newId → id ≠ oldId → threads s' !! id = Some row' →
           ∃ row, threads s !! id = Some row
                  ∧ thr_revives_thread_id row' = thr_revives_thread_id row
                  ∧ thr_continued_in_thread_id row' = thr_continued_in_thread_id row)
  | None =>
      ∀ id row', threads s' !! id = Some row' →
        match threads s !! id with
        | Some row =>
            thr_revives_thread_id row' = thr_revives_thread_id row
            ∧ thr_continued_in_thread_id row' = thr_continued_in_thread_id row
        | None =>
            thr_revives_thread_id row' = None
            ∧ thr_continued_in_thread_id row' = None
        end
  end.

(** The two halves of every revival link answer each other. *)
Definition linksPaired (s : Store) : Prop :=
  ∀ x y X Y, threads s !! x = Some X → threads s !! y = Some Y →
    (thr_revives_thread_id X = Some y ↔ thr_continued_in_thread_id Y = Some x).

(** Every character of the string passes the test. *)
Fixpoint all_chars (p : ascii -> bool) (s : string) : bool :=
  match s with
  | EmptyString => true
  | String c r => p c && all_chars p r
  end.

(** The characters that [buildTitle] keeps, and the dot of its ellipsis. *)
Definition title_char (c : ascii) : bool :=
  is_word c || is_space c || (code c =? 45)%nat || (code c =? 46)%nat.

(** The score of two merge candidates against each other. *)
Definition pairScore (a b : MergeCandidate) : Q :=
  scoreSimilarity (candidateText (cand_title a) (cand_recent_excerpt a))
                  (candidateText (cand_title b) (cand_recent_excerpt b)).

(** [a] stands before [b] in the list. *)
Definition before {A : Type} (l : list A) (a b : A) : Prop :=
  ∃ i j, (i < j)%nat ∧ l !! i = Some a ∧ l !! j = Some b.

(** [COALESCE(last_message_at, updated_at)] of the thread [id]. *)
Definition recencyOf (s : Store) (id : string) : option Z :=
  recencyKey <$> threads s !! id.

(** The writes that the loops make to a row of [threads].  [ths'] is the
    table after the event, [target] the thread a pending merge reopens, and
    [id] the key of the row. *)
Inductive rowWrite (ths' : gmap string ThreadRecord) (target : option string) (id : string)
  : ThreadRecord -> ThreadRecord -> Prop :=
  | write_cool now row :
      thr_state row = active → thr_last_message_at row ≠ None →
      rowWrite ths' target id row (coolRow now row)
  | write_archive now row :
      thr_state row = cooling → thr_last_message_at row ≠ None →
      rowWrite ths' target id row (archiveRow now row)
  | write_touch now messageAt row :
      rowWrite ths' target id row (touchRow now messageAt row)
  | write_continued now newId row :
      thr_state row = archived → newId ≠ id → is_Some (ths' !! newId) →
      rowWrite ths' target id row (continuedInRow now newId row)
  | write_revives now oldId row :
      oldId ≠ id → is_Some (ths' !! oldId) →
      rowWrite ths' target id row (revivesRow now oldId row)
  | write_superseded now targetThreadId row :
      isLive row = true → target = Some targetThreadId →
      targetThreadId ≠ id → is_Some (ths' !! targetThreadId) →
      rowWrite ths' target id row (supersedeIntoRow now targetThreadId row)
  | write_reopen now lastMessageAt row :
      target = Some id →
      rowWrite ths' target id row (reopenRow now lastMessageAt row).

(** What an event does to the row [id]: it keeps it, with some writes; or
    it inserts it, with some writes; it never deletes it. *)
Definition rowAfter (ths ths' : gmap string ThreadRecord) (target : option string)
    (id : string) : Prop :=
  match ths !! id, ths' !! id with
  | Some row, Some row' => rtc (rowWrite ths' target id) row row'
  | None, Some row' =>
      ∃ title lastMessageAt now,
        rtc (rowWrite ths' target id) (newThreadRow title lastMessageAt now) row'
  | None, None => True
  | Some _, None => False
  end.

(** The pending merge names two threads. *)
Definition mergingDistinct (e : Engine) : Prop :=
  ∀ sourceThreadId targetThreadId,
    merging e = Some (sourceThreadId, targetThreadId) → sourceThreadId ≠ targetThreadId.

(** The writes that the producer and the loops make to a row of [messages]:
    the claim, the assignment, the [catch] clause, and the merge that moves
    the messages of its source. *)
Inductive messageWrite (e e' : Engine) (id : string) : MessageRecord -> MessageRecord -> Prop :=
  | write_claim m :
      msg_assignment_status m = pending → heldId e = None → heldId e' = Some id →
      messageWrite e e' id m (set_assignment_status in_progress m)
  | write_assigned threadId note m :
      heldId e = Some id → heldId e' = None → is_Some (threads (store e') !! threadId) →
      messageWrite e e' id m
        (set_assignment assigned (Some note) (set_thread_id (Some threadId) m))
  | write_failed m :
      heldId e = Some id → heldId e' = None →
      messageWrite e e' id m
        (set_assignment failed (Some "Assignment failed. Check server logs.") m)
  | write_moved sourceThreadId targetThreadId m :
      msg_thread_id m = Some sourceThreadId →
      is_Some (threads (store e') !! targetThreadId) →
      messageWrite e e' id m (set_thread_id (Some targetThreadId) m).

(** What an event does to the message [id]: nothing, one write, or the
    insertion of a pending message; it never deletes it. *)
Definition messageAfter (e e' : Engine) (id : string) : Prop :=
  match messages (store e) !! id, messages (store e') !! id with
  | Some m, Some m' => m' = m ∨ messageWrite e e' id m m'
  | None, Some m' =>
      msg_thread_id m' = None ∧ msg_assignment_status m' = pending
      ∧ msg_assignment_note m' = None
  | None, None => True
  | Some _, None => False
  end.

(** The three links of a row. *)
Definition linksOf (row : ThreadRecord) : list (option string) :=
  [thr_revives_thread_id row; thr_continued_in_thread_id row; thr_merged_into_thread_id row].

(** A row whose timestamps and links fit its state: an archived row has an
    [archived_at]; a superseded row has a [superseded_at] and says where
    the thread went; and every link names another row of the table. *)
Definition rowSound (ths : gmap string ThreadRecord) (id : string) (row : ThreadRecord) : Prop :=
  (thr_state row = archived → thr_archived_at row ≠ None)
  ∧ (thr_state row = superseded →
       thr_superseded_at row ≠ None
       ∧ (thr_merged_into_thread_id row ≠ None ∨ thr_continued_in_thread_id row ≠ None))
  ∧ (∀ other, Some other ∈ linksOf row → other ≠ id ∧ is_Some (ths !! other)).

(** A message has a thread exactly when it is assigned, and the thread is a
    row of the table. *)
Definition filed (s : Store) : Prop :=
  ∀ id m, messages s !! id = Some m →
    match msg_thread_id m with
    | Some threadId => msg_assignment_status m = assigned ∧ is_Some (threads s !! threadId)
    | None => msg_assignment_status m ≠ assigned
    end.

(** A row with a [merged_into_thread_id] is superseded, and the target of
    the pending merge has none. *)
Definition mergedAway (target : option string) (id : string) (row : ThreadRecord) : Prop :=
  (thr_merged_into_thread_id row ≠ None → thr_state row = superseded)
  ∧ (target = Some id → thr_merged_into_thread_id row = None).

(** The decision that the assignment loop holds between two round trips. *)
Definition decisionInFlight (e : Engine) : option AssignmentDecision :=
  match assigning e with
  | Some (Decided _ decision) | Some (Resolved _ decision _) => Some decision
  | _ => None
  end.

(** A decision that assigns names a row of the table. *)
Definition namesThread (ths : gmap string ThreadRecord) (decision : AssignmentDecision)
  : Prop :=
  dec_action decision = assign → truthy (dec_threadId decision) = true →
  ∃ threadId, dec_threadId decision = Some threadId ∧ is_Some (ths !! threadId).

(** The ids of the threads that are active or cooling. *)
Definition liveIds (s : Store) : gset string :=
  dom (filter (fun entry => isLive (snd entry) = true) (threads s)).

(** The name of a state in the query of [GET /api/threads]. *)
Definition stateName (st : ThreadState) : string :=
  match st with
  | active => "active"
  | cooling => "cooling"
  | archived => "archived"
  | superseded => "superseded"
  end.

(** The query parameter names the state, between two commas and up to white
    space. *)
Definition asksFor (states : option string) (st : ThreadState) : Prop :=
  ∃ piece, piece ∈ split_on "," (default "" states) ∧ trim piece = stateName st.

(** The number of messages of a thread. *)
Definition messageCount (threadId : string) (s : Store) : nat :=
  size (filter (fun entry => msg_thread_id (snd entry) = Some threadId) (messages s)).

(** [m] is a message of the thread, and none of its messages is later. *)
Definition latestMessage (threadId : string) (s : Store) (m : MessageRecord) : Prop :=
  (∃ id, messages s !! id = Some m)
  ∧ msg_thread_id m = Some threadId
  ∧ ∀ id' m', messages s !! id' = Some m' → msg_thread_id m' = Some threadId →
              msg_created_at m' ≤ msg_created_at m.

(** What [escapeHtml] writes for one character. *)
Definition escapeChar (c : ascii) : string :=
  if Ascii.eqb c "&" then "&amp;"
  else if Ascii.eqb c "<" then "&lt;"
  else if Ascii.eqb c ">" then "&gt;"
  else String c EmptyString.

(** The text that a reader of the three entities gets back. *)
Fixpoint unescapeHtml (s : string) : string :=
  match s with
  | String "&" (String "a" (String "m" (String "p" (String ";" r)))) =>
      String "&" (unescapeHtml r)
  | String "&" (String "l" (String "t" (String ";" r))) => String "<" (unescapeHtml r)
  | String "&" (String "g" (String "t" (String ";" r))) => String ">" (unescapeHtml r)
  | String c r => String c (unescapeHtml r)
  | EmptyString => EmptyString
  end.

(** A letter or a digit. *)
Definition is_alnum (c : ascii) : bool := is_lower c || is_upper c || is_digit c.

(** The text is empty or starts with a character that satisfies [p]; the
    text is empty or ends with one. *)
Definition starts_with (p : ascii -> bool) (s : string) : bool :=
  match s with
  | EmptyString => true
  | String c _ => p c
  end.

Fixpoint ends_with (p : ascii -> bool) (s : string) : bool :=
  match s with
  | EmptyString => true
  | String c EmptyString => p c
  | String _ r => ends_with p r
  end.

(** [run] is a run of characters of [text] that satisfy [p], as long as it
    can be: it is not empty, and what comes before it in the text does not
    end, and what comes after it does not start, with a character that
    satisfies [p]. *)
Definition maximalRun (p : ascii -> bool) (text run : string) : Prop :=
  run ≠ "" ∧ all_chars p run = true
  ∧ ∃ before after,
      text = before ++ run ++ after
      ∧ ends_with (fun c => negb (p c)) before = true
      ∧ starts_with (fun c => negb (p c)) after = true.

(** The tokens of a text, said without the steps of [tokenize]: the runs
    of letters and digits of the text, in lower case, that have at least
    three characters and are no stop word. *)
Definition isToken (text w : string) : Prop :=
  (∃ run, maximalRun is_alnum text run ∧ w = toLowerCase run)
  ∧ (3 <= String.length w)%nat
  ∧ w ∉ STOP_WORDS.

(** The size of the intersection over the size of the union, and 0 when
    one of the sets is empty. *)
Definition overlap (a b : gset string) : Q :=
  if decide (a = ∅ ∨ b = ∅) then 0%Q
  else (Z.of_nat (size (a ∩ b)) # Pos.of_nat (size (a ∪ b)))%Q.

(** [latest] is the [created_at] of a message of the thread, and none of
    its messages is later. *)
Definition latestOf (msgs : gmap string MessageRecord) (threadId : string) (latest : Z)
  : Prop :=
  (∃ id m, msgs !! id = Some m ∧ msg_thread_id m = Some threadId
           ∧ msg_created_at m = latest)
  ∧ ∀ id m, msgs !! id = Some m → msg_thread_id m = Some threadId →
            msg_created_at m ≤ latest.

(** Every thread that has not been merged into another has messages, and
    its [last_message_at] is the time of the latest of them, or that time
    cut to whole milliseconds, or a time in between. *)
Definition timed (s : Store) : Prop :=
  ∀ id row, threads s !! id = Some row → thr_merged_into_thread_id row = None →
    ∃ last latest,
      thr_last_message_at row = Some last ∧ latestOf (messages s) id latest
      ∧ asDate latest ≤ last ≤ latest.

(** The message that the assignment loop holds is a row of the table, and
    the loop has its time as a [Date]. *)
Definition heldFaithful (e : Engine) : Prop :=
  ∀ a, assigning e = Some a →
    ∃ m, messages (store e) !! pend_id (claimedMessage a) = Some m
         ∧ pend_created_at (claimedMessage a) = asDate (msg_created_at m).

(** * Sample data *)

Definition seconds (n : Z) : Z := n * 1000000.

Definition demoPending : PendingMessage :=
  {| pend_id := "m9";
     pend_created_at := seconds 900;
     pend_author := "ann";
     pend_content := "the deploy pipeline is still broken" |}.

Definition demoCandidates : list ThreadCandidate :=
  [ {| cand_id := "lunch"; cand_title := "Lunch"; cand_state := active;
       cand_last_message_at := Some (seconds 800);
       cand_recent_excerpt := "where shall we eat today" |};
    {| cand_id := "deploy"; cand_title := "Deploy"; cand_state := active;
       cand_last_message_at := Some (seconds 700);
       cand_recent_excerpt := "deploy pipeline broken" |};
    {| cand_id := "deploy2"; cand_title := "Pipeline"; cand_state := cooling;
       cand_last_message_at := Some (seconds 600);
       cand_recent_excerpt := "broken deploy" |} ].

(** Two threads with the same words, and what the provider may say of them. *)
Definition threadA : MergeCandidate :=
  {| cand_id := "a"; cand_title := "Deploy"; cand_state := active;
     cand_last_message_at := Some (seconds 10);
     cand_recent_excerpt := "deploy pipeline broken" |}.

Definition threadB : MergeCandidate :=
  {| cand_id := "b"; cand_title := "Deploy"; cand_state := active;
     cand_last_message_at := Some (seconds 5);
     cand_recent_excerpt := "broken deploy pipeline" |}.

(** A thread that shares three of four words with [threadA]. *)
Definition threadC : MergeCandidate :=
  {| cand_id := "c"; cand_title := "Deploy"; cand_state := active;
     cand_last_message_at := Some (seconds 3);
     cand_recent_excerpt := "broken pipeline yesterday" |}.

Definition pairAB : MergePair := scorePair (threadA, threadB).
Definition pairAC : MergePair := scorePair (threadA, threadC).

Definition aiDeclines : MergeDecision :=
  {| md_shouldMerge := false; md_sourceThreadId := "a"; md_targetThreadId := "b";
     md_confidence := (9 # 10)%Q; md_reason := "Different incidents." |}.

Definition aiNamesStrangers : MergeDecision :=
  {| md_shouldMerge := true; md_sourceThreadId := "x"; md_targetThreadId := "y";
     md_confidence := (9 # 10)%Q; md_reason := "Same topic." |}.

Definition aiReverses : MergeDecision :=
  {| md_shouldMerge := true; md_sourceThreadId := "b"; md_targetThreadId := "a";
     md_confidence := (9 # 10)%Q; md_reason := "Same incident." |}.

Definition archivedDeploy : ArchivedCandidate :=
  {| arch_id := "d"; arch_title := "Deploy";
     arch_recent_excerpt := "deploy pipeline broken" |}.

Definition archivedLunch : ArchivedCandidate :=
  {| arch_id := "l"; arch_title := "Lunch";
     arch_recent_excerpt := "where shall we eat today" |}.

Definition aiFindsNothing : RevivalDecision :=
  {| rd_archivedThreadId := None; rd_confidence := 1%Q |}.

Definition aiUnsure : RevivalDecision :=
  {| rd_archivedThreadId := Some "l"; rd_confidence := (5 # 10)%Q |}.

Definition mergeStore : Store :=
  {| threads :=
       {[ "a" := newThreadRow "Deploy" (seconds 10) (seconds 10);
          "b" := newThreadRow "Deploy" (seconds 5) (seconds 5) ]};
     messages :=
       {[ "m1" := {| msg_created_at := seconds 10; msg_author := "ann";
                     msg_content := "deploy pipeline broken";
                     msg_thread_id := Some "a"; msg_assignment_status := assigned;
                     msg_assignment_note := Some "First thread in the system." |};
          "m2" := {| msg_created_at := seconds 5; msg_author := "bob";
                     msg_content := "broken deploy pipeline";
                     msg_thread_id := Some "b"; msg_assignment_status := assigned;
                     msg_assignment_note := Some "No clear active thread match." |} ]} |}.

Definition demoCreate : AssignmentDecision :=
  {| dec_action := create; dec_threadId := None; dec_title := Some "Rollout plan";
     dec_confidence := Some (62 # 100)%Q;
     dec_reason := "No strong overlap with existing active threads." |}.

Definition demoAssign : AssignmentDecision :=
  {| dec_action := assign; dec_threadId := Some "a"; dec_title := None;
     dec_confidence := Some 1%Q;
     dec_reason := "Heuristic token overlap matched an existing thread." |}.

(** A run without the provider: "Hello world" creates thread [t1]; it idles
    to cooling and to archived; "hello world" comes again, creates [t3] and
    revives [t1]. *)
Definition heuristicEnv (now : Z) (newId : string) : AssignmentEnv :=
  {| env_now := now; env_newId := newId;
     env_assignment := AIDisabled; env_revival := AIDisabled;
     env_storeThrows := false |}.

Definition runAll (cfg : Config) (ops : list Op) (s : Store) : Store :=
  foldl (fun s op => run cfg op s) s ops.

Definition helloOps : list Op :=
  [ OpPost "m1" "ann" "Hello world" (seconds 1); OpAssign (heuristicEnv (seconds 5) "t1") ].

Definition archivingOps : list Op :=
  helloOps ++ [ OpLifecycle (minutes 31) (minutes 31); OpLifecycle (hours 73) (hours 73) ].

Definition revivingOps : list Op :=
  archivingOps ++ [ OpPost "m3" "bob" "hello world" (hours 74);
                    OpAssign (heuristicEnv (hours 74) "t3") ].

Definition postedStore : Store :=
  runAll defaultConfig [ OpPost "m1" "ann" "Hello world" (seconds 1) ] emptyStore.

Definition postedEngine : Engine := idleEngine postedStore.

Definition revivedStore : Store := runAll defaultConfig revivingOps emptyStore.

Definition aiAssigns : AssignmentDecision :=
  {| dec_action := assign; dec_threadId := Some "deploy"; dec_title := None;
     dec_confidence := Some (9 # 10)%Q; dec_reason := "Same incident." |}.

Definition aiGuesses : AssignmentDecision :=
  {| dec_action := assign; dec_threadId := Some "deploy"; dec_title := None;
     dec_confidence := Some (4 # 10)%Q; dec_reason := "" |}.

(** A run with the provider enabled, in which a merge tick commits eleven
    seconds after it has read.  Threads [S] (last message at 0 s) and [T]
    (at 5 s) hold the same words.  At 72 h + 1 s the merge tick reads both,
    cooling, and decides to merge [S] into [T], the more recent of the two.
    Before its transaction runs: a message is assigned to [S] (72 h + 2 s);
    the lifecycle pass of 72 h + 10 s archives [T]; a message creates [N],
    which revives [T] (72 h + 11 s).  At 72 h + 12 s the merge commits.
    Three days later [T] is archived again and a message creates [N2],
    which revives it. *)
Definition aiCreates : AssignmentDecision :=
  {| dec_action := create; dec_threadId := None; dec_title := None;
     dec_confidence := Some (9 # 10)%Q; dec_reason := "New topic." |}.

Definition aiAssignsTo (threadId : string) : AssignmentDecision :=
  {| dec_action := assign; dec_threadId := Some threadId; dec_title := None;
     dec_confidence := Some (9 # 10)%Q; dec_reason := "Same topic." |}.

Definition aiNoRevival : RevivalDecision :=
  {| rd_archivedThreadId := None; rd_confidence := 0%Q |}.

Definition aiRevives (threadId : string) : RevivalDecision :=
  {| rd_archivedThreadId := Some threadId; rd_confidence := (9 # 10)%Q |}.

Definition aiMerges (source target : string) : MergeDecision :=
  {| md_shouldMerge := true; md_sourceThreadId := source; md_targetThreadId := target;
     md_confidence := (9 # 10)%Q; md_reason := "Duplicates." |}.

Definition raceSetup : list Event :=
  [ Post "mS" "ann" "deploy pipeline broken" 0;
    Claim; Decide (AIAnswer aiCreates); LookForRevival (AIAnswer aiNoRevival);
    Apply (seconds 1) "S";
    Post "mT" "bob" "deploy pipeline broken too" (seconds 5);
    Claim; Decide (AIAnswer aiCreates); LookForRevival (AIAnswer aiNoRevival);
    Apply (seconds 6) "T";
    Cool (minutes 31); Archive (minutes 31);
    Cool (hours 72); Archive (hours 72) ].

Definition raceRead : list Event :=
  [ MergeRead (AIAnswer (aiMerges "T" "S")) ].

Definition raceMeanwhile : list Event :=
  [ Post "m1" "cat" "still broken" (hours 72 + seconds 2);
    Claim; Decide (AIAnswer (aiAssignsTo "S")); LookForRevival (AIAnswer aiNoRevival);
    Apply (hours 72 + seconds 3) "unused";
    Cool (hours 72 + seconds 10); Archive (hours 72 + seconds 10);
    Post "m2" "dan" "deploy pipeline broken too again" (hours 72 + seconds 11);
    Claim; Decide (AIAnswer aiCreates); LookForRevival (AIAnswer (aiRevives "T"));
    Apply (hours 72 + seconds 11) "N" ].

Definition raceCommit : list Event :=
  [ MergeCommit (hours 72 + seconds 12) ].

Definition raceLater : list Event :=
  [ Cool (hours 145); Archive (hours 145);
    Post "m3" "eve" "deploy pipeline" (hours 146);
    Claim; Decide (AIAnswer aiCreates); LookForRevival (AIAnswer (aiRevives "T"));
    Apply (hours 146) "N2" ].

Definition raceEvents : list Event :=
  raceSetup ++ raceRead ++ raceMeanwhile ++ raceCommit ++ raceLater.

(** The engine after a run from the empty tables, and the state and the
    two link columns of a thread there. *)
Definition raceAt (evs : list Event) : option Engine :=
  execAll defaultConfig evs (idleEngine emptyStore).

Definition linkColumns (evs : list Event) (id : string)
  : option (ThreadState * option string * option string) :=
  e ← raceAt evs;
  row ← threads (store e) !! id;
  Some (thr_state row, thr_revives_thread_id row, thr_continued_in_thread_id row).

(** The run [raceEvents] up to the commit of the merge, and up to the
    moment the assignment loop is about to apply its decision on [m1]. *)
Definition raceMerged : list Event := raceSetup ++ raceRead ++ raceMeanwhile ++ raceCommit.

Definition raceDeciding : list Event := raceSetup ++ raceRead ++ take 4 raceMeanwhile.

(** [mergeStore] with the message of [demoPending] claimed. *)
Definition claimedStore : Store :=
  updateMessageById "m9" (set_assignment_status in_progress)
    (postMessage "m9" "ann" "the deploy pipeline is still broken" (seconds 900) mergeStore).

(** * Properties *)

(** ** The similarity score *)

Lemma jaccard_intersection (a b : gset string) :
  length (List.filter (fun token => bool_decide (token ∈ b)) (elements a)) = size (a ∩ b).
Proof.
  unfold size, set_size. simpl. apply Permutation_length, NoDup_Permutation.
  - apply NoDup_ListNoDup, List.NoDup_filter, NoDup_ListNoDup, NoDup_elements.
  - apply NoDup_elements.
  - intros x. rewrite elem_of_elements, elem_of_intersection, list_elem_of_In, List.filter_In.
    rewrite <- list_elem_of_In, elem_of_elements, bool_decide_eq_true. done.
Qed.

Lemma size_union_intersection (a b : gset string) :
  (size (a ∪ b) = size a + size b - size (a ∩ b))%nat
  ∧ (size (a ∩ b) <= size a)%nat ∧ (size (a ∩ b) <= size b)%nat.
Proof.
  rewrite size_union_alt, size_difference_alt.
  assert (size (a ∩ b) <= size a)%nat as Hla
    by apply subseteq_size, intersection_subseteq_l.
  assert (size (a ∩ b) <= size b)%nat as Hlb
    by apply subseteq_size, intersection_subseteq_r.
  rewrite (comm_L (∩) b a). lia.
Qed.

Lemma jaccard_ratio (a b : gset string) :
  a ≠ ∅ → b ≠ ∅ →
  jaccard a b = (Z.of_nat (size (a ∩ b)) # Pos.of_nat (size (a ∪ b)))%Q
  ∧ (0 < size (a ∪ b))%nat.
Proof.
  intros Ha Hb. unfold jaccard.
  assert (size a ≠ 0%nat) as Hsa by (by apply size_non_empty_iff; intros ?%leibniz_equiv).
  assert (size b ≠ 0%nat) as Hsb by (by apply size_non_empty_iff; intros ?%leibniz_equiv).
  destruct (size a =? 0)%nat eqn:Ea; [by apply Nat.eqb_eq in Ea|].
  destruct (size b =? 0)%nat eqn:Eb; [by apply Nat.eqb_eq in Eb|]. simpl.
  rewrite jaccard_intersection.
  destruct (size_union_intersection a b) as (-> & ? & ?). split; [done|lia].
Qed.

(** [jaccard] is the size of the intersection over the size of the union. *)
Lemma jaccard_overlap (a b : gset string) : jaccard a b = overlap a b.
Proof.
  unfold overlap. destruct (decide (a = ∅ ∨ b = ∅)) as [Hempty|Hne].
  - unfold jaccard. destruct Hempty as [-> | ->]; [done|].
    by rewrite size_empty, orb_true_r.
  - apply jaccard_ratio; intros ->; apply Hne; auto.
Qed.

(** ** The tokens of a text *)

Lemma string_app_assoc (s t u : string) : (s ++ t) ++ u = s ++ (t ++ u).
Proof.
  induction s as [|x s IH]; [done|].
  change (String x ((s ++ t) ++ u) = String x (s ++ (t ++ u))). by rewrite IH.
Qed.

Lemma map_chars_compose (f g : ascii -> ascii) (s : string) :
  map_chars f (map_chars g s) = map_chars (fun c => f (g c)) s.
Proof. induction s as [|c s IH]; simpl; [done|]. by rewrite IH. Qed.

Lemma elem_of_tokenize (input w : string) :
  w ∈ tokenize input ↔
  w ∈ split_ws (map_chars blank_non_alnum (toLowerCase input)) ∧ keep_word w = true.
Proof.
  unfold tokenize. rewrite elem_of_list_to_set, list_elem_of_In, List.filter_In.
  by rewrite <- list_elem_of_In.
Qed.

Lemma string_app_nil_r (s : string) : s ++ "" = s.
Proof. induction s as [|c s IH]; [done|]. change (String c (s ++ "") = String c s). by rewrite IH. Qed.

Lemma string_app_nil_l (s : string) : "" ++ s = s.
Proof. done. Qed.

Lemma string_app_cons (c : ascii) (s t : string) : String c s ++ t = String c (s ++ t).
Proof. done. Qed.

Lemma string_app_eq_nil (s t : string) : s ++ t = "" → s = "" ∧ t = "".
Proof. destruct s; [done|]. rewrite string_app_cons. done. Qed.

Lemma ends_with_cons (p : ascii -> bool) (c : ascii) (s : string) :
  s ≠ "" → ends_with p (String c s) = ends_with p s.
Proof. by destruct s. Qed.

(** The pieces that [split_ws_from] yields, the empty ones apart: the one
    under way, continued up to the next white space, and the runs that
    follow white space. *)
Lemma split_ws_from_spec (s cur : string) (in_ws : bool) (w : string) :
  w ≠ "" → (in_ws = true → cur = "") →
  w ∈ split_ws_from cur in_ws s ↔
    (∃ run after,
       s = run ++ after ∧ all_chars (fun c => negb (is_space c)) run = true
       ∧ starts_with is_space after = true ∧ w = cur ++ run)
    ∨ (∃ before run after,
         s = before ++ run ++ after ∧ before ≠ "" ∧ ends_with is_space before = true
         ∧ all_chars (fun c => negb (is_space c)) run = true
         ∧ starts_with is_space after = true ∧ w = run).
Proof.
  intros Hw. revert cur in_ws. induction s as [|c s IH]; intros cur in_ws Hcur.
  - simpl. rewrite list_elem_of_singleton. split.
    + intros ->. left. exists "", "". by rewrite !string_app_nil_r.
    + intros [(run & after & Hs & _ & _ & ->)|(before & run & after & Hs & Hne & _)].
      * symmetry in Hs. apply string_app_eq_nil in Hs as [-> _]. by rewrite string_app_nil_r.
      * symmetry in Hs. by apply string_app_eq_nil in Hs as [-> _].
  - (* what the rest of the text gives when it follows white space *)
    assert (∀ P : Prop,
              (P ↔ (∃ run after,
                      s = run ++ after ∧ all_chars (fun c => negb (is_space c)) run = true
                      ∧ starts_with is_space after = true ∧ w = "" ++ run)
                   ∨ (∃ before run after,
                        s = before ++ run ++ after ∧ before ≠ ""
                        ∧ ends_with is_space before = true
                        ∧ all_chars (fun c => negb (is_space c)) run = true
                        ∧ starts_with is_space after = true ∧ w = run)) →
              is_space c = true →
              (P ↔ ∃ before run after,
                     String c s = before ++ run ++ after ∧ before ≠ ""
                     ∧ ends_with is_space before = true
                     ∧ all_chars (fun c => negb (is_space c)) run = true
                     ∧ starts_with is_space after = true ∧ w = run)) as Hrest.
    { intros P -> Hc. split.
      - intros [(run & after & -> & Hrun & Hafter & ->)
               |(before & run & after & -> & Hne & Hend & Hrun & Hafter & ->)].
        + exists (String c ""), run, after. by rewrite string_app_cons.
        + exists (String c before), run, after. rewrite string_app_cons.
          by rewrite ends_with_cons.
      - intros (before & run & after & Hs & Hne & Hend & Hrun & Hafter & ->).
        destruct before as [|c' before]; [done|]. rewrite string_app_cons in Hs.
        injection Hs as <- ->. destruct before as [|c'' before].
        + left. by exists run, after.
        + right. by exists (String c'' before), run, after. }
    simpl. destruct (is_space c) eqn:Hc.
    + destruct in_ws.
      * rewrite (Hcur eq_refl).
        rewrite (Hrest _ (IH "" true (fun _ => eq_refl)) eq_refl). split; [by right|].
        intros [(run & after & Hs & Hrun & _ & ->)|H]; [|done].
        destruct run as [|c' run]; [done|]. rewrite string_app_cons in Hs. injection Hs as <- _.
        simpl in Hrun. by rewrite Hc in Hrun.
      * rewrite elem_of_cons.
        rewrite (Hrest _ (IH "" true (fun _ => eq_refl)) eq_refl). split.
        -- intros [->|H]; [|by right]. left. exists "", (String c s).
           simpl. by rewrite string_app_nil_r.
        -- intros [(run & after & Hs & Hrun & _ & ->)|H]; [|by right]. left.
           destruct run as [|c' run]; [by rewrite string_app_nil_r|].
           rewrite string_app_cons in Hs. injection Hs as <- _.
           simpl in Hrun. by rewrite Hc in Hrun.
    + rewrite (IH (cur ++ String c "") false) by done. split.
      * intros [(run & after & -> & Hrun & Hafter & ->)
               |(before & run & after & -> & Hne & Hend & Hrun & Hafter & ->)].
        -- left. exists (String c run), after. rewrite string_app_cons. simpl. rewrite Hc.
           by rewrite string_app_assoc.
        -- right. exists (String c before), run, after. rewrite string_app_cons.
           by rewrite ends_with_cons.
      * intros [(run & after & Hs & Hrun & Hafter & ->)
               |(before & run & after & Hs & Hne & Hend & Hrun & Hafter & ->)].
        -- left. destruct run as [|c' run].
           { rewrite string_app_nil_l in Hs. subst after. simpl in Hafter. congruence. }
           rewrite string_app_cons in Hs. injection Hs as <- ->.
           exists run, after. simpl in Hrun. rewrite Hc in Hrun.
           by rewrite string_app_assoc.
        -- right. destruct before as [|c' before]; [done|]. rewrite string_app_cons in Hs.
           injection Hs as <- ->. destruct before as [|c'' before].
           { simpl in Hend. congruence. }
           by exists (String c'' before), run, after.
Qed.

(** The pieces of [split_ws], the empty ones apart, are the runs of
    characters other than white space, as long as they can be. *)
Lemma elem_of_split_ws (s w : string) :
  w ≠ "" → w ∈ split_ws s ↔ maximalRun (fun c => negb (is_space c)) s w.
Proof.
  intros Hw. unfold split_ws. rewrite (split_ws_from_spec s "" false w Hw) by done.
  unfold maximalRun.
  assert (∀ t, ends_with (fun c => negb (negb (is_space c))) t = ends_with is_space t) as Hends.
  { intros t. induction t as [|c [|c' t] IH]; simpl; [done|apply negb_involutive|apply IH]. }
  assert (∀ t, starts_with (fun c => negb (negb (is_space c))) t = starts_with is_space t)
    as Hstarts.
  { intros [|c t]; simpl; [done|apply negb_involutive]. }
  split.
  - intros [(run & after & -> & Hrun & Hafter & ->)
           |(before & run & after & -> & Hne & Hend & Hrun & Hafter & ->)].
    + split; [done|]. split; [done|]. exists "", after. by rewrite Hstarts.
    + split; [done|]. split; [done|]. exists before, after. by rewrite Hends, Hstarts.
  - intros (_ & Hrun & before & after & -> & Hend & Hafter).
    rewrite Hends in Hend. rewrite Hstarts in Hafter.
    destruct before as [|c before].
    + left. by exists w, after.
    + right. by exists (String c before), w, after.
Qed.

Lemma map_chars_app (f : ascii -> ascii) (s t : string) :
  map_chars f (s ++ t) = map_chars f s ++ map_chars f t.
Proof.
  induction s as [|c s IH]; [done|]. rewrite string_app_cons. simpl.
  by rewrite IH, string_app_cons.
Qed.

Lemma map_chars_app_inv (f : ascii -> ascii) (s x y : string) :
  map_chars f s = x ++ y →
  ∃ s1 s2, s = s1 ++ s2 ∧ map_chars f s1 = x ∧ map_chars f s2 = y.
Proof.
  revert s. induction x as [|c x IH]; intros s Hs.
  - by exists "", s.
  - rewrite string_app_cons in Hs. destruct s as [|c' s]; [done|]. simpl in Hs.
    injection Hs as Hc Hs. destruct (IH s Hs) as (s1 & s2 & -> & <- & <-).
    exists (String c' s1), s2. simpl. by rewrite Hc.
Qed.

Lemma all_chars_map (p q : ascii -> bool) (f : ascii -> ascii) (s : string) :
  (∀ c, q (f c) = p c) → all_chars q (map_chars f s) = all_chars p s.
Proof. intros Hf. induction s as [|c s IH]; simpl; [done|]. by rewrite Hf, IH. Qed.

Lemma ends_with_map (p q : ascii -> bool) (f : ascii -> ascii) (s : string) :
  (∀ c, q (f c) = p c) → ends_with q (map_chars f s) = ends_with p s.
Proof.
  intros Hf. induction s as [|c [|c' s] IH]; simpl; [done|apply Hf|apply IH].
Qed.

Lemma starts_with_map (p q : ascii -> bool) (f : ascii -> ascii) (s : string) :
  (∀ c, q (f c) = p c) → starts_with q (map_chars f s) = starts_with p s.
Proof. intros Hf. destruct s; simpl; [done|apply Hf]. Qed.

(** The runs of a text that has been mapped character by character are
    the runs of the text, mapped. *)
Lemma maximalRun_map (p q : ascii -> bool) (f : ascii -> ascii) (text w : string) :
  (∀ c, q (f c) = p c) →
  maximalRun q (map_chars f text) w ↔ ∃ run, maximalRun p text run ∧ w = map_chars f run.
Proof.
  intros Hf.
  assert (∀ c, negb (q (f c)) = negb (p c)) as Hnf by (intros c; by rewrite Hf).
  split.
  - intros (Hne & Hall & before & after & Htext & Hend & Hstart).
    apply map_chars_app_inv in Htext as (b & rest & -> & <- & Hrest).
    apply map_chars_app_inv in Hrest as (run & a & -> & <- & <-).
    exists run. split; [|done]. split; [by destruct run|].
    split; [by rewrite (all_chars_map p q) in Hall|].
    exists b, a. split; [done|].
    by rewrite (ends_with_map _ _ _ _ Hnf) in Hend;
       rewrite (starts_with_map _ _ _ _ Hnf) in Hstart.
  - intros (run & (Hne & Hall & before & after & -> & Hend & Hstart) & ->).
    split; [by destruct run|]. split; [by rewrite (all_chars_map p q)|].
    exists (map_chars f before), (map_chars f after). rewrite !map_chars_app.
    split; [done|].
    by rewrite (ends_with_map _ _ _ _ Hnf), (starts_with_map _ _ _ _ Hnf).
Qed.

(** What [tokenize] does to one character before it splits the text: a
    letter or a digit becomes its lower case, anything else white space. *)
Lemma blank_lower_space (c : ascii) :
  negb (is_space (blank_non_alnum (lower c))) = is_alnum c.
Proof. destruct c as [[] [] [] [] [] [] [] []]; reflexivity. Qed.

Lemma blank_lower_alnum (c : ascii) :
  is_alnum c = true → blank_non_alnum (lower c) = lower c.
Proof. destruct c as [[] [] [] [] [] [] [] []]; (reflexivity || discriminate). Qed.

Lemma keep_word_true (w : string) :
  keep_word w = true ↔ (3 <= String.length w)%nat ∧ w ∉ STOP_WORDS.
Proof.
  unfold keep_word. rewrite andb_true_iff, Nat.leb_le, negb_true_iff, bool_decide_eq_false.
  done.
Qed.

(** The tokens of a text are its runs of letters and digits, in lower
    case, of three characters or more, the stop words apart. *)
Lemma tokenize_isToken (text w : string) : w ∈ tokenize text ↔ isToken text w.
Proof.
  rewrite elem_of_tokenize, keep_word_true. unfold isToken, toLowerCase.
  rewrite map_chars_compose.
  assert ((3 <= String.length w)%nat → w ≠ "") as Hlen by (by destruct w; simpl; [lia|]).
  assert (∀ run, all_chars is_alnum run = true →
            map_chars (fun c => blank_non_alnum (lower c)) run = map_chars lower run) as Hrun.
  { intros run. induction run as [|c run IH]; simpl; [done|].
    intros [Hc Hall]%andb_true_iff. by rewrite (blank_lower_alnum c Hc), IH. }
  split.
  - intros [Hin [Hthree Hstop]]. split; [|done].
    apply elem_of_split_ws in Hin; [|by apply Hlen].
    apply (maximalRun_map is_alnum) in Hin as (run & Hmax & ->); [|apply blank_lower_space].
    exists run. split; [done|]. apply Hrun. by destruct Hmax as (_ & ? & _).
  - intros [(run & Hmax & ->) [Hthree Hstop]]. split; [|done].
    apply elem_of_split_ws; [by apply Hlen|].
    apply (maximalRun_map is_alnum); [apply blank_lower_space|].
    exists run. split; [done|]. symmetry. apply Hrun. by destruct Hmax as (_ & ? & _).
Qed.

(** ** Comparisons of scores *)

Lemma Qge_bool_iff (x y : Q) : Qge_bool x y = true <-> (y <= x)%Q.
Proof. unfold Qge_bool. apply Qle_bool_iff. Qed.

Lemma Qge_bool_false (x y : Q) : Qge_bool x y = false <-> (x < y)%Q.
Proof.
  unfold Qge_bool. split.
  - intros Hb. apply Qnot_le_lt. intros Hle. apply Qle_bool_iff in Hle. congruence.
  - intros Hlt. destruct (Qle_bool y x) eqn:Hb; [|done].
    apply Qle_bool_iff in Hb. exfalso. by apply (Qlt_not_le x y).
Qed.

Lemma Qgt_bool_iff (x y : Q) : Qgt_bool x y = true <-> (y < x)%Q.
Proof.
  unfold Qgt_bool. rewrite negb_true_iff. apply (Qge_bool_false y x).
Qed.

Lemma Qgt_bool_false (x y : Q) : Qgt_bool x y = false <-> (x <= y)%Q.
Proof.
  unfold Qgt_bool. rewrite negb_false_iff. apply Qle_bool_iff.
Qed.

(** [Math.min(1, x)] is the smaller of the two. *)
Lemma min1_Qmin (x : Q) : min1 x = Qmin 1 x.
Proof.
  unfold min1. destruct (Qle_bool 1 x) eqn:Hb.
  - apply Qle_bool_iff in Hb. symmetry.
    unfold Qmin, GenericMinMax.gmin.
    destruct (1 ?= x)%Q eqn:Hc; [reflexivity|reflexivity|].
    apply Qgt_alt in Hc. exfalso. by apply (Qlt_not_le x 1).
  - assert (x < 1)%Q as Hlt by (by apply (Qge_bool_false x 1)).
    unfold Qmin, GenericMinMax.gmin.
    apply Qgt_alt in Hlt. by rewrite Hlt.
Qed.

(** ** The loop that keeps the best score *)

Lemma bestOf_snoc (l : list (string * Q)) (e : string * Q) :
  bestOf (l ++ [e]) = keepBest (bestOf l) e.
Proof. unfold bestOf. by rewrite foldl_app. Qed.

Lemma bestOf_nil_inv (l : list (string * Q)) : bestOf l = None → l = [].
Proof.
  induction l as [|e l IH] using rev_ind; [done|].
  rewrite bestOf_snoc. unfold keepBest.
  destruct (bestOf l) as [b|]; [|done].
  by destruct (Qgt_bool (snd e) (snd b)).
Qed.

Lemma bestOf_firstMax (l : list (string * Q)) :
  l ≠ [] → ∃ i e, bestOf l = Some e ∧ firstMax l i e.
Proof.
  induction l as [|e l IH] using rev_ind; [done|]. intros _.
  rewrite bestOf_snoc.
  destruct (decide (l = [])) as [->|Hne].
  - exists 0%nat, e. split; [done|]. split; [done|]. split.
    + intros [|j] x Hx; simplify_eq/=. apply Qle_refl.
    + intros j x Hj. lia.
  - destruct (IH Hne) as (i & b & Hbest & Hi & Hmax & Hfirst).
    rewrite Hbest. unfold keepBest.
    destruct (Qgt_bool (snd e) (snd b)) eqn:Hcmp.
    + apply Qgt_bool_iff in Hcmp.
      exists (length l), e. split; [done|]. split; [|split].
      * by rewrite list_lookup_middle.
      * intros j x Hx. apply lookup_app_Some in Hx as [Hx|[_ Hx]].
        -- apply Qlt_le_weak. eapply Qle_lt_trans; [by eapply Hmax|done].
        -- apply list_lookup_singleton_Some in Hx as [_ <-]. apply Qle_refl.
      * intros j x Hj Hx. rewrite lookup_app_l in Hx by done.
        eapply Qle_lt_trans; [by eapply Hmax|done].
    + apply Qgt_bool_false in Hcmp.
      exists i, b. split; [done|]. split; [|split].
      * rewrite lookup_app_l; [done|]. by eapply lookup_lt_Some.
      * intros j x Hx. apply lookup_app_Some in Hx as [Hx|[_ Hx]].
        -- by eapply Hmax.
        -- by apply list_lookup_singleton_Some in Hx as [_ <-].
      * intros j x Hj Hx. eapply Hfirst; [done|].
        rewrite lookup_app_l in Hx; [done|].
        apply lookup_lt_Some in Hi. lia.
Qed.

(** ** The assignment decision *)

(** C3. [normalizeAssignmentDecision d cs t] hands the provider's decision
    [d] back as it is exactly in the case where [d] is an [assign] whose
    [threadId] is present (neither [null] nor empty), is the id of one of
    the candidates [cs], and whose confidence is at least 0.45.  In every
    other case the result is a [create] decision without thread id, whose
    title is [d]'s title when it has one and [t] otherwise, whose confidence
    is [d]'s, defaulted to 0.5, and whose reason is [d]'s, defaulted to a
    fixed sentence.  So an [assign] comes out only where it was accepted. *)
Theorem normalizeAssignmentDecision_spec
    (d : AssignmentDecision) (cs : list ThreadCandidate) (t : string) :
  let accepted :=
    dec_action d = assign
    ∧ (∃ id, dec_threadId d = Some id ∧ id ≠ "" ∧ id ∈ cand_id <$> cs)
    ∧ (∃ c, dec_confidence d = Some c ∧ (45 # 100 <= c)%Q) in
  (accepted → normalizeAssignmentDecision d cs t = d)
  ∧ (¬ accepted →
     normalizeAssignmentDecision d cs t =
       {| dec_action := create;
          dec_threadId := None;
          dec_title := Some (match dec_title d with Some title => title | None => t end);
          dec_confidence :=
            Some (match dec_confidence d with Some c => c | None => (5 # 10)%Q end);
          dec_reason :=
            if decide (dec_reason d = "") then "No clear active thread match."
            else dec_reason d |})
  ∧ (dec_action (normalizeAssignmentDecision d cs t) = assign ↔ accepted).
Proof.
  intros accepted.
  assert (acceptsAssign d cs = true ↔ accepted) as Hacc.
  { unfold acceptsAssign, accepted, truthy, has_id.
    rewrite !andb_true_iff, bool_decide_eq_true. split.
    - intros [[[Hact Hid] Hin] Hconf]. split; [done|]. split.
      + destruct (dec_threadId d) as [id|]; [|done]. exists id.
        apply negb_true_iff, String.eqb_neq in Hid.
        apply bool_decide_eq_true, elem_of_list_to_set in Hin. done.
      + destruct (dec_confidence d) as [c|]; [|done]. exists c.
        by apply Qge_bool_iff in Hconf.
    - intros (Hact & (id & -> & Hid & Hin) & (c & -> & Hc)).
      repeat split; [done| | |].
      + by apply negb_true_iff, String.eqb_neq.
      + by apply bool_decide_eq_true, elem_of_list_to_set.
      + by apply Qge_bool_iff. }
  unfold normalizeAssignmentDecision.
  destruct (acceptsAssign d cs) eqn:Hb.
  - assert accepted as Ha by (by apply Hacc).
    split; [done|]. split; [done|]. split; [done|]. intros _. apply Ha.
  - assert (¬ accepted) as Hn by (intros Ha; apply Hacc in Ha; congruence).
    split; [done|]. split.
    + intros _. f_equal.
      destruct (decide (dec_reason d = "")) as [Heq|Hne]; [by rewrite Heq|].
      by rewrite (proj2 (String.eqb_neq _ _) Hne).
    + simpl. split; [done|]. intros Ha. done.
Qed.

(** The thread id that [fallbackAssignment] returns, if any, is the id of one
    of the candidates. *)
Lemma fallbackAssignment_threadId
    (pending : PendingMessage) (candidates : list ThreadCandidate) (defaultTitle : string)
    (id : string) :
  dec_threadId (fallbackAssignment pending candidates defaultTitle) = Some id →
  ∃ c, c ∈ candidates ∧ cand_id c = id.
Proof.
  unfold fallbackAssignment.
  destruct (bestOf (scoreCandidates (pend_content pending) candidates))
    as [[bid score]|] eqn:Hbest; [|done].
  destruct (Qge_bool score (26 # 100)); simpl; [|done]. intros [= <-].
  destruct (bestOf_firstMax (scoreCandidates (pend_content pending) candidates))
    as (i & e & Hbest' & Hi & _).
  { intros Hnil. by rewrite Hnil in Hbest. }
  rewrite Hbest in Hbest'. injection Hbest' as <-.
  unfold scoreCandidates in Hi. rewrite list_lookup_fmap in Hi.
  destruct (candidates !! i) as [c|] eqn:Hc; [|done].
  simpl in Hi. injection Hi as Hid _.
  exists c. split; [by eapply list_elem_of_lookup_2|done].
Qed.

(** C2. The score of a candidate is the Jaccard similarity of two sets
    of tokens, those of the content of the message and those of the
    candidate's title, a space and its recent excerpt: the size of the
    intersection over the size of the union, and 0 when one of the sets is
    empty.  The tokens of a text are its runs of letters and digits, in
    lower case, that have at least three characters and are no stop word.
    For a message and a non-empty list of candidates, [fallbackAssignment]
    (a function of its arguments, hence deterministic) finds the candidate
    whose score is maximal, the first such in list order: no candidate
    scores higher and every earlier one scores strictly lower.  When that
    score is at least 0.26 it returns [assign] to that candidate's id with
    confidence [min(1, score + 0.25)]; otherwise it returns [create] with
    the fallback title and confidence 0.62. *)
Theorem fallbackAssignment_spec
    (pending : PendingMessage) (candidates : list ThreadCandidate) (defaultTitle : string) :
  (∀ text w, w ∈ tokenize text ↔ isToken text w)
  ∧ (∀ c, candidateScore pending c
          = overlap (tokenize (pend_content pending))
                    (tokenize (cand_title c ++ " " ++ cand_recent_excerpt c)))
  ∧ (candidates ≠ [] →
     ∃ (i : nat) (best : ThreadCandidate),
       candidates !! i = Some best
       ∧ (∀ j c, candidates !! j = Some c →
            (candidateScore pending c <= candidateScore pending best)%Q)
       ∧ (∀ j c, (j < i)%nat → candidates !! j = Some c →
            (candidateScore pending c < candidateScore pending best)%Q)
       ∧ ((26 # 100 <= candidateScore pending best)%Q →
          fallbackAssignment pending candidates defaultTitle =
            {| dec_action := assign;
               dec_threadId := Some (cand_id best);
               dec_title := None;
               dec_confidence := Some (Qmin 1 (candidateScore pending best + (25 # 100)));
               dec_reason := "Heuristic token overlap matched an existing thread." |})
       ∧ ((candidateScore pending best < 26 # 100)%Q →
          fallbackAssignment pending candidates defaultTitle =
            {| dec_action := create;
               dec_threadId := None;
               dec_title := Some defaultTitle;
               dec_confidence := Some (62 # 100)%Q;
               dec_reason := "No strong overlap with existing active threads." |})).
Proof.
  split; [apply tokenize_isToken|]. split; [intros c; apply jaccard_overlap|].
  intros Hne.
  destruct (bestOf_firstMax (scoreCandidates (pend_content pending) candidates))
    as (i & e & Hbest & Hi & Hmax & Hfirst).
  { unfold scoreCandidates. by destruct candidates. }
  unfold scoreCandidates in Hi, Hmax, Hfirst.
  rewrite list_lookup_fmap in Hi.
  destruct (candidates !! i) as [best|] eqn:Hlook; [|done].
  simpl in Hi. injection Hi as <-.
  exists i, best. split; [done|]. split; [|split; [|split]].
  - intros j c Hc.
    apply (Hmax j (cand_id c, candidateScore pending c)).
    by rewrite list_lookup_fmap, Hc.
  - intros j c Hj Hc.
    apply (Hfirst j (cand_id c, candidateScore pending c)); [done|].
    by rewrite list_lookup_fmap, Hc.
  - intros Hscore. unfold fallbackAssignment. rewrite Hbest.
    apply Qge_bool_iff in Hscore. fold (candidateScore pending best).
    by rewrite Hscore, min1_Qmin.
  - intros Hscore. unfold fallbackAssignment. rewrite Hbest.
    apply Qge_bool_false in Hscore. fold (candidateScore pending best).
    by rewrite Hscore.
Qed.

Lemma fallbackAssignment_witness :
  demoCandidates ≠ []
  ∧ isToken "the deploy pipeline is still broken" "pipeline"
  ∧ ¬ isToken "the deploy pipeline is still broken" "the"
  ∧ ∃ (i : nat) (best : ThreadCandidate),
      demoCandidates !! i = Some best
      ∧ cand_id best = "deploy"
      ∧ candidateScore demoPending best = (3 # 4)%Q
      ∧ (∀ j c, (j < i)%nat → demoCandidates !! j = Some c →
           (candidateScore demoPending c < 3 # 4)%Q)
      ∧ fallbackAssignment demoPending demoCandidates "Title" =
          {| dec_action := assign;
             dec_threadId := Some "deploy";
             dec_title := None;
             dec_confidence := Some (Qmin 1 ((3 # 4) + (25 # 100)));
             dec_reason := "Heuristic token overlap matched an existing thread." |}.
Proof.
  destruct (fallbackAssignment_spec demoPending demoCandidates "Title")
    as (Htokens & Hscore & Hbest).
  split; [discriminate|].
  split; [apply Htokens; by vm_compute|].
  split; [intros Hthe%Htokens; by vm_compute in Hthe|].
  destruct Hbest as (i & best & Hi & _ & Hfirst & Hassign & Hcreate); [discriminate|].
  assert (fallbackAssignment demoPending demoCandidates "Title" =
          {| dec_action := assign;
             dec_threadId := Some "deploy";
             dec_title := None;
             dec_confidence := Some (Qmin 1 ((3 # 4) + (25 # 100)));
             dec_reason := "Heuristic token overlap matched an existing thread." |})
    as Hrun by (vm_compute; reflexivity).
  destruct (Qlt_le_dec (candidateScore demoPending best) (26 # 100)) as [Hlow|Hhigh].
  { rewrite (Hcreate Hlow) in Hrun. apply (f_equal dec_action) in Hrun. discriminate Hrun. }
  assert (cand_id best = "deploy") as Hid.
  { rewrite (Hassign Hhigh) in Hrun. apply (f_equal dec_threadId) in Hrun.
    simpl in Hrun. congruence. }
  assert (candidateScore demoPending best = (3 # 4)%Q) as Hthree.
  { destruct i as [|[|[|i]]]; [| | |discriminate Hi];
      injection Hi as <-; [discriminate Hid|by vm_compute|discriminate Hid]. }
  exists i, best. rewrite <- Hthree. split; [done|]. split; [done|]. split; [done|].
  split; [done|]. rewrite (Hassign Hhigh). by rewrite Hid.
Defined.

Example fallbackAssignment_demo :
  fallbackAssignment demoPending demoCandidates "Title" =
    {| dec_action := assign;
       dec_threadId := Some "deploy";
       dec_title := None;
       dec_confidence := Some (Qmin 1 ((3 # 4) + (25 # 100)));
       dec_reason := "Heuristic token overlap matched an existing thread." |}.
Proof. vm_compute. reflexivity. Qed.

(** ** The merge decision *)

Lemma inPair_true (pair : MergePair) (id : string) :
  inPair pair id = true ↔ id ∈ pairIds pair.
Proof. unfold inPair, pairIds. apply bool_decide_eq_true. Qed.

Lemma mergeVerdict_ids_in_pair (ai : AICall MergeDecision) (pair : MergePair) :
  v_sourceThreadId (mergeVerdict ai pair) ∈ pairIds pair
  ∧ v_targetThreadId (mergeVerdict ai pair) ∈ pairIds pair.
Proof.
  unfold mergeVerdict.
  destruct ai as [| |d]; simpl;
    repeat (match goal with |- context [inPair ?p ?x] => destruct (inPair p x) eqn:? end; simpl);
    repeat (match goal with |- context [String.eqb ?x ?y] => destruct (String.eqb x y) eqn:? end; simpl);
    rewrite <- ?inPair_true; try done;
    unfold inPair, pairIds; rewrite !bool_decide_eq_true; set_solver.
Qed.

(** The source and the target that [resolveMerge] hands to the transaction
    are the two ids of the pair, and they differ. *)
Lemma resolveMerge_distinct (ai : AICall MergeDecision) (pair : MergePair) (src tgt : string) :
  resolveMerge ai pair = Some (src, tgt) →
  src ≠ tgt ∧ src ∈ pairIds pair ∧ tgt ∈ pairIds pair.
Proof.
  unfold resolveMerge. intros Hres.
  destruct (mergeVerdict_ids_in_pair ai pair) as [Hs Ht].
  assert (v_shouldMerge (mergeVerdict ai pair) = true →
          v_sourceThreadId (mergeVerdict ai pair) ≠ v_targetThreadId (mergeVerdict ai pair)) as Hd.
  { unfold mergeVerdict.
    match goal with |- context [String.eqb ?x ?y] => destruct (String.eqb x y) eqn:Heq end;
      simpl; [done|]. intros _. by apply String.eqb_neq. }
  destruct (v_shouldMerge (mergeVerdict ai pair)); simpl in Hres; [|done].
  specialize (Hd eq_refl).
  destruct (laterThan _ _); simplify_eq; done.
Qed.

(** C4, as stated, fails.  The provider answers and declines a pair that
    scores 1: the heuristic verdict is to merge, the code does not merge.
    The provider answers "merge" with two ids outside a pair that scores
    0.75: the heuristic verdict is not to merge, the code merges the pair. *)
Lemma mergeVerdict_ai_counterexample :
  (findMergePair [threadA; threadB] = Some pairAB
   ∧ md_shouldMerge aiDeclines = false
   ∧ v_shouldMerge (heuristicVerdict pairAB) = true
   ∧ v_shouldMerge (mergeVerdict (AIAnswer aiDeclines) pairAB) = false
   ∧ mergeVerdict (AIAnswer aiDeclines) pairAB ≠ heuristicVerdict pairAB)
  ∧ (findMergePair [threadA; threadC] = Some pairAC
     ∧ inPair pairAC (md_sourceThreadId aiNamesStrangers) = false
     ∧ v_shouldMerge (heuristicVerdict pairAC) = false
     ∧ mergeVerdict (AIAnswer aiNamesStrangers) pairAC =
         {| v_shouldMerge := true; v_sourceThreadId := "a"; v_targetThreadId := "c" |}
     ∧ mergeVerdict (AIAnswer aiNamesStrangers) pairAC ≠ heuristicVerdict pairAC).
Proof. vm_compute. repeat split; discriminate. Qed.

(** C4, amended.  When the provider answers, should-merge is the
    provider's alone: the verdict is to merge exactly when the answer says
    [shouldMerge] with confidence at least 0.6 and the resolved source and
    target differ, whatever the pair scores.  Source and target are the
    answer's when both of its ids are ids of the selected pair, and the
    pair's as found otherwise.  The heuristic verdict (score at least 0.78,
    the pair as found) is the one used when the provider is disabled or its
    call throws. *)
Theorem mergeVerdict_spec (pair : MergePair) :
  (∀ d : MergeDecision,
     let verdict := mergeVerdict (AIAnswer d) pair in
     let idsInPair :=
       md_sourceThreadId d ∈ pairIds pair ∧ md_targetThreadId d ∈ pairIds pair in
     (idsInPair →
        v_sourceThreadId verdict = md_sourceThreadId d
        ∧ v_targetThreadId verdict = md_targetThreadId d)
     ∧ (¬ idsInPair →
        v_sourceThreadId verdict = cand_id (pair_source pair)
        ∧ v_targetThreadId verdict = cand_id (pair_target pair))
     ∧ (v_shouldMerge verdict = true ↔
        md_shouldMerge d = true ∧ (6 # 10 <= md_confidence d)%Q
        ∧ v_sourceThreadId verdict ≠ v_targetThreadId verdict))
  ∧ (∀ ai : AICall MergeDecision, ai = AIDisabled ∨ ai = AIFailed →
     let verdict := mergeVerdict ai pair in
     v_sourceThreadId verdict = cand_id (pair_source pair)
     ∧ v_targetThreadId verdict = cand_id (pair_target pair)
     ∧ (v_shouldMerge verdict = true ↔
        (78 # 100 <= pair_score pair)%Q
        ∧ cand_id (pair_source pair) ≠ cand_id (pair_target pair))).
Proof.
  split.
  - intros d verdict idsInPair. subst verdict idsInPair. unfold mergeVerdict. simpl.
    rewrite <- !inPair_true.
    destruct (inPair pair (md_sourceThreadId d)) eqn:Hs;
      destruct (inPair pair (md_targetThreadId d)) eqn:Ht; simpl;
      match goal with |- context [String.eqb ?x ?y] => destruct (String.eqb x y) eqn:Heq end;
      simpl; rewrite ?andb_true_iff, ?Qge_bool_iff;
      (apply String.eqb_eq in Heq || apply String.eqb_neq in Heq);
      (split; [|split]); try tauto; try (intros []; done);
      try (split; [done|]; intros (? & ? & ?); done);
      try (split; [intros []; done|tauto]).
  - intros ai [-> | ->] verdict; subst verdict; unfold mergeVerdict; simpl;
      assert (inPair pair (cand_id (pair_source pair)) = true) as -> by
          (apply inPair_true; unfold pairIds; set_solver);
      assert (inPair pair (cand_id (pair_target pair)) = true) as -> by
          (apply inPair_true; unfold pairIds; set_solver);
      simpl;
      match goal with |- context [String.eqb ?x ?y] => destruct (String.eqb x y) eqn:Heq end;
      simpl; rewrite ?Qge_bool_iff;
      (apply String.eqb_eq in Heq || apply String.eqb_neq in Heq);
      (split; [done|]); (split; [done|]); try tauto;
      (split; [done|]); intros [? ?]; done.
Qed.

Example pair_scores :
  (pair_score pairAB == 1)%Q ∧ (pair_score pairAC == 3 # 4)%Q.
Proof. by vm_compute. Qed.

(** With the heuristic verdict, and with an answer of the provider that
    names the pair in the order it was found, the target that
    [resolveMerge] keeps is the pair member whose [last_message_at] is not
    older. *)
Lemma resolveMerge_keeps_newer (ai : AICall MergeDecision) (pair : MergePair) (src tgt : string) :
  v_sourceThreadId (mergeVerdict ai pair) = cand_id (pair_source pair) →
  v_targetThreadId (mergeVerdict ai pair) = cand_id (pair_target pair) →
  resolveMerge ai pair = Some (src, tgt) →
  (src = cand_id (pair_source pair) ∧ tgt = cand_id (pair_target pair)
   ∧ notOlder (pair_target pair) (pair_source pair))
  ∨ (src = cand_id (pair_target pair) ∧ tgt = cand_id (pair_source pair)
     ∧ notOlder (pair_source pair) (pair_target pair)).
Proof.
  unfold resolveMerge, notOlder. intros -> ->.
  destruct (v_shouldMerge _); simpl; [|done].
  destruct (laterThan (cand_last_message_at (pair_source pair)) _) eqn:Hlater;
    intros [= <- <-]; [right|by left].
  split; [done|]. split; [done|].
  unfold laterThan in *. apply Z.ltb_lt in Hlater. apply Z.ltb_ge. lia.
Qed.

Lemma resolveMerge_heuristic_keeps_newer (pair : MergePair) (src tgt : string) :
  resolveMerge AIDisabled pair = Some (src, tgt) →
  (src = cand_id (pair_source pair) ∧ tgt = cand_id (pair_target pair)
   ∧ notOlder (pair_target pair) (pair_source pair))
  ∨ (src = cand_id (pair_target pair) ∧ tgt = cand_id (pair_source pair)
     ∧ notOlder (pair_source pair) (pair_target pair)).
Proof.
  apply resolveMerge_keeps_newer; unfold mergeVerdict; simpl;
    assert (inPair pair (cand_id (pair_source pair)) = true) as -> by
        (apply inPair_true; unfold pairIds; set_solver);
    assert (inPair pair (cand_id (pair_target pair)) = true) as -> by
        (apply inPair_true; unfold pairIds; set_solver);
    simpl; by destruct (String.eqb _ _).
Qed.

(** C5: the code at a failing input.  The pair is found as (a, b), [a]
    with the more recent [last_message_at] (10 s against 5 s, five seconds
    apart, so the two Dates differ).  The provider answers "merge" and
    names the two the other way round (source b, target a).  Lines 235-241
    compare the timestamps of [pair.source] and [pair.target] but swap the
    ids the provider returned: the merge that is executed supersedes [a],
    the more recent thread, and keeps [b], the older one, as target. *)
Theorem resolveMerge_ai_reversed_keeps_older :
  findMergePair [threadA; threadB] = Some pairAB
  ∧ cand_last_message_at (pair_source pairAB) = Some (seconds 10)
  ∧ cand_last_message_at (pair_target pairAB) = Some (seconds 5)
  ∧ getTime (seconds 10) = 10000 ∧ getTime (seconds 5) = 5000
  ∧ laterThan (cand_last_message_at (pair_source pairAB))
              (cand_last_message_at (pair_target pairAB)) = true
  ∧ mergeVerdict (AIAnswer aiReverses) pairAB =
      {| v_shouldMerge := true; v_sourceThreadId := "b"; v_targetThreadId := "a" |}
  ∧ resolveMerge (AIAnswer aiReverses) pairAB = Some ("a", "b")
  ∧ resolveMerge AIDisabled pairAB = Some ("b", "a")
  ∧ findMergePair (fetchMergeCandidates mergeStore) = Some pairAB
  ∧ thr_last_message_at <$> threads mergeStore !! "a" = Some (Some (seconds 10))
  ∧ thr_last_message_at <$> threads mergeStore !! "b" = Some (Some (seconds 5))
  ∧ thr_state <$> threads (mergeTick (AIAnswer aiReverses) (seconds 20) mergeStore) !! "a"
    = Some superseded
  ∧ thr_merged_into_thread_id <$>
      threads (mergeTick (AIAnswer aiReverses) (seconds 20) mergeStore) !! "a"
    = Some (Some "b")
  ∧ thr_state <$> threads (mergeTick (AIAnswer aiReverses) (seconds 20) mergeStore) !! "b"
    = Some active
  ∧ thr_state <$> threads (mergeTick AIDisabled (seconds 20) mergeStore) !! "b"
    = Some superseded.
Proof. vm_compute. repeat split. Qed.

(** Whenever the provider's accepted answer names the pair the other way
    round, the target that is kept is the pair member that is not the more
    recent one. *)
Lemma resolveMerge_ai_reversed (d : MergeDecision) (pair : MergePair) (src tgt : string) :
  md_sourceThreadId d = cand_id (pair_target pair) →
  md_targetThreadId d = cand_id (pair_source pair) →
  resolveMerge (AIAnswer d) pair = Some (src, tgt) →
  (tgt = cand_id (pair_target pair) ∧ src = cand_id (pair_source pair)
   ∧ laterThan (cand_last_message_at (pair_source pair))
               (cand_last_message_at (pair_target pair)) = true)
  ∨ (tgt = cand_id (pair_source pair) ∧ src = cand_id (pair_target pair)
     ∧ laterThan (cand_last_message_at (pair_source pair))
                 (cand_last_message_at (pair_target pair)) = false).
Proof.
  intros Hs Ht. unfold resolveMerge, mergeVerdict. simpl. rewrite Hs, Ht.
  assert (inPair pair (cand_id (pair_source pair)) = true) as -> by
      (apply inPair_true; unfold pairIds; set_solver).
  assert (inPair pair (cand_id (pair_target pair)) = true) as -> by
      (apply inPair_true; unfold pairIds; set_solver).
  simpl.
  destruct (String.eqb _ _); simpl; [done|].
  destruct (md_shouldMerge d && _); simpl; [|done].
  destruct (laterThan _ _); intros [= <- <-]; [left|right]; done.
Qed.

(** ** The revival source *)

Lemma acceptsRevival_iff (d : RevivalDecision) (archivedRows : list ArchivedCandidate) :
  acceptsRevival d archivedRows = true ↔
  ∃ id, rd_archivedThreadId d = Some id ∧ id ≠ ""
        ∧ (62 # 100 <= rd_confidence d)%Q ∧ id ∈ arch_id <$> archivedRows.
Proof.
  unfold acceptsRevival, truthy.
  rewrite !andb_true_iff, Qge_bool_iff, existsb_exists. split.
  - intros [[Hid Hconf] (row & Hin & Heq)].
    apply bool_decide_eq_true in Heq.
    exists (arch_id row). rewrite <- Heq in Hid |- *.
    apply negb_true_iff, String.eqb_neq in Hid.
    repeat split; [done..|].
    apply list_elem_of_fmap. exists row. split; [done|]. by apply list_elem_of_In.
  - intros (id & Hid & Hne & Hconf & Hin). rewrite Hid.
    apply list_elem_of_fmap in Hin as (row & -> & Hin).
    repeat split; [by apply negb_true_iff, String.eqb_neq|done|].
    exists row. split; [by apply list_elem_of_In|]. by apply bool_decide_eq_true.
Qed.

Lemma heuristicRevival_spec (pending : PendingMessage) (archivedRows : list ArchivedCandidate) :
  archivedRows ≠ [] →
  ∃ (i : nat) (best : ArchivedCandidate),
    archivedRows !! i = Some best
    ∧ (∀ j c, archivedRows !! j = Some c →
         (archivedScore pending c <= archivedScore pending best)%Q)
    ∧ (∀ j c, (j < i)%nat → archivedRows !! j = Some c →
         (archivedScore pending c < archivedScore pending best)%Q)
    ∧ ((31 # 100 <= archivedScore pending best)%Q →
       heuristicRevival pending archivedRows = Some (arch_id best))
    ∧ ((archivedScore pending best < 31 # 100)%Q →
       heuristicRevival pending archivedRows = None).
Proof.
  intros Hne.
  destruct (bestOf_firstMax (scoreArchived (pend_content pending) archivedRows))
    as (i & e & Hbest & Hi & Hmax & Hfirst).
  { unfold scoreArchived. by destruct archivedRows. }
  unfold scoreArchived in Hi, Hmax, Hfirst.
  rewrite list_lookup_fmap in Hi.
  destruct (archivedRows !! i) as [best|] eqn:Hlook; [|done].
  simpl in Hi. injection Hi as <-.
  exists i, best. split; [done|]. split; [|split; [|split]].
  - intros j c Hc.
    apply (Hmax j (arch_id c, archivedScore pending c)).
    by rewrite list_lookup_fmap, Hc.
  - intros j c Hj Hc.
    apply (Hfirst j (arch_id c, archivedScore pending c)); [done|].
    by rewrite list_lookup_fmap, Hc.
  - intros Hscore. unfold heuristicRevival. rewrite Hbest.
    apply Qge_bool_iff in Hscore. fold (archivedScore pending best).
    by rewrite Hscore.
  - intros Hscore. unfold heuristicRevival. rewrite Hbest.
    apply Qge_bool_false in Hscore. fold (archivedScore pending best).
    by rewrite Hscore.
Qed.

(** C9, as stated, fails.  The provider is enabled and its call succeeds.
    It answers that no archived thread matches ([null]), or names one with
    confidence 0.5: the answer is not accepted, and the code goes on to the
    heuristic, which returns the archived thread that scores 0.75. *)
Lemma selectRevivalSource_counterexample :
  (acceptsRevival aiFindsNothing [archivedLunch; archivedDeploy] = false
   ∧ rd_archivedThreadId aiFindsNothing = None
   ∧ selectRevivalSource (AIAnswer aiFindsNothing) demoPending
       [archivedLunch; archivedDeploy] = Some "d")
  ∧ (acceptsRevival aiUnsure [archivedLunch; archivedDeploy] = false
     ∧ rd_archivedThreadId aiUnsure = Some "l"
     ∧ selectRevivalSource (AIAnswer aiUnsure) demoPending
         [archivedLunch; archivedDeploy] = Some "d")
  ∧ selectRevivalSource (AIAnswer aiFindsNothing) demoPending
      [archivedLunch; archivedDeploy] ≠ None.
Proof. vm_compute. repeat split; discriminate. Qed.

(** C9, amended.  With at least one archived candidate: an answer of the
    provider is accepted when its id is present, is the id of one of the
    candidates, and its confidence is at least 0.62, and then it is the
    revival source.  The heuristic is used in every other case: the provider
    is disabled, its call throws, or it answers and the answer is not
    accepted.  The heuristic takes the first candidate of maximal Jaccard
    score and returns it when that score is at least 0.31, and nothing
    otherwise. *)
Theorem selectRevivalSource_spec
    (pending : PendingMessage) (archivedRows : list ArchivedCandidate) :
  archivedRows ≠ [] →
  (∀ d : RevivalDecision,
     let accepted :=
       ∃ id, rd_archivedThreadId d = Some id ∧ id ≠ ""
             ∧ (62 # 100 <= rd_confidence d)%Q ∧ id ∈ arch_id <$> archivedRows in
     (accepted →
        selectRevivalSource (AIAnswer d) pending archivedRows = rd_archivedThreadId d)
     ∧ (¬ accepted →
        selectRevivalSource (AIAnswer d) pending archivedRows =
          heuristicRevival pending archivedRows))
  ∧ selectRevivalSource AIDisabled pending archivedRows = heuristicRevival pending archivedRows
  ∧ selectRevivalSource AIFailed pending archivedRows = heuristicRevival pending archivedRows
  ∧ ∃ (i : nat) (best : ArchivedCandidate),
      archivedRows !! i = Some best
      ∧ (∀ j c, archivedRows !! j = Some c →
           (archivedScore pending c <= archivedScore pending best)%Q)
      ∧ (∀ j c, (j < i)%nat → archivedRows !! j = Some c →
           (archivedScore pending c < archivedScore pending best)%Q)
      ∧ ((31 # 100 <= archivedScore pending best)%Q →
         heuristicRevival pending archivedRows = Some (arch_id best))
      ∧ ((archivedScore pending best < 31 # 100)%Q →
         heuristicRevival pending archivedRows = None).
Proof.
  intros Hne. split; [|split; [|split]].
  - intros d accepted. unfold selectRevivalSource.
    destruct archivedRows as [|row rows]; [done|].
    pose proof (acceptsRevival_iff d (row :: rows)) as Hacc.
    fold accepted in Hacc.
    destruct (acceptsRevival d (row :: rows)).
    + split; [done|]. intros Hn. exfalso. apply Hn. by apply Hacc.
    + split; [|done]. intros Ha. apply Hacc in Ha. done.
  - by destruct archivedRows.
  - by destruct archivedRows.
  - by apply heuristicRevival_spec.
Qed.

Lemma selectRevivalSource_witness :
  [archivedLunch; archivedDeploy] ≠ []
  ∧ selectRevivalSource (AIAnswer aiFindsNothing) demoPending [archivedLunch; archivedDeploy]
    = heuristicRevival demoPending [archivedLunch; archivedDeploy]
  ∧ selectRevivalSource AIDisabled demoPending [archivedLunch; archivedDeploy]
    = heuristicRevival demoPending [archivedLunch; archivedDeploy].
Proof.
  split; [discriminate|].
  destruct (selectRevivalSource_spec demoPending [archivedLunch; archivedDeploy])
    as (Hai & Hoff & _); [discriminate|].
  split; [|exact Hoff].
  apply (Hai aiFindsNothing). intros (id & Hid & _). discriminate.
Defined.

(** ** The merge transaction *)

Lemma foldl_maxOpt_Some (l : list Z) (acc : Z) :
  ∃ m, foldl maxOpt (Some acc) l = Some m
       ∧ (m = acc ∨ m ∈ l) ∧ acc ≤ m ∧ (∀ x, x ∈ l → x ≤ m).
Proof.
  revert acc. induction l as [|y l IH]; intros acc; simpl.
  - exists acc. split; [done|]. split; [by left|]. split; [lia|].
    intros x Hx. by apply elem_of_nil in Hx.
  - destruct (IH (Z.max acc y)) as (m & Hm & Hin & Hge & Hall).
    exists m. split; [done|]. split; [|split].
    + destruct Hin as [->|Hin]; [|right; by right].
      destruct (Z.max_spec acc y) as [[_ ->]|[_ ->]]; [right; by left|by left].
    + lia.
    + intros x [->|Hx]%elem_of_cons; [lia|by apply Hall].
Qed.

(** [MAX] over a list: nothing for the empty list, else an element that no
    other exceeds. *)
Lemma foldl_maxOpt_spec (l : list Z) :
  match foldl maxOpt None l with
  | None => l = []
  | Some m => m ∈ l ∧ ∀ x, x ∈ l → x ≤ m
  end.
Proof.
  destruct l as [|y l]; simpl; [done|].
  destruct (foldl_maxOpt_Some l y) as (m & -> & Hin & Hge & Hall).
  split.
  - destruct Hin as [->|Hin]; [by left|by right].
  - intros x [->|Hx]%elem_of_cons; [done|by apply Hall].
Qed.

Lemma elem_of_thread_times (tid : string) (s : Store) (x : Z) :
  x ∈ msg_created_at <$>
        filter (fun m => msg_thread_id m = Some tid) (snd <$> map_to_list (messages s))
  ↔ ∃ id m, messages s !! id = Some m ∧ msg_thread_id m = Some tid ∧ msg_created_at m = x.
Proof.
  rewrite list_elem_of_fmap. split.
  - intros (m & -> & Hm). apply list_elem_of_filter in Hm as [Htid Hm].
    apply list_elem_of_fmap in Hm as ([id m'] & -> & Hm).
    apply elem_of_map_to_list in Hm. by exists id, m'.
  - intros (id & m & Hm & Htid & <-). exists m. split; [done|].
    apply list_elem_of_filter. split; [done|].
    apply list_elem_of_fmap. exists (id, m). split; [done|].
    by apply elem_of_map_to_list.
Qed.

(** [SELECT MAX(created_at) FROM messages WHERE thread_id = tid] is [NULL]
    when no message points at [tid], and otherwise the [created_at] of one
    of them that none of the others exceeds. *)
Lemma maxCreatedAt_spec (tid : string) (s : Store) :
  match maxCreatedAt tid s with
  | None => ∀ id m, messages s !! id = Some m → msg_thread_id m ≠ Some tid
  | Some latest =>
      (∃ id m, messages s !! id = Some m ∧ msg_thread_id m = Some tid
               ∧ msg_created_at m = latest)
      ∧ (∀ id m, messages s !! id = Some m → msg_thread_id m = Some tid →
                 msg_created_at m ≤ latest)
  end.
Proof.
  unfold maxCreatedAt.
  pose proof (foldl_maxOpt_spec
    (msg_created_at <$>
       filter (fun m => msg_thread_id m = Some tid) (snd <$> map_to_list (messages s)))) as H.
  destruct (foldl maxOpt None _) as [latest|].
  - destruct H as [Hin Hall]. split.
    + by apply elem_of_thread_times.
    + intros id m Hm Htid. apply Hall. apply elem_of_thread_times. by exists id, m.
  - intros id m Hm Htid.
    assert (msg_created_at m ∈ msg_created_at <$>
              filter (fun m => msg_thread_id m = Some tid)
                     (snd <$> map_to_list (messages s))) as Hin.
    { apply elem_of_thread_times. by exists id, m. }
    rewrite H in Hin. by apply elem_of_nil in Hin.
Qed.

(** C1. A merge that the merge loop executes: [resolveMerge] has returned
    the source and the target, and when the transaction runs the source row
    is still active or cooling (the target was fetched as a thread, and
    threads are never deleted).  Then the transaction commits, and in the
    store it leaves: every message that pointed at the source points at the
    target; the source is superseded, merged into the target, with
    [superseded_at] set; the target is active and its [last_message_at] is
    the maximum [created_at] over the messages that now point at it
    ([NULL] when there is none). *)
Theorem executeMerge_spec
    (ai : AICall MergeDecision) (pair : MergePair) (now : Z)
    (sourceThreadId targetThreadId : string) (s : Store) (sourceRow : ThreadRecord) :
  resolveMerge ai pair = Some (sourceThreadId, targetThreadId) →
  threads s !! sourceThreadId = Some sourceRow →
  thr_state sourceRow = active ∨ thr_state sourceRow = cooling →
  is_Some (threads s !! targetThreadId) →
  ∃ s' source' target',
    executeMerge now sourceThreadId targetThreadId s = Committed s'
    ∧ (∀ id m, messages s !! id = Some m → msg_thread_id m = Some sourceThreadId →
         ∃ m', messages s' !! id = Some m' ∧ msg_thread_id m' = Some targetThreadId)
    ∧ threads s' !! sourceThreadId = Some source'
    ∧ thr_state source' = superseded
    ∧ thr_merged_into_thread_id source' = Some targetThreadId
    ∧ thr_superseded_at source' = Some now
    ∧ threads s' !! targetThreadId = Some target'
    ∧ thr_state target' = active
    ∧ match thr_last_message_at target' with
      | None => ∀ id m, messages s' !! id = Some m → msg_thread_id m ≠ Some targetThreadId
      | Some latest =>
          (∃ id m, messages s' !! id = Some m ∧ msg_thread_id m = Some targetThreadId
                   ∧ msg_created_at m = latest)
          ∧ (∀ id m, messages s' !! id = Some m → msg_thread_id m = Some targetThreadId →
                     msg_created_at m ≤ latest)
      end.
Proof.
  intros Hres Hsrc Hstate [targetRow Htgt].
  apply resolveMerge_distinct in Hres as (Hne & _ & _).
  assert (isLive sourceRow = true) as Hlive.
  { unfold isLive. destruct Hstate as [-> | ->]; done. }
  unfold executeMerge, updateThreadById. rewrite Hsrc, Hlive. simpl.
  rewrite Htgt. rewrite bool_decide_true by done. simpl.
  rewrite lookup_insert_ne by done. rewrite Htgt.
  eexists _, _, _. split; [reflexivity|]. simpl.
  split; [|split; [|split; [|split; [|split; [|split; [|split]]]]]].
  - intros id m Hm Htid. rewrite lookup_fmap, Hm. simpl.
    rewrite bool_decide_true by done. by eexists.
  - rewrite lookup_insert_ne by done. by rewrite lookup_insert_eq.
  - done.
  - done.
  - done.
  - by rewrite lookup_insert_eq.
  - done.
  - simpl.
    match goal with |- context [maxCreatedAt ?t ?st] =>
      pose proof (maxCreatedAt_spec t st) as Hmax; destruct (maxCreatedAt t st) end;
      exact Hmax.
Qed.

Lemma executeMerge_witness :
  resolveMerge AIDisabled pairAB = Some ("b", "a")
  ∧ threads mergeStore !! "b" = Some (newThreadRow "Deploy" (seconds 5) (seconds 5))
  ∧ ∃ s' source' target',
      executeMerge (seconds 20) "b" "a" mergeStore = Committed s'
      ∧ threads s' !! "b" = Some source'
      ∧ thr_state source' = superseded
      ∧ thr_merged_into_thread_id source' = Some "a"
      ∧ threads s' !! "a" = Some target'
      ∧ thr_state target' = active.
Proof.
  split; [by vm_compute|]. split; [by vm_compute|].
  destruct (executeMerge_spec AIDisabled pairAB (seconds 20) "b" "a" mergeStore
              (newThreadRow "Deploy" (seconds 5) (seconds 5)))
    as (s' & source' & target' & Hrun & _ & Hsrc & Hst & Hinto & _ & Htgt & Hact & _).
  - by vm_compute.
  - by vm_compute.
  - by left.
  - eexists. by vm_compute.
  - by exists s', source', target'.
Defined.

Example executeMerge_demo :
  ∃ s', executeMerge (seconds 20) "b" "a" mergeStore = Committed s'
        ∧ msg_thread_id <$> messages s' !! "m2" = Some (Some "a")
        ∧ thr_last_message_at <$> threads s' !! "a" = Some (Some (seconds 10)).
Proof. eexists. by vm_compute. Qed.

(** The tick runs the transaction on the pair it selected. *)
Lemma mergeTick_executes (ai : AICall MergeDecision) (now : Z) (s : Store)
    (best : MergePair) (sourceThreadId targetThreadId : string) :
  findMergePair (fetchMergeCandidates s) = Some best →
  resolveMerge ai best = Some (sourceThreadId, targetThreadId) →
  mergeTick ai now s =
    match executeMerge now sourceThreadId targetThreadId s with
    | Committed s' => s'
    | RolledBack _ => s
    end.
Proof.
  intros Hpair Hres. unfold mergeTick. rewrite Hpair, Hres.
  destruct (length (fetchMergeCandidates s) <? 2)%nat eqn:Hlen; [|done].
  exfalso. apply Nat.ltb_lt in Hlen.
  destruct (fetchMergeCandidates s) as [|c1 [|c2 l]]; simpl in *; [done|done|lia].
Qed.

(** ** Applying an assignment *)

(** The decisions that [processSinglePendingMessage] builds never carry an
    empty thread id, the ids of the candidates being ids of rows. *)
Lemma decideAssignment_threadId (ai : AICall AssignmentDecision) (pending : PendingMessage)
    (candidates : list ThreadCandidate) (defaultTitle : string) :
  (∀ c, c ∈ candidates → cand_id c ≠ "") →
  dec_threadId (decideAssignment ai pending candidates defaultTitle) ≠ Some "".
Proof.
  intros Hids. unfold decideAssignment.
  destruct candidates as [|c0 cs]; [done|].
  destruct ai as [| |d].
  - intros Hid. apply fallbackAssignment_threadId in Hid as (c & Hc & Heq).
    by apply (Hids c).
  - intros Hid. apply fallbackAssignment_threadId in Hid as (c & Hc & Heq).
    by apply (Hids c).
  - unfold normalizeAssignmentDecision.
    destruct (acceptsAssign d (c0 :: cs)) eqn:Hacc; [|done].
    unfold acceptsAssign in Hacc. rewrite !andb_true_iff in Hacc.
    destruct Hacc as [[[_ Htruthy] _] _]. unfold truthy in Htruthy.
    destruct (dec_threadId d) as [id|]; [|done].
    apply negb_true_iff, String.eqb_neq in Htruthy. congruence.
Qed.

Lemma truthy_Some (id : string) : id ≠ "" → truthy (Some id) = true.
Proof. intros Hne. unfold truthy. by apply negb_true_iff, String.eqb_neq. Qed.

Lemma present_Some (id : string) : id ≠ "" → present (Some id) = Some id.
Proof. intros Hne. unfold present. by rewrite truthy_Some. Qed.

Lemma present_Some_inv (o : option string) (id : string) :
  present o = Some id → o = Some id ∧ id ≠ "".
Proof.
  unfold present, truthy. destruct o as [x|]; [|done].
  destruct (String.eqb x "") eqn:Heq; simpl; [done|].
  apply String.eqb_neq in Heq. by intros [= ->].
Qed.

(** What [provideThread] returns when it does not roll back. *)
Lemma provideThread_Committed (now : Z) (newId : string) (pending : PendingMessage)
    (decision : AssignmentDecision) (revivalSourceId : option string) (s s3 : Store)
    (threadId createdThreadId : option string) (revivalLink : option (string * string)) :
  provideThread now newId pending decision revivalSourceId s
    = Committed (s3, threadId, createdThreadId, revivalLink) →
  (dec_action decision = create ∨ truthy (dec_threadId decision) = false) ∧
    threadId = Some newId ∧ createdThreadId = Some newId
    ∧ threads s !! newId = None ∧ is_Some (threads s3 !! newId)
  ∨ (dec_action decision = assign ∧ truthy (dec_threadId decision) = true) ∧
    threadId = dec_threadId decision ∧ createdThreadId = None
    ∧ revivalLink = None ∧ s3 = s.
Proof.
  unfold provideThread.
  destruct (bool_decide (dec_action decision = create)
            || negb (truthy (dec_threadId decision))) eqn:Hcreate.
  - intros Hrun. left. split.
    { apply orb_true_iff in Hcreate as [Hc|Hc].
      - left. by apply bool_decide_eq_true in Hc.
      - right. by apply negb_true_iff in Hc. }
    unfold insertThread in Hrun.
    destruct (threads s !! newId) eqn:Hfresh; [done|]. simpl in Hrun.
    destruct (present revivalSourceId) as [oldId|]; simpl in Hrun.
    + unfold updateThreadById in Hrun. simpl in Hrun.
      destruct (decide (oldId = newId)) as [->|Hne].
      * rewrite lookup_insert_eq in Hrun. simpl in Hrun.
        injection Hrun as <- <- <- <-. simpl.
        repeat split; try done. by rewrite lookup_insert_eq.
      * rewrite lookup_insert_ne in Hrun by done.
        destruct (threads s !! oldId) as [oldRow|] eqn:Hold; simpl in Hrun.
        -- destruct (isArchived oldRow); simpl in Hrun.
           ++ rewrite lookup_insert_ne in Hrun by done.
              rewrite lookup_insert_eq in Hrun. simpl in Hrun.
              injection Hrun as <- <- <- <-. simpl.
              repeat split; try done. by rewrite lookup_insert_eq.
           ++ injection Hrun as <- <- <- <-. simpl.
              repeat split; try done. by rewrite lookup_insert_eq.
        -- injection Hrun as <- <- <- <-. simpl.
           repeat split; try done. by rewrite lookup_insert_eq.
    + injection Hrun as <- <- <- <-. simpl.
      repeat split; try done. by rewrite lookup_insert_eq.
  - intros [= <- <- <- <-]. right.
    apply orb_false_iff in Hcreate as [Hc Ht].
    apply bool_decide_eq_false in Hc. apply negb_false_iff in Ht.
    repeat split; try done. by destruct (dec_action decision).
Qed.

Lemma provideThread_total (now : Z) (newId : string) (pending : PendingMessage)
    (decision : AssignmentDecision) (revivalSourceId : option string) (s : Store) :
  threads s !! newId = None →
  ∃ r, provideThread now newId pending decision revivalSourceId s = Committed r.
Proof.
  intros Hfresh. unfold provideThread, insertThread. rewrite Hfresh.
  destruct (bool_decide _ || negb _); simpl; [|by eexists].
  destruct (present revivalSourceId) as [oldId|]; [|by eexists].
  destruct (updateThreadById oldId _ _ _) as [s2 rowCount].
  destruct (0 <? rowCount)%nat; [|by eexists].
  destruct (updateThreadById newId _ _ _) as [s3 n]. by eexists.
Qed.

Lemma provideThread_RolledBack (now : Z) (newId : string) (pending : PendingMessage)
    (decision : AssignmentDecision) (revivalSourceId : option string) (s : Store)
    (why : TxAbort) :
  provideThread now newId pending decision revivalSourceId s = RolledBack why →
  why = UniqueViolation ∧ is_Some (threads s !! newId).
Proof.
  unfold provideThread, insertThread.
  destruct (bool_decide _ || negb _); simpl; [|done].
  destruct (threads s !! newId) eqn:Hfresh; simpl; [by intros [= <-]|].
  destruct (present revivalSourceId) as [oldId|]; [|done].
  destruct (updateThreadById oldId _ _ _) as [s2 rowCount].
  destruct (0 <? rowCount)%nat; [|done].
  by destruct (updateThreadById newId _ _ _) as [s3 n].
Qed.

(** ** The lifecycle pass *)

Lemma lifecycleTick_rows (cfg : Config) (nowCool nowArchive : Z) (s : Store) :
  lifecycleTick cfg nowCool nowArchive s =
    with_threads (lifecycleRow cfg nowCool nowArchive <$> threads s) s.
Proof.
  unfold lifecycleTick, archiveThreads, coolThreads, updateThreadsWhere, with_threads.
  simpl. f_equal.
  rewrite <- map_fmap_compose. apply map_fmap_ext. intros id row _. done.
Qed.

Lemma lifecycleTick_messages (cfg : Config) (nowCool nowArchive : Z) (s : Store) :
  messages (lifecycleTick cfg nowCool nowArchive s) = messages s.
Proof. by rewrite lifecycleTick_rows. Qed.

Lemma lifecycleTick_lookup (cfg : Config) (nowCool nowArchive : Z) (s : Store) (id : string) :
  threads (lifecycleTick cfg nowCool nowArchive s) !! id
  = lifecycleRow cfg nowCool nowArchive <$> threads s !! id.
Proof. rewrite lifecycleTick_rows. simpl. by rewrite lookup_fmap. Qed.

(** A later pass leaves a row that has been through a pass as it is, when
    the clock has not carried the row over a threshold in between. *)
Lemma lifecycleRow_settled (cfg : Config) (n1 n2 n3 n4 : Z) (row : ThreadRecord) :
  (idleBefore (n3 - minutes (ACTIVE_TO_COOLING_MINUTES cfg)) row = true →
   idleBefore (n1 - minutes (ACTIVE_TO_COOLING_MINUTES cfg)) row = true) →
  (idleBefore (n4 - hours (COOLING_TO_ARCHIVED_HOURS cfg)) row = true →
   idleBefore (n2 - hours (COOLING_TO_ARCHIVED_HOURS cfg)) row = true) →
  lifecycleRow cfg n3 n4 (lifecycleRow cfg n1 n2 row) = lifecycleRow cfg n1 n2 row.
Proof.
  unfold lifecycleRow, idleBefore, coolRow, archiveRow.
  destruct row as [title state created updated [last|] archivedAt supersededAt
                   revives continued merged]; simpl;
    [|by destruct state].
  intros Hcool Harchive.
  destruct state; simpl; try done.
  - destruct (last <? n1 - _) eqn:H1; simpl.
    + destruct (last <? n2 - _) eqn:H2; simpl; [done|].
      destruct (last <? n4 - _) eqn:H4; simpl; [|done].
      specialize (Harchive eq_refl). congruence.
    + destruct (last <? n3 - _) eqn:H3; simpl; [|done].
      specialize (Hcool eq_refl). congruence.
  - destruct (last <? n2 - _) eqn:H2; simpl; [done|].
    destruct (last <? n4 - _) eqn:H4; simpl; [|done].
    specialize (Harchive eq_refl). congruence.
Qed.

(** A pass never touches a row that is archived or superseded, whatever
    the clock reads. *)
Lemma lifecycleRow_terminal (cfg : Config) (n1 n2 : Z) (row : ThreadRecord) :
  thr_state row = archived ∨ thr_state row = superseded →
  lifecycleRow cfg n1 n2 row = row.
Proof.
  unfold lifecycleRow. intros [Hst|Hst]; rewrite Hst; simpl; by rewrite Hst.
Qed.

(** The second of two passes changes nothing when the clock has carried no
    thread over a threshold between them. *)
Lemma lifecycleTick_later_pass (cfg : Config) (n1 n2 n3 n4 : Z) (s : Store) :
  (∀ id row, threads s !! id = Some row →
     (idleBefore (n3 - minutes (ACTIVE_TO_COOLING_MINUTES cfg)) row = true →
      idleBefore (n1 - minutes (ACTIVE_TO_COOLING_MINUTES cfg)) row = true)
     ∧ (idleBefore (n4 - hours (COOLING_TO_ARCHIVED_HOURS cfg)) row = true →
        idleBefore (n2 - hours (COOLING_TO_ARCHIVED_HOURS cfg)) row = true)) →
  lifecycleTick cfg n3 n4 (lifecycleTick cfg n1 n2 s) = lifecycleTick cfg n1 n2 s.
Proof.
  intros Hclock. rewrite (lifecycleTick_rows cfg n3 n4), (lifecycleTick_rows cfg n1 n2).
  unfold with_threads. simpl. f_equal.
  rewrite <- map_fmap_compose. apply map_fmap_ext. intros id row Hrow. simpl.
  destruct (Hclock id row Hrow). by apply lifecycleRow_settled.
Qed.

(** C8, as stated, fails: the clock moves between two passes, and what has
    become due in between is done by the second pass, with nothing written
    in between.  A thread idle for exactly 72 hours is cooled by the first
    pass and archived by a pass ten seconds later.  A thread idle for five
    seconds less than 30 minutes is left active by the first pass and
    cooled by a pass ten seconds later.  (A second pass that read the clock
    as the first did would change neither.) *)
Example lifecycleTick_later_clock :
  let s := {| threads := {[ "a" := newThreadRow "Deploy" 0 0 ]}; messages := ∅ |} in
  let once := lifecycleTick defaultConfig (hours 72) (hours 72) s in
  let early := lifecycleTick defaultConfig (minutes 30 - seconds 5) (minutes 30 - seconds 5) s in
  thr_state <$> threads once !! "a" = Some cooling
  ∧ thr_state <$> threads (lifecycleTick defaultConfig (hours 72) (hours 72) once) !! "a"
    = Some cooling
  ∧ thr_state <$>
      threads (lifecycleTick defaultConfig (hours 72 + seconds 10) (hours 72 + seconds 10) once)
        !! "a"
    = Some archived
  ∧ thr_state <$> threads early !! "a" = Some active
  ∧ thr_state <$>
      threads (lifecycleTick defaultConfig (minutes 30 + seconds 5) (minutes 30 + seconds 5)
                 early) !! "a"
    = Some cooling.
Proof. by vm_compute. Qed.

(** C8, amended.  Two lifecycle passes in succession and nothing else
    written in between.  The second pass changes nothing when the clock
    has carried no thread over a threshold between the two: every thread
    whose [last_message_at] lies before a cut-off of the second pass
    ([NOW()] less the interval, for cooling and for archiving) lay before
    the same cut-off of the first.  This is so in particular when the
    second pass reads the clock as the first did.  Whatever the clock
    reads, a thread that is archived or superseded after the first pass,
    also one that the first pass took from active through cooling to
    archived, is the same row after the second; a thread that the first
    pass cooled is archived by the second exactly when it is due then. *)
Theorem lifecycleTick_second_pass (cfg : Config) (n1 n2 n3 n4 : Z) (s : Store) :
  let once := lifecycleTick cfg n1 n2 s in
  let twice := lifecycleTick cfg n3 n4 once in
  ((∀ id row last,
      threads s !! id = Some row → thr_last_message_at row = Some last →
      (last < n3 - minutes (ACTIVE_TO_COOLING_MINUTES cfg) →
       last < n1 - minutes (ACTIVE_TO_COOLING_MINUTES cfg))
      ∧ (last < n4 - hours (COOLING_TO_ARCHIVED_HOURS cfg) →
         last < n2 - hours (COOLING_TO_ARCHIVED_HOURS cfg))) →
   twice = once)
  ∧ lifecycleTick cfg n1 n2 once = once
  ∧ (∀ id row,
       threads once !! id = Some row →
       thr_state row = archived ∨ thr_state row = superseded →
       threads twice !! id = Some row)
  ∧ (∀ id row,
       threads once !! id = Some row → thr_state row = cooling →
       ∃ row', threads twice !! id = Some row'
               ∧ (thr_state row' = archived ↔
                  ∃ last, thr_last_message_at row = Some last
                          ∧ last < n4 - hours (COOLING_TO_ARCHIVED_HOURS cfg))
               ∧ (thr_state row' ≠ archived → row' = row)).
Proof.
  intros once twice. subst once twice. split; [|split; [|split]].
  - intros Hclock. apply lifecycleTick_later_pass. intros id row Hrow.
    unfold idleBefore. destruct (thr_last_message_at row) as [last|] eqn:Hlast; [|done].
    destruct (Hclock id row last Hrow Hlast) as [Hcool Harchive].
    rewrite !Z.ltb_lt. done.
  - apply lifecycleTick_later_pass. intros id row _. done.
  - intros id row Hrow Hstate. rewrite lifecycleTick_lookup, Hrow. simpl.
    by rewrite lifecycleRow_terminal.
  - intros id row Hrow Hstate. rewrite lifecycleTick_lookup, Hrow. simpl.
    eexists. split; [reflexivity|]. unfold lifecycleRow, idleBefore.
    rewrite Hstate. simpl. rewrite Hstate. simpl.
    destruct (thr_last_message_at row) as [last|] eqn:Hlast; simpl.
    + destruct (last <? n4 - hours (COOLING_TO_ARCHIVED_HOURS cfg)) eqn:Hdue; simpl.
      * apply Z.ltb_lt in Hdue. split; [|done]. split; [|done]. intros _. by exists last.
      * apply Z.ltb_ge in Hdue. split; [|done]. rewrite Hstate. split; [done|].
        intros (last' & [= <-] & Hlt). lia.
    + split; [|done]. rewrite Hstate. split; [done|]. by intros (last' & ? & _).
Qed.

(** A thread idle for four days goes from active to archived within one
    pass, and a second pass leaves it so. *)
Example lifecycleTick_two_steps :
  let idle := newThreadRow "Deploy" 0 0 in
  let s := {| threads := {[ "a" := idle ]}; messages := ∅ |} in
  let once := lifecycleTick defaultConfig (hours 96) (hours 96) s in
  thr_state <$> threads once !! "a" = Some archived
  ∧ thr_archived_at <$> threads once !! "a" = Some (Some (hours 96))
  ∧ lifecycleTick defaultConfig (hours 96) (hours 96) once = once.
Proof.
  split; [by vm_compute|]. split; [by vm_compute|].
  apply lifecycleTick_later_pass. intros id row _. done.
Qed.

(** ** What the queries return *)

Lemma selectThreads_elem (states : ThreadRecord -> bool) (limit : nat) (s : Store)
    (id : string) (row : ThreadRecord) :
  (id, row) ∈ selectThreads states limit s →
  threads s !! id = Some row ∧ states row = true.
Proof.
  unfold selectThreads. intros Hin.
  apply subseteq_take in Hin. rewrite merge_sort_Permutation in Hin.
  apply list_elem_of_filter in Hin as [Hst Hin].
  by apply elem_of_map_to_list in Hin.
Qed.

Lemma fetchMergeCandidates_live (s : Store) (c : MergeCandidate) :
  c ∈ fetchMergeCandidates s →
  ∃ row, threads s !! cand_id c = Some row ∧ isLive row = true.
Proof.
  unfold fetchMergeCandidates. intros Hin.
  apply list_elem_of_fmap in Hin as ([id row] & -> & Hin).
  apply selectThreads_elem in Hin. by exists row.
Qed.

Lemma fetchActiveThreadCandidates_live (cfg : Config) (s : Store) (c : ThreadCandidate) :
  c ∈ fetchActiveThreadCandidates cfg s →
  ∃ row, threads s !! cand_id c = Some row ∧ isLive row = true.
Proof.
  unfold fetchActiveThreadCandidates. intros Hin.
  apply list_elem_of_fmap in Hin as ([id row] & -> & Hin).
  apply selectThreads_elem in Hin. by exists row.
Qed.

Lemma orderedPairs_elem (cs : list MergeCandidate) (p : MergeCandidate * MergeCandidate) :
  p ∈ orderedPairs cs → fst p ∈ cs ∧ snd p ∈ cs.
Proof.
  induction cs as [|c cs IH]; simpl; [by intros ?%elem_of_nil|].
  intros [Hin|Hin]%elem_of_app.
  - apply list_elem_of_fmap in Hin as (second & -> & Hin). simpl.
    split; [by left|by right].
  - destruct (IH Hin). split; by right.
Qed.

Lemma foldl_keepBestPair_elem (l : list MergePair) (acc : option MergePair) (b : MergePair) :
  foldl keepBestPair acc l = Some b → acc = Some b ∨ b ∈ l.
Proof.
  revert acc. induction l as [|p l IH]; intros acc; simpl; [by left|].
  intros Hfold. apply IH in Hfold as [Hacc|Hin]; [|right; by right].
  unfold keepBestPair in Hacc. destruct acc as [a|].
  - destruct (Qgt_bool (pair_score p) (pair_score a)); [|by left].
    injection Hacc as <-. right. by left.
  - injection Hacc as <-. right. by left.
Qed.

Lemma findMergePair_elem (cs : list MergeCandidate) (best : MergePair) :
  findMergePair cs = Some best → pair_source best ∈ cs ∧ pair_target best ∈ cs.
Proof.
  unfold findMergePair.
  destruct (foldl keepBestPair None (scorePair <$> orderedPairs cs)) as [b|] eqn:Hfold;
    [|done].
  destruct (Qgt_bool _ _); [done|]. intros [= <-].
  apply foldl_keepBestPair_elem in Hfold as [?|Hin]; [done|].
  apply list_elem_of_fmap in Hin as (p & -> & Hin). simpl.
  by apply orderedPairs_elem.
Qed.

(** A merge tick either leaves the store as it is or commits the merge of
    two distinct threads that are both active or cooling in that store. *)
Lemma mergeTick_cases (ai : AICall MergeDecision) (now : Z) (s : Store) :
  mergeTick ai now s = s
  ∨ ∃ sourceThreadId targetThreadId targetRow,
      sourceThreadId ≠ targetThreadId
      ∧ threads s !! targetThreadId = Some targetRow ∧ isLive targetRow = true
      ∧ executeMerge now sourceThreadId targetThreadId s = Committed (mergeTick ai now s).
Proof.
  unfold mergeTick.
  destruct (length (fetchMergeCandidates s) <? 2)%nat; [by left|].
  destruct (findMergePair (fetchMergeCandidates s)) as [best|] eqn:Hpair; [|by left].
  destruct (resolveMerge ai best) as [[src tgt]|] eqn:Hres; [|by left].
  destruct (executeMerge now src tgt s) as [s'|why] eqn:Hrun; [|by left].
  right. apply resolveMerge_distinct in Hres as (Hne & _ & Htgt).
  apply findMergePair_elem in Hpair as [Hs Ht].
  assert (∃ c, c ∈ fetchMergeCandidates s ∧ tgt = cand_id c) as (c & Hc & ->).
  { unfold pairIds in Htgt. apply elem_of_union in Htgt as [Hx|Hx];
      apply elem_of_singleton in Hx; eauto. }
  apply fetchMergeCandidates_live in Hc as (row & Hrow & Hlive).
  by exists src, (cand_id c), row.
Qed.

(** ** Claiming a message *)

#[global] Instance olderMessage_trans : Transitive olderMessage.
Proof. intros a b c. unfold olderMessage. lia. Qed.

#[global] Instance olderMessage_total : Total olderMessage.
Proof. intros a b. unfold olderMessage. lia. Qed.

Lemma elem_of_pendingRows (s : Store) (id : string) (m : MessageRecord) :
  (id, m) ∈ pendingRows s ↔ messages s !! id = Some m ∧ msg_assignment_status m = pending.
Proof.
  unfold pendingRows. rewrite merge_sort_Permutation, list_elem_of_filter.
  rewrite elem_of_map_to_list. simpl. tauto.
Qed.

(** [claimPendingMessage] returns a message that is pending, the oldest
    such, and marks it [in_progress]; it touches nothing else. *)
Lemma claimPendingMessage_Some (s s1 : Store) (claimed : PendingMessage) :
  claimPendingMessage s = Some (claimed, s1) →
  ∃ m, messages s !! pend_id claimed = Some m
       ∧ msg_assignment_status m = pending
       ∧ pend_created_at claimed = asDate (msg_created_at m)
       ∧ pend_content claimed = msg_content m
       ∧ s1 = updateMessageById (pend_id claimed) (set_assignment_status in_progress) s
       ∧ ∀ id' m', messages s !! id' = Some m' → msg_assignment_status m' = pending →
                   msg_created_at m ≤ msg_created_at m'.
Proof.
  unfold claimPendingMessage. fold (pendingRows s).
  destruct (pendingRows s) as [|[id m] rest] eqn:Hrows; simpl; [done|].
  intros [= <- <-]. simpl.
  assert ((id, m) ∈ pendingRows s) as Hin by (rewrite Hrows; by left).
  apply elem_of_pendingRows in Hin as [Hm Hst].
  exists m. repeat split; try done.
  intros id' m' Hm' Hst'.
  assert ((id', m') ∈ pendingRows s) as Hin' by (by apply elem_of_pendingRows).
  pose proof (StronglySorted_merge_sort olderMessage
    (filter (fun row => msg_assignment_status (snd row) = pending)
            (map_to_list (messages s)))) as Hsorted.
  fold (pendingRows s) in Hsorted. rewrite Hrows in Hsorted, Hin'.
  apply StronglySorted_inv in Hsorted as [_ Hall].
  apply elem_of_cons in Hin' as [[= -> ->]|Hin']; [lia|].
  rewrite Forall_forall in Hall. by apply (Hall (id', m')).
Qed.

Lemma claimPendingMessage_None (s : Store) :
  claimPendingMessage s = None →
  ∀ id m, messages s !! id = Some m → msg_assignment_status m ≠ pending.
Proof.
  unfold claimPendingMessage. fold (pendingRows s).
  destruct (pendingRows s) as [|row rest] eqn:Hrows; simpl; [|done].
  intros _ id m Hm Hst.
  assert ((id, m) ∈ pendingRows s) as Hin by (by apply elem_of_pendingRows).
  rewrite Hrows in Hin. by apply elem_of_nil in Hin.
Qed.

(** ** What a committed assignment writes *)

Lemma updateThreadById_messages (id : string) (guard : ThreadRecord -> bool)
    (set : ThreadRecord -> ThreadRecord) (s : Store) :
  messages (updateThreadById id guard set s).1 = messages s.
Proof.
  unfold updateThreadById. destruct (threads s !! id) as [row|]; [|done].
  by destruct (guard row).
Qed.

Lemma updateThreadById_lookup (id : string) (guard : ThreadRecord -> bool)
    (set : ThreadRecord -> ThreadRecord) (s : Store) (j : string) :
  threads (updateThreadById id guard set s).1 !! j =
    if decide (j = id)
    then (fun row => if guard row then set row else row) <$> threads s !! id
    else threads s !! j.
Proof.
  unfold updateThreadById. destruct (decide (j = id)) as [->|Hne].
  - destruct (threads s !! id) as [row|] eqn:Hrow; simpl; [|by rewrite Hrow].
    destruct (guard row); simpl; [by rewrite lookup_insert_eq|by rewrite Hrow].
  - destruct (threads s !! id) as [row|]; [|done].
    destruct (guard row); simpl; [by rewrite lookup_insert_ne|done].
Qed.

(** The result of an update by id, with the fact that it leaves the
    messages alone. *)
Ltac run_update id s' n H :=
  match goal with
  | |- context [updateThreadById id ?g ?f ?st] =>
      pose proof (updateThreadById_messages id g f st) as H;
      destruct (updateThreadById id g f st) as [s' n];
      simpl in H
  end.

Lemma provideThread_messages (now : Z) (newId : string) (pending : PendingMessage)
    (decision : AssignmentDecision) (revivalSourceId : option string) (s s3 : Store)
    (threadId createdThreadId : option string) (revivalLink : option (string * string)) :
  provideThread now newId pending decision revivalSourceId s
    = Committed (s3, threadId, createdThreadId, revivalLink) →
  messages s3 = messages s.
Proof.
  unfold provideThread, insertThread.
  destruct (bool_decide _ || negb _); [|by intros [= <- _ _ _]].
  destruct (threads s !! newId); simpl; [done|].
  destruct (present revivalSourceId) as [oldId|]; [|by intros [= <- _ _ _]].
  run_update oldId s2 rowCount H2.
  destruct (0 <? rowCount)%nat; [|by intros [= <- _ _ _]].
  run_update newId s3' n H3. intros [= <- _ _ _]. congruence.
Qed.

(** A committed [applyAssignment] writes one message row, the claimed one:
    its thread, the status [assigned] and the decision's reason. *)
Lemma applyAssignment_messages (now : Z) (newId : string) (pending : PendingMessage)
    (decision : AssignmentDecision) (revivalSourceId : option string) (s s' : Store)
    (applied : Applied) :
  applyAssignment now newId pending decision revivalSourceId s = Committed (s', applied) →
  messages s' =
    alter (fun m => set_assignment assigned (Some (dec_reason decision))
                      (set_thread_id (Some (ap_threadId applied)) m))
          (pend_id pending) (messages s).
Proof.
  unfold applyAssignment.
  destruct (provideThread now newId pending decision revivalSourceId s)
    as [[[[s3 threadId] createdThreadId] revivalLink]|why] eqn:Hrun; simpl; [|done].
  apply provideThread_messages in Hrun.
  destruct (present threadId) as [tid|]; [|done].
  unfold assignMessage.
  destruct (messages s3 !! pend_id pending), (threads s3 !! tid); simpl; try done;
    run_update tid s5 n H5; intros [= <- <-]; simpl; by rewrite H5, Hrun.
Qed.

(** ** The order of the assignment status *)

Lemma along_cases (a b : AssignmentStatus) :
  along a b ↔
  a = b ∨ a = pending ∨ (a = in_progress ∧ (b = assigned ∨ b = failed)).
Proof.
  split.
  - induction 1 as [a|a b c Hab Hbc IH]; [by left|].
    destruct Hab; destruct IH as [<-|[?|[? ?]]]; try done; tauto.
  - intros [->|[->|[-> [->| ->]]]].
    + apply rtc_refl.
    + destruct b.
      * apply rtc_refl.
      * apply rtc_once. constructor.
      * eapply rtc_l; [constructor|]. apply rtc_once. constructor.
      * eapply rtc_l; [constructor|]. apply rtc_once. constructor.
    + apply rtc_once. constructor.
    + apply rtc_once. constructor.
Qed.

Lemma executeMerge_messages (now : Z) (sourceThreadId targetThreadId : string) (s s' : Store) :
  executeMerge now sourceThreadId targetThreadId s = Committed s' →
  messages s' =
    (fun m => if bool_decide (msg_thread_id m = Some sourceThreadId)
              then set_thread_id (Some targetThreadId) m else m) <$> messages s.
Proof.
  unfold executeMerge.
  run_update sourceThreadId s1 rowCount H1.
  destruct (rowCount =? 0)%nat; [done|].
  destruct (negb _); [done|].
  run_update targetThreadId s3 n H3. intros [= <-]. by rewrite H3, <- H1.
Qed.

Lemma mergeTick_status (ai : AICall MergeDecision) (now : Z) (s : Store)
    (id : string) (m : MessageRecord) :
  messages s !! id = Some m →
  ∃ m', messages (mergeTick ai now s) !! id = Some m'
        ∧ msg_assignment_status m' = msg_assignment_status m.
Proof.
  intros Hm. destruct (mergeTick_cases ai now s) as [->|(src & tgt & row & _ & _ & _ & Hrun)].
  - by exists m.
  - apply executeMerge_messages in Hrun. rewrite Hrun, lookup_fmap, Hm. simpl.
    eexists. split; [done|]. by destruct (bool_decide _).
Qed.

(** One run of [processSinglePendingMessage] moves the message it claims
    from [pending] to [assigned] or to [failed], and no other. *)
Lemma processSinglePendingMessage_status (cfg : Config) (env : AssignmentEnv) (s : Store)
    (id : string) (m : MessageRecord) :
  messages s !! id = Some m →
  ∃ m', messages (processSinglePendingMessage cfg env s).1 !! id = Some m'
        ∧ (msg_assignment_status m' = msg_assignment_status m
           ∨ (∃ claimed s1, claimPendingMessage s = Some (claimed, s1)
                            ∧ pend_id claimed = id)
             ∧ msg_assignment_status m = pending
             ∧ (msg_assignment_status m' = assigned ∨ msg_assignment_status m' = failed)).
Proof.
  intros Hm. unfold processSinglePendingMessage.
  destruct (claimPendingMessage s) as [[claimed s1]|] eqn:Hclaim; simpl;
    [|exists m; by split; [|left]].
  destruct (claimPendingMessage_Some _ _ _ Hclaim) as (m0 & Hm0 & Hst0 & _ & _ & -> & _).
  assert (∀ set final,
    (∀ x, msg_assignment_status (set x) = final) →
    final = assigned ∨ final = failed →
    ∃ m', alter set (pend_id claimed)
            (alter (set_assignment_status in_progress) (pend_id claimed) (messages s)) !! id
          = Some m'
        ∧ (msg_assignment_status m' = msg_assignment_status m
           ∨ (∃ claimed0 s1, Some (claimed, updateMessageById (pend_id claimed)
                                 (set_assignment_status in_progress) s)
                             = Some (claimed0, s1) ∧ pend_id claimed0 = id)
             ∧ msg_assignment_status m = pending
             ∧ (msg_assignment_status m' = assigned ∨ msg_assignment_status m' = failed)))
    as Hfinish.
  { intros set final Hset Hfinal.
    destruct (decide (pend_id claimed = id)) as [Heq|Hne].
    - rewrite Heq in *. rewrite !lookup_alter_eq, Hm. simpl. eexists. split; [done|].
      right. split; [by eexists _, _|]. split; [congruence|].
      rewrite Hset. done.
    - rewrite !lookup_alter_ne by done. exists m. split; [done|by left]. }
  destruct (env_storeThrows env).
  { simpl. apply (Hfinish _ failed); [done|by right]. }
  destruct (applyAssignment _ _ _ _ _ _) as [[s2 applied]|why] eqn:Hrun; simpl.
  - apply applyAssignment_messages in Hrun. rewrite Hrun. simpl.
    apply (Hfinish _ assigned); [done|by left].
  - apply (Hfinish _ failed); [done|by right].
Qed.

Lemma postMessage_status (newId author content : string) (now : Z) (s : Store)
    (id : string) (m : MessageRecord) :
  messages s !! id = Some m →
  messages (postMessage newId author content now s) !! id = Some m.
Proof.
  intros Hm. unfold postMessage.
  destruct (messages s !! newId) eqn:Hnew; [done|]. simpl.
  rewrite lookup_insert_ne; [done|]. intros ->. congruence.
Qed.

Lemma run_status (cfg : Config) (op : Op) (s : Store) (id : string) (m : MessageRecord) :
  messages s !! id = Some m →
  ∃ m', messages (run cfg op s) !! id = Some m'
        ∧ (msg_assignment_status m' = msg_assignment_status m
           ∨ msg_assignment_status m = pending
             ∧ (msg_assignment_status m' = assigned ∨ msg_assignment_status m' = failed)).
Proof.
  intros Hm. destruct op as [newId author content now|env|nowCool nowArchive|ai now];
    cbn [run].
  - exists m. split; [by apply postMessage_status|by left].
  - destruct (processSinglePendingMessage_status cfg env s id m Hm) as (m' & Hm' & Hst).
    exists m'. split; [done|]. destruct Hst as [?|(_ & ? & ?)]; [by left|by right].
  - exists m. split; [by rewrite lifecycleTick_messages|by left].
  - destruct (mergeTick_status ai now s id m Hm) as (m' & Hm' & Hst).
    exists m'. split; [done|by left].
Qed.

(** A run of [processSinglePendingMessage] that claims a message leaves it
    [assigned] or [failed]. *)
Lemma processSinglePendingMessage_finishes (cfg : Config) (env : AssignmentEnv)
    (s s1 : Store) (claimed : PendingMessage) :
  claimPendingMessage s = Some (claimed, s1) →
  ∃ m', messages (processSinglePendingMessage cfg env s).1 !! pend_id claimed = Some m'
        ∧ (msg_assignment_status m' = assigned ∨ msg_assignment_status m' = failed).
Proof.
  intros Hclaim.
  destruct (claimPendingMessage_Some _ _ _ Hclaim) as (m & Hm & Hst & _ & _ & -> & _).
  destruct (processSinglePendingMessage_status cfg env s _ m Hm) as (m' & Hm' & Hcase).
  exists m'. split; [done|].
  destruct Hcase as [Hsame|(_ & _ & Hdone)]; [|done].
  exfalso. revert Hm' Hsame. unfold processSinglePendingMessage. rewrite Hclaim. simpl.
  destruct (env_storeThrows env).
  { simpl. rewrite !lookup_alter_eq, Hm. simpl. intros [= <-]. simpl. congruence. }
  destruct (applyAssignment _ _ _ _ _ _) as [[s2 applied]|why] eqn:Hrun; simpl.
  - apply applyAssignment_messages in Hrun. rewrite Hrun. simpl.
    rewrite !lookup_alter_eq, Hm. simpl. intros [= <-]. simpl. congruence.
  - rewrite !lookup_alter_eq, Hm. simpl. intros [= <-]. simpl. congruence.
Qed.

(** When every tick runs to its end before the next operation starts, no
    store holds a message [in_progress]. *)
Lemma serial_settled (cfg : Config) (s : Store) :
  serial cfg s →
  ∀ id m, messages s !! id = Some m → msg_assignment_status m ≠ in_progress.
Proof.
  intros Hreach. induction Hreach as [|op s Hreach IH].
  - intros id m Hm. simpl in Hm. by rewrite lookup_empty in Hm.
  - intros id m' Hm'.
    destruct (messages s !! id) as [m|] eqn:Hm.
    + destruct (run_status cfg op s id m Hm) as (m'' & Hm'' & Hst).
      rewrite Hm' in Hm''. injection Hm'' as <-.
      specialize (IH id m Hm).
      destruct Hst as [->|[_ [->| ->]]]; done.
    + destruct op as [newId author content now|env|nowCool nowArchive|ai now];
        cbn [run] in Hm'.
      * unfold postMessage in Hm'.
        destruct (messages s !! newId) eqn:Hnew; [congruence|]. simpl in Hm'.
        destruct (decide (newId = id)) as [->|Hne].
        -- rewrite lookup_insert_eq in Hm'. by injection Hm' as <-.
        -- rewrite lookup_insert_ne in Hm' by done. congruence.
      * exfalso. revert Hm'. unfold processSinglePendingMessage.
        destruct (claimPendingMessage s) as [[claimed s1]|] eqn:Hclaim; simpl;
          [|congruence].
        destruct (claimPendingMessage_Some _ _ _ Hclaim)
          as (m0 & Hm0 & _ & _ & _ & -> & _).
        assert (id ≠ pend_id claimed) as Hne by (intros ->; congruence).
        destruct (env_storeThrows env).
        { simpl. rewrite !lookup_alter_ne by done. congruence. }
        destruct (applyAssignment _ _ _ _ _ _) as [[s2 applied]|why] eqn:Hrun; simpl.
        -- apply applyAssignment_messages in Hrun. rewrite Hrun. simpl.
           rewrite !lookup_alter_ne by done. congruence.
        -- rewrite !lookup_alter_ne by done. congruence.
      * rewrite lifecycleTick_messages in Hm'. congruence.
      * exfalso.
        destruct (mergeTick_cases ai now s)
          as [Heq|(src & tgt & row & _ & _ & _ & Hrun)].
        -- rewrite Heq in Hm'. congruence.
        -- apply executeMerge_messages in Hrun.
           rewrite Hrun, lookup_fmap, Hm in Hm'. done.
Qed.

(** ** The status of a message, one round trip at a time *)

Lemma statusOf_alter (set : MessageRecord -> MessageRecord) (final : AssignmentStatus)
    (id0 : string) (s s' : Store) (id : string) :
  (∀ m, msg_assignment_status (set m) = final) →
  messages s' = alter set id0 (messages s) →
  statusOf s' id =
    if decide (id = id0) then (fun _ => final) <$> statusOf s id else statusOf s id.
Proof.
  intros Hset Heq. unfold statusOf. rewrite Heq.
  destruct (decide (id = id0)) as [->|Hne].
  - rewrite lookup_alter_eq. destruct (messages s !! id0) as [m|]; simpl; [|done].
    by rewrite Hset.
  - by rewrite lookup_alter_ne.
Qed.

(** What an event does to the statuses and to the claim that the
    assignment loop holds: nothing; or it adds a [pending] message; or the
    loop, holding nothing, claims a [pending] message, which becomes
    [in_progress]; or the loop lets go of the message it holds, which
    becomes [assigned] or [failed]. *)
Lemma exec_cases (cfg : Config) (ev : Event) (e e' : Engine) :
  exec cfg ev e = Some e' →
  ((∀ id, statusOf (store e') id = statusOf (store e) id) ∧ heldId e' = heldId e)
  ∨ (∃ id0, statusOf (store e) id0 = None ∧ heldId e' = heldId e
        ∧ ∀ id, statusOf (store e') id
                = if decide (id = id0) then Some pending else statusOf (store e) id)
  ∨ (∃ id0, heldId e = None ∧ heldId e' = Some id0
        ∧ statusOf (store e) id0 = Some pending
        ∧ ∀ id, statusOf (store e') id
                = if decide (id = id0) then Some in_progress else statusOf (store e) id)
  ∨ (∃ id0 final, heldId e = Some id0 ∧ heldId e' = None
        ∧ (final = assigned ∨ final = failed)
        ∧ ∀ id, statusOf (store e') id
                = if decide (id = id0) then (fun _ => final) <$> statusOf (store e) id
                  else statusOf (store e) id).
Proof.
  destruct ev as [id0 author content now| |ai|ai|now newId| |now|now|ai|now]; simpl.
  - intros [= <-]. simpl. unfold postMessage.
    destruct (messages (store e) !! id0) eqn:Hold; [by left|].
    right; left. exists id0. split; [unfold statusOf; by rewrite Hold|]. split; [done|].
    intros id. unfold statusOf. simpl. destruct (decide (id = id0)) as [->|Hne].
    + by rewrite lookup_insert_eq.
    + by rewrite lookup_insert_ne.
  - destruct (assigning e) eqn:Ha; [done|].
    destruct (claimPendingMessage (store e)) as [[p s1]|] eqn:Hclaim; [|done].
    intros [= <-]. simpl.
    destruct (claimPendingMessage_Some _ _ _ Hclaim) as (m & Hm & Hst & _ & _ & -> & _).
    assert (statusOf (store e) (pend_id p) = Some pending) as Hpending
      by (unfold statusOf; rewrite Hm; simpl; congruence).
    right; right; left. exists (pend_id p). unfold heldId. rewrite Ha.
    split; [done|]. split; [done|]. split; [done|].
    intros id.
    rewrite (statusOf_alter (set_assignment_status in_progress) in_progress (pend_id p)
               (store e)) by done.
    destruct (decide (id = pend_id p)) as [->|Hne]; [by rewrite Hpending|done].
  - destruct (assigning e) as [[p|p d|p d r]|] eqn:Ha; try done.
    intros [= <-]. left. unfold heldId. simpl. by rewrite Ha.
  - destruct (assigning e) as [[p|p d|p d r]|] eqn:Ha; try done.
    intros [= <-]. left. unfold heldId. simpl. by rewrite Ha.
  - destruct (assigning e) as [[p|p d|p d r]|] eqn:Ha; try done.
    intros [= <-]. right; right; right. exists (pend_id p). unfold heldId. rewrite Ha. simpl.
    destruct (applyAssignment now newId p d r (store e)) as [[s2 applied]|why] eqn:Hrun.
    + exists assigned. split; [done|]. split; [done|]. split; [by left|].
      intros id. apply applyAssignment_messages in Hrun.
      eapply statusOf_alter; [|exact Hrun]. done.
    + exists failed. split; [done|]. split; [done|]. split; [by right|].
      intros id. eapply statusOf_alter; [|reflexivity]. done.
  - destruct (assigning e) as [a|] eqn:Ha; [|done].
    intros [= <-]. right; right; right. exists (pend_id (claimedMessage a)), failed.
    unfold heldId. rewrite Ha. simpl.
    split; [done|]. split; [done|]. split; [by right|].
    intros id. eapply statusOf_alter; [|reflexivity]. done.
  - intros [= <-]. by left.
  - intros [= <-]. by left.
  - destruct (length _ <? 2)%nat; [done|].
    destruct (merging e); [done|].
    destruct (findMergePair _) as [best|]; [|done].
    destruct (resolveMerge ai best); [|done]. intros [= <-]. by left.
  - destruct (merging e) as [[sourceThreadId targetThreadId]|]; [|done].
    intros [= <-]. left. split; [|done]. intros id. simpl.
    destruct (executeMerge now sourceThreadId targetThreadId (store e)) as [s2|why] eqn:Hrun;
      [|done].
    apply executeMerge_messages in Hrun. unfold statusOf. rewrite Hrun, lookup_fmap.
    destruct (messages (store e) !! id) as [m|]; simpl; [|done].
    by destruct (bool_decide _).
Qed.

(** Every event keeps every message, and leaves its status where it was or
    one move further, when the messages in progress are the one held. *)
Lemma exec_status (cfg : Config) (ev : Event) (e e' : Engine) (id : string)
    (st : AssignmentStatus) :
  holdsClaim e → exec cfg ev e = Some e' → statusOf (store e) id = Some st →
  ∃ st', statusOf (store e') id = Some st' ∧ (st' = st ∨ advances st st').
Proof.
  intros Hinv Hexec Hst.
  destruct (exec_cases cfg ev e e' Hexec)
    as [[Hsame _]|[(id0 & Hnew & _ & Hnext)|[(id0 & _ & _ & Hpending & Hnext)
       |(id0 & final & Hheld & _ & Hfinal & Hnext)]]].
  - exists st. rewrite Hsame. by split; [|left].
  - exists st. rewrite Hnext. destruct (decide (id = id0)) as [->|Hne]; [congruence|].
    by split; [|left].
  - rewrite Hnext. destruct (decide (id = id0)) as [->|Hne].
    + exists in_progress. split; [done|]. right.
      assert (st = pending) as -> by congruence. constructor.
    + exists st. by split; [|left].
  - rewrite Hnext. destruct (decide (id = id0)) as [->|Hne].
    + apply Hinv in Hheld. rewrite Hst. simpl. exists final. split; [done|]. right.
      assert (st = in_progress) as -> by congruence.
      destruct Hfinal as [-> | ->]; constructor.
    + exists st. by split; [|left].
Qed.

Lemma exec_holdsClaim (cfg : Config) (ev : Event) (e e' : Engine) :
  holdsClaim e → exec cfg ev e = Some e' → holdsClaim e'.
Proof.
  intros Hinv Hexec id.
  destruct (exec_cases cfg ev e e' Hexec)
    as [[Hsame Hheld]|[(id0 & Hnew & Hheld & Hnext)|[(id0 & Hnone & Hheld & Hpending & Hnext)
       |(id0 & final & Hsome & Hheld & Hfinal & Hnext)]]].
  - rewrite Hsame, Hheld. apply Hinv.
  - rewrite Hnext, Hheld. destruct (decide (id = id0)) as [->|Hne]; [|apply Hinv].
    split; [done|]. intros Hh. apply Hinv in Hh. congruence.
  - rewrite Hnext, Hheld. destruct (decide (id = id0)) as [->|Hne]; [done|]. split.
    + intros Hh. apply Hinv in Hh. congruence.
    + congruence.
  - rewrite Hnext, Hheld. destruct (decide (id = id0)) as [->|Hne].
    + split; [|done]. destruct (statusOf (store e) id0); simpl; [|done].
      destruct Hfinal; congruence.
    + split; [|done]. intros Hh. apply Hinv in Hh. congruence.
Qed.

Lemma reachable_holdsClaim (cfg : Config) (e : Engine) : reachable cfg e → holdsClaim e.
Proof.
  induction 1 as [|ev e e' _ IH Hexec]; [|by eapply exec_holdsClaim].
  intros id. unfold statusOf, heldId. simpl. by rewrite lookup_empty.
Qed.

Lemma execAll_cons (cfg : Config) (ev : Event) (evs : list Event) (e : Engine) :
  execAll cfg (ev :: evs) e = exec cfg ev e ≫= execAll cfg evs.
Proof.
  unfold execAll. simpl. destruct (exec cfg ev e) as [e1|]; [done|].
  simpl. induction evs as [|ev' evs IH]; [done|]. simpl. apply IH.
Qed.

Lemma reachable_execAll (cfg : Config) (evs : list Event) (e e' : Engine) :
  reachable cfg e → execAll cfg evs e = Some e' → reachable cfg e'.
Proof.
  revert e. induction evs as [|ev evs IH]; intros e Hreach.
  - by intros [= <-].
  - rewrite execAll_cons. destruct (exec cfg ev e) as [e1|] eqn:Hexec; [|done]. simpl.
    apply IH. by eapply reachable_event.
Qed.

(** A tick that runs to its end is a run of events: what the operations
    build, one after the other, the events build as well. *)
Lemma serial_reachable (cfg : Config) (s : Store) :
  serial cfg s → reachable cfg (idleEngine s).
Proof.
  induction 1 as [|op s _ IH]; [apply reachable_start|].
  destruct op as [id author content now|env|nowCool nowArchive|ai now]; cbn [run].
  - by apply (reachable_event cfg (Post id author content now) (idleEngine s)).
  - unfold processSinglePendingMessage.
    destruct (claimPendingMessage s) as [[p s1]|] eqn:Hclaim; simpl; [|done].
    assert (reachable cfg {| store := s1; assigning := Some (Claimed p); merging := None |})
      as Hclaimed.
    { apply (reachable_event cfg Claim (idleEngine s)); [done|]. simpl. by rewrite Hclaim. }
    destruct (env_storeThrows env).
    { by apply (reachable_event cfg Throw _ _ Hclaimed). }
    pose proof (reachable_event cfg (Decide (env_assignment env)) _ _ Hclaimed eq_refl)
      as Hdecided.
    pose proof (reachable_event cfg (LookForRevival (env_revival env)) _ _ Hdecided eq_refl)
      as Hresolved.
    apply (reachable_event cfg (Apply (env_now env) (env_newId env)) _ _ Hresolved).
    simpl. by destruct (applyAssignment _ _ _ _ _ _) as [[s2 applied]|why].
  - apply (reachable_event cfg (Archive nowArchive) (idleEngine (coolThreads cfg nowCool s)));
      [|done].
    by apply (reachable_event cfg (Cool nowCool) (idleEngine s)).
  - unfold mergeTick.
    destruct (length (fetchMergeCandidates s) <? 2)%nat eqn:Hfew; [done|].
    destruct (findMergePair (fetchMergeCandidates s)) as [best|] eqn:Hpair; [|done].
    destruct (resolveMerge ai best) as [[sourceThreadId targetThreadId]|] eqn:Hres; [|done].
    apply (reachable_event cfg (MergeCommit now)
             {| store := s; assigning := None;
                merging := Some (sourceThreadId, targetThreadId) |}); [|done].
    apply (reachable_event cfg (MergeRead ai) (idleEngine s)); [done|].
    simpl. by rewrite Hfew, Hpair, Hres.
Qed.

(** The assignment loop is never stuck with a message: the round trips
    that remain of its tick can happen, and they end the tick. *)
Lemma held_finishes (cfg : Config) (e : Engine) (id : string) :
  heldId e = Some id →
  ∃ evs e', execAll cfg evs e = Some e' ∧ heldId e' = None ∧ (length evs ≤ 3)%nat.
Proof.
  unfold heldId. destruct (assigning e) as [[p|p d|p d r]|] eqn:Ha; [| | |done]; intros _.
  - eexists [Decide AIDisabled; LookForRevival AIDisabled; Apply 0 "id"], _.
    unfold execAll. simpl. rewrite Ha. simpl. split; [done|]. split; [done|]. simpl. lia.
  - eexists [LookForRevival AIDisabled; Apply 0 "id"], _.
    unfold execAll. simpl. rewrite Ha. simpl. split; [done|]. split; [done|]. simpl. lia.
  - eexists [Apply 0 "id"], _.
    unfold execAll. simpl. rewrite Ha. simpl. split; [done|]. split; [done|]. simpl. lia.
Qed.

(** C7. The status of a message moves only along
    [pending -> in_progress -> {assigned, failed}], with the producer and
    the three loops taking their round trips to the store in any order.
    Every event keeps every message and leaves its status where it was or
    one move further; so does every run of events, along the order.  The
    order has no way back, and [assigned] and [failed] are its ends.  A
    message is [in_progress] exactly while the assignment loop holds it;
    the loop is never stuck with it; and the event with which the loop lets
    go of a message leaves that message [assigned] or [failed]. *)
Theorem assignment_status_monotone (cfg : Config) :
  (∀ e ev e' id st,
     reachable cfg e → exec cfg ev e = Some e' → statusOf (store e) id = Some st →
     ∃ st', statusOf (store e') id = Some st' ∧ (st' = st ∨ advances st st'))
  ∧ (∀ e evs e' id st,
       reachable cfg e → execAll cfg evs e = Some e' → statusOf (store e) id = Some st →
       ∃ st', statusOf (store e') id = Some st' ∧ along st st')
  ∧ (∀ a b, along a b →
       (along b a → a = b)
       ∧ (a = assigned → b = assigned)
       ∧ (a = failed → b = failed))
  ∧ (∀ e id, reachable cfg e →
       (statusOf (store e) id = Some in_progress ↔ heldId e = Some id))
  ∧ (∀ e id, reachable cfg e → heldId e = Some id →
       ∃ evs e', execAll cfg evs e = Some e' ∧ heldId e' = None)
  ∧ (∀ e ev e' id,
       reachable cfg e → exec cfg ev e = Some e' →
       heldId e = Some id → heldId e' = None →
       statusOf (store e') id = Some assigned ∨ statusOf (store e') id = Some failed).
Proof.
  split; [|split; [|split; [|split; [|split]]]].
  - intros e ev e' id st Hreach. apply exec_status. by eapply reachable_holdsClaim.
  - intros e evs. revert e. induction evs as [|ev evs IH]; intros e e' id st Hreach.
    + intros [= <-] Hst. exists st. split; [done|]. apply rtc_refl.
    + rewrite execAll_cons. destruct (exec cfg ev e) as [e1|] eqn:Hexec; [|done]. simpl.
      intros Hrest Hst.
      destruct (exec_status cfg ev e e1 id st (reachable_holdsClaim cfg e Hreach) Hexec Hst)
        as (st1 & Hst1 & Hmove).
      destruct (IH e1 e' id st1 (reachable_event cfg ev e e1 Hreach Hexec) Hrest Hst1)
        as (st' & Hst' & Halong).
      exists st'. split; [done|].
      destruct Hmove as [->|Hmove]; [done|]. by eapply rtc_l.
  - intros a b Hab. apply along_cases in Hab. split; [|split].
    + intros Hba. apply along_cases in Hba.
      destruct Hab as [?|[?|[? [?|?]]]], Hba as [?|[?|[? [?|?]]]]; congruence.
    + intros ->. by destruct Hab as [<-|[?|[? _]]].
    + intros ->. by destruct Hab as [<-|[?|[? _]]].
  - intros e id Hreach. exact (reachable_holdsClaim cfg e Hreach id).
  - intros e id _ Hheld.
    destruct (held_finishes cfg e id Hheld) as (evs & e' & Hrun & Hdone & _). eauto.
  - intros e ev e' id Hreach Hexec Hheld Hdone.
    pose proof (reachable_holdsClaim cfg e Hreach) as Hinv.
    destruct (exec_cases cfg ev e e' Hexec)
      as [[_ Hkept]|[(id0 & _ & Hkept & _)|[(id0 & Hnone & _)
         |(id0 & final & Hsome & _ & Hfinal & Hnext)]]]; try congruence.
    assert (id0 = id) as -> by congruence.
    apply Hinv in Hheld. rewrite Hnext, Hheld.
    destruct (decide (id = id)); [|done]. simpl.
    destruct Hfinal as [-> | ->]; [by left|by right].
Qed.

(** ** The rows a committed assignment writes *)

Lemma updateThreadById_always (id : string) (set : ThreadRecord -> ThreadRecord) (s : Store) :
  threads (updateThreadById id (fun _ => true) set s).1 = alter set id (threads s).
Proof.
  apply map_eq. intros j. rewrite updateThreadById_lookup, lookup_alter.
  destruct (decide (j = id)) as [->|Hne].
  - rewrite decide_True by done. by destruct (threads s !! id).
  - rewrite decide_False by done. done.
Qed.

(** [provideThread], case by case: no row is inserted; a row is inserted
    and no link is made, the revival source being absent or not archived;
    a row is inserted and linked, both ways, to an archived row. *)
Lemma provideThread_cases (now : Z) (newId : string) (pending : PendingMessage)
    (decision : AssignmentDecision) (revivalSourceId : option string) (s s3 : Store)
    (threadId createdThreadId : option string) (revivalLink : option (string * string)) :
  provideThread now newId pending decision revivalSourceId s
    = Committed (s3, threadId, createdThreadId, revivalLink) →
  (createdThreadId = None ∧ revivalLink = None ∧ threads s3 = threads s)
  ∨ (createdThreadId = Some newId ∧ threadId = Some newId ∧ threads s !! newId = None
     ∧ ((revivalLink = None
         ∧ (∀ oldId oldRow, present revivalSourceId = Some oldId →
              threads s !! oldId = Some oldRow → thr_state oldRow ≠ archived)
         ∧ threads s3 = <[newId := insertedRow now pending decision]> (threads s))
        ∨ (∃ oldId oldRow,
             revivalLink = Some (oldId, newId)
             ∧ present revivalSourceId = Some oldId
             ∧ oldId ≠ newId
             ∧ threads s !! oldId = Some oldRow
             ∧ thr_state oldRow = archived
             ∧ threads s3 =
                 <[newId := revivesRow now oldId (insertedRow now pending decision)]>
                   (<[oldId := continuedInRow now newId oldRow]>
                      (<[newId := insertedRow now pending decision]> (threads s)))))).
Proof.
  unfold provideThread, insertThread. fold (insertedRow now pending decision).
  destruct (bool_decide _ || negb _); [|intros [= <- _ <- <-]; by left].
  destruct (threads s !! newId) eqn:Hfresh; simpl; [done|].
  intros Hrun. right.
  destruct (present revivalSourceId) as [oldId|] eqn:Hrev; simpl in Hrun.
  - unfold updateThreadById in Hrun. simpl in Hrun.
    destruct (decide (oldId = newId)) as [->|Hne].
    + rewrite lookup_insert_eq in Hrun. simpl in Hrun.
      injection Hrun as <- <- <- <-. simpl.
      split; [done|]. split; [done|]. split; [done|]. left.
      split; [done|]. split; [|done].
      intros oldId oldRow [= <-] Hold. congruence.
    + rewrite lookup_insert_ne in Hrun by done.
      destruct (threads s !! oldId) as [oldRow|] eqn:Hold; simpl in Hrun.
      * destruct (isArchived oldRow) eqn:Harch; simpl in Hrun.
        -- rewrite lookup_insert_ne in Hrun by done.
           rewrite lookup_insert_eq in Hrun. simpl in Hrun.
           injection Hrun as <- <- <- <-. simpl.
           split; [done|]. split; [done|]. split; [done|]. right.
           exists oldId, oldRow. apply bool_decide_eq_true in Harch. done.
        -- injection Hrun as <- <- <- <-. simpl.
           split; [done|]. split; [done|]. split; [done|]. left.
           split; [done|]. split; [|done].
           intros oldId' oldRow' [= <-] Hold'. apply bool_decide_eq_false in Harch.
           congruence.
      * injection Hrun as <- <- <- <-. simpl.
        split; [done|]. split; [done|]. split; [done|]. left.
        split; [done|]. split; [|done].
        intros oldId' oldRow' [= <-] Hold'. congruence.
  - injection Hrun as <- <- <- <-. simpl.
    split; [done|]. split; [done|]. split; [done|]. left.
    split; [done|]. split; [|done]. intros oldId oldRow Hp. done.
Qed.

(** The rows of [threads] after a committed [applyAssignment]: those that
    [provideThread] left, the row of the message's thread touched. *)
Lemma applyAssignment_threads (now : Z) (newId : string) (pending : PendingMessage)
    (decision : AssignmentDecision) (revivalSourceId : option string) (s s' : Store)
    (applied : Applied) :
  applyAssignment now newId pending decision revivalSourceId s = Committed (s', applied) →
  ∃ s3 threadId,
    provideThread now newId pending decision revivalSourceId s
      = Committed (s3, threadId, ap_createdThreadId applied, ap_revivalLink applied)
    ∧ present threadId = Some (ap_threadId applied)
    ∧ threads s' =
        alter (touchRow now (pend_created_at pending)) (ap_threadId applied) (threads s3).
Proof.
  unfold applyAssignment.
  destruct (provideThread now newId pending decision revivalSourceId s)
    as [[[[s3 threadId] createdThreadId] revivalLink]|why] eqn:Hrun; simpl; [|done].
  destruct (present threadId) as [tid|] eqn:Htid; [|done].
  destruct (assignMessage _ _ _ _) as [s4|why] eqn:Hassign; simpl; [|done].
  assert (threads s4 = threads s3) as Hthreads.
  { unfold assignMessage in Hassign.
    destruct (messages s3 !! pend_id pending), (threads s3 !! tid); by simplify_eq. }
  match goal with |- context [updateThreadById tid ?g ?f ?st] =>
    pose proof (updateThreadById_always tid f st) as H5;
    destruct (updateThreadById tid g f st) as [s5 n] end.
  simpl in H5. intros [= <- <-]. simpl.
  exists s3, threadId. by rewrite H5, Hthreads.
Qed.

Lemma applyAssignment_thread_exists (now : Z) (newId : string) (pending : PendingMessage)
    (decision : AssignmentDecision) (revivalSourceId : option string) (s s' : Store)
    (applied : Applied) :
  applyAssignment now newId pending decision revivalSourceId s = Committed (s', applied) →
  is_Some (messages s !! pend_id pending) →
  is_Some (threads s' !! ap_threadId applied).
Proof.
  unfold applyAssignment.
  destruct (provideThread now newId pending decision revivalSourceId s)
    as [[[[s3 threadId] createdThreadId] revivalLink]|why] eqn:Hrun; simpl; [|done].
  pose proof (provideThread_messages _ _ _ _ _ _ _ _ _ _ Hrun) as Hmessages.
  destruct (present threadId) as [tid|] eqn:Htid; [|done].
  destruct (assignMessage _ _ _ _) as [s4|why] eqn:Hassign; simpl; [|done].
  match goal with |- context [updateThreadById tid ?g ?f ?st] =>
    pose proof (updateThreadById_always tid f st) as H5;
    destruct (updateThreadById tid g f st) as [s5 n] end.
  simpl in H5. intros [= <- <-] [m Hm]. simpl. rewrite H5, lookup_alter_eq.
  unfold assignMessage in Hassign. rewrite Hmessages, Hm in Hassign.
  destruct (threads s3 !! tid) as [row|] eqn:Hrow; [|done].
  injection Hassign as <-. simpl. rewrite Hrow. by eexists.
Qed.

(** C10. For a pending message and a normalized decision (its [threadId]
    is [null] or the id of a candidate, never the empty string; a new row
    gets a non-empty id), [applyAssignment] never takes the branch that
    throws "Assignment did not produce a thread id": after lines 583-632 a
    thread id is at hand.  Whenever the action is [create] or the
    decision's [threadId] is [null], it is the id of a row that the
    transaction inserts: the id was not in the table, and the committed
    table has under it an active row with the title of the decision (or
    the one built from the message) and the time of the message as its
    [last_message_at].  Otherwise it is the decision's [threadId], and the
    committed table has the rows it had, none inserted.  In both cases the
    message, if it is in the table, is assigned to that thread, which is
    a row of the committed table, and that is the thread id the
    transaction returns.  The transaction commits whenever the drawn id is
    unused and, for an [assign], the named thread exists. *)
Theorem applyAssignment_thread_id
    (now : Z) (newId : string) (pending : PendingMessage)
    (decision : AssignmentDecision) (revivalSourceId : option string) (s : Store) :
  newId ≠ "" →
  dec_threadId decision ≠ Some "" →
  let creates := dec_action decision = create ∨ dec_threadId decision = None in
  applyAssignment now newId pending decision revivalSourceId s ≠ RolledBack NoThreadId
  ∧ (∀ s3 threadId createdThreadId revivalLink,
       provideThread now newId pending decision revivalSourceId s
         = Committed (s3, threadId, createdThreadId, revivalLink) →
       ∃ tid, threadId = Some tid ∧ tid ≠ ""
         ∧ (creates → tid = newId ∧ createdThreadId = Some newId
                      ∧ threads s !! newId = None ∧ is_Some (threads s3 !! newId))
         ∧ (¬ creates → dec_threadId decision = Some tid ∧ createdThreadId = None ∧ s3 = s))
  ∧ (∀ s' applied,
       applyAssignment now newId pending decision revivalSourceId s = Committed (s', applied) →
       (creates →
          ap_threadId applied = newId ∧ ap_createdThreadId applied = Some newId
          ∧ threads s !! newId = None
          ∧ ∃ row, threads s' !! newId = Some row
                   ∧ thr_title row
                     = default (buildTitle (pend_content pending)) (dec_title decision)
                   ∧ thr_state row = active
                   ∧ thr_last_message_at row = Some (pend_created_at pending))
       ∧ (¬ creates →
          dec_threadId decision = Some (ap_threadId applied)
          ∧ ap_createdThreadId applied = None
          ∧ dom (threads s') = dom (threads s))
       ∧ (∀ m, messages s !! pend_id pending = Some m →
            messages s' !! pend_id pending
            = Some (set_assignment assigned (Some (dec_reason decision))
                      (set_thread_id (Some (ap_threadId applied)) m))
            ∧ is_Some (threads s' !! ap_threadId applied)))
  ∧ (threads s !! newId = None →
     (¬ creates → ∃ tid, dec_threadId decision = Some tid ∧ is_Some (threads s !! tid)) →
     ∃ s' applied,
       applyAssignment now newId pending decision revivalSourceId s = Committed (s', applied)).
Proof.
  intros HnewId Hnorm creates.
  assert (truthy (dec_threadId decision) = false ↔ dec_threadId decision = None) as Hfalsy.
  { unfold truthy. destruct (dec_threadId decision) as [id|]; [|done].
    split; [|done]. intros Heq. apply negb_false_iff, String.eqb_eq in Heq. congruence. }
  assert (∀ s3 threadId createdThreadId revivalLink,
       provideThread now newId pending decision revivalSourceId s
         = Committed (s3, threadId, createdThreadId, revivalLink) →
       ∃ tid, threadId = Some tid ∧ tid ≠ ""
         ∧ (creates → tid = newId ∧ createdThreadId = Some newId
                      ∧ threads s !! newId = None ∧ is_Some (threads s3 !! newId))
         ∧ (¬ creates → dec_threadId decision = Some tid ∧ createdThreadId = None ∧ s3 = s))
    as Hprovide.
  { intros s3 threadId createdThreadId revivalLink Hrun.
    apply provideThread_Committed in Hrun
      as [(Hc & -> & -> & Hfresh & Hnew)|((Hact & Ht) & -> & -> & -> & ->)].
    - exists newId. split; [done|]. split; [done|]. split; [done|].
      intros Hn. exfalso. apply Hn. unfold creates. rewrite <- Hfalsy. done.
    - unfold truthy in Ht. destruct (dec_threadId decision) as [id|] eqn:Hid; [|done].
      apply negb_true_iff, String.eqb_neq in Ht.
      exists id. split; [done|]. split; [done|]. split; [|done].
      intros [Hc|Hc]; congruence. }
  split; [|split; [done|split]].
  - unfold applyAssignment.
    destruct (provideThread now newId pending decision revivalSourceId s)
      as [[[[s3 threadId] createdThreadId] revivalLink]|why] eqn:Hrun; simpl.
    + destruct (Hprovide _ _ _ _ eq_refl) as (tid & -> & Htid & _).
      rewrite present_Some by done.
      destruct (assignMessage _ _ _ _) as [s4|why] eqn:Hassign; simpl.
      * by destruct (updateThreadById _ _ _ _).
      * unfold assignMessage in Hassign.
        destruct (messages s3 !! pend_id pending), (threads s3 !! tid); simplify_eq; done.
    + by apply provideThread_RolledBack in Hrun as [-> _].
  - intros s' applied Hrun.
    pose proof (applyAssignment_messages _ _ _ _ _ _ _ _ Hrun) as Hmessages.
    pose proof (applyAssignment_thread_exists _ _ _ _ _ _ _ _ Hrun) as Hexists.
    apply applyAssignment_threads in Hrun as (s3 & threadId & Hrun & Htid & Htouch).
    apply present_Some_inv in Htid as [-> _].
    destruct (Hprovide _ _ _ _ Hrun) as (tid & [= <-] & _ & Hc & Hn).
    split; [|split].
    + intros Hcr. destruct (Hc Hcr) as (Hid & Hcreated & Hfresh & _).
      split; [done|]. split; [done|]. split; [done|].
      assert (Z.max (pend_created_at pending) (pend_created_at pending)
              = pend_created_at pending) as Hmax by lia.
      rewrite Htouch, Hid, lookup_alter_eq.
      apply provideThread_cases in Hrun
        as [(Hnone & _)|(_ & _ & _ & [(_ & _ & ->)|(oldId & oldRow & _ & _ & _ & _ & _ & ->)])];
        [congruence| |]; rewrite lookup_insert_eq; simpl;
        (eexists; split; [reflexivity|]); simpl; by rewrite Hmax.
    + intros Hcr. destruct (Hn Hcr) as (Hid & Hcreated & ->).
      split; [done|]. split; [done|]. rewrite Htouch. apply dom_alter_L.
    + intros m Hm. split; [|apply Hexists; by exists m].
      by rewrite Hmessages, lookup_alter_eq, Hm.
  - intros Hfresh Hnamed. unfold applyAssignment.
    destruct (provideThread_total now newId pending decision revivalSourceId s Hfresh)
      as ([[[s3 threadId] createdThreadId] revivalLink] & Hrun).
    rewrite Hrun. simpl.
    destruct (Hprovide _ _ _ _ Hrun) as (tid & -> & Htid & Hc & Hn).
    rewrite present_Some by done.
    assert (is_Some (threads s3 !! tid)) as [row Hrow].
    { destruct (decide creates) as [Hcr|Hcr].
      - by destruct (Hc Hcr) as (-> & _ & _ & ?).
      - destruct (Hn Hcr) as (Hid & _ & ->).
        destruct (Hnamed Hcr) as (tid' & Hid' & Hex). congruence. }
    unfold assignMessage. rewrite Hrow.
    destruct (messages s3 !! pend_id pending); simpl;
      destruct (updateThreadById _ _ _ _); by eexists _, _.
Qed.

Lemma applyAssignment_thread_id_witness :
  "n1" ≠ "" ∧ dec_threadId demoCreate ≠ Some "" ∧ dec_threadId demoAssign ≠ Some ""
  ∧ (∃ s' applied row,
       applyAssignment (seconds 950) "n1" demoPending demoCreate None claimedStore
       = Committed (s', applied)
       ∧ ap_threadId applied = "n1" ∧ ap_createdThreadId applied = Some "n1"
       ∧ threads claimedStore !! "n1" = None
       ∧ threads s' !! "n1" = Some row
       ∧ thr_title row = "Rollout plan"
       ∧ thr_last_message_at row = Some (seconds 900)
       ∧ (msg_thread_id <$> messages s' !! "m9") = Some (Some "n1"))
  ∧ (∃ s' applied,
       applyAssignment (seconds 950) "n1" demoPending demoAssign None claimedStore
       = Committed (s', applied)
       ∧ ap_threadId applied = "a" ∧ ap_createdThreadId applied = None
       ∧ dom (threads s') = dom (threads claimedStore)
       ∧ (msg_thread_id <$> messages s' !! "m9") = Some (Some "a")).
Proof.
  split; [discriminate|]. split; [discriminate|]. split; [discriminate|].
  destruct (messages claimedStore !! "m9") as [m|] eqn:Hm; [|by vm_compute in Hm].
  split.
  - destruct (applyAssignment_thread_id (seconds 950) "n1" demoPending demoCreate None
                claimedStore)
      as (_ & _ & Hresult & Htotal); [discriminate..|].
    destruct Htotal as (s' & applied & Hrun).
    + by vm_compute.
    + intros Hn. exfalso. apply Hn. by left.
    + destruct (Hresult s' applied Hrun) as (Hcreates & _ & Hmessage).
      destruct Hcreates as (Hid & Hcreated & Hfresh & row & Hrow & Htitle & _ & Hlast);
        [by left|].
      destruct (Hmessage m Hm) as [Hm' _].
      exists s', applied, row. repeat (split; [done|]).
      change (pend_id demoPending) with "m9" in Hm'. by rewrite Hm', Hid.
  - destruct (applyAssignment_thread_id (seconds 950) "n1" demoPending demoAssign None
                claimedStore)
      as (_ & _ & Hresult & Htotal); [discriminate..|].
    destruct Htotal as (s' & applied & Hrun).
    + by vm_compute.
    + intros _. exists "a". split; [done|]. eexists. by vm_compute.
    + destruct (Hresult s' applied Hrun) as (_ & Hassigns & Hmessage).
      destruct Hassigns as (Hid & Hcreated & Hdom).
      { intros [Hc|Hc]; discriminate. }
      destruct (Hmessage m Hm) as [Hm' _].
      assert (ap_threadId applied = "a") as Ha by (simpl in Hid; congruence).
      exists s', applied. repeat (split; [done|]).
      change (pend_id demoPending) with "m9" in Hm'. by rewrite Hm', Ha.
Defined.

(** ** Revival links *)

Lemma revivalLinked_keepsLinks (s s' : Store) :
  keepsLinks s s' → revivalLinked s → revivalLinked s'.
Proof.
  intros Hkeep [Hrev Hcont]. split.
  - intros x X' y HX' Hr.
    pose proof (Hkeep x) as Hx. rewrite HX' in Hx.
    destruct (threads s !! x) as [X|] eqn:HX; [|done].
    destruct Hx as (Hxr & _ & _). rewrite Hxr in Hr.
    destruct (Hrev x X y HX Hr) as (Y & HY & Hc).
    pose proof (Hkeep y) as Hy. rewrite HY in Hy.
    destruct (threads s' !! y) as [Y'|]; [|done].
    destruct Hy as (_ & Hyc & _). exists Y'. split; [done|congruence].
  - intros y Y' x HY' Hc.
    pose proof (Hkeep y) as Hy. rewrite HY' in Hy.
    destruct (threads s !! y) as [Y|] eqn:HY; [|done].
    destruct Hy as (_ & Hyc & Hst). rewrite Hyc in Hc.
    destruct (Hcont y Y x HY Hc) as (Hsup & X & HX & Hr).
    split; [by apply Hst|].
    pose proof (Hkeep x) as Hx. rewrite HX in Hx.
    destruct (threads s' !! x) as [X'|]; [|done].
    destruct Hx as (Hxr & _ & _). exists X'. split; [done|congruence].
Qed.

Lemma keepsLinks_refl (s s' : Store) : threads s' = threads s → keepsLinks s s'.
Proof. intros Heq id. rewrite Heq. by destruct (threads s !! id). Qed.

Lemma keepsLinks_lifecycleTick (cfg : Config) (nowCool nowArchive : Z) (s : Store) :
  keepsLinks s (lifecycleTick cfg nowCool nowArchive s).
Proof.
  intros id. rewrite lifecycleTick_lookup.
  destruct (threads s !! id) as [row|]; simpl; [|done].
  unfold lifecycleRow.
  destruct (bool_decide (thr_state row = active) && _) eqn:H1; simpl.
  - apply andb_true_iff in H1 as [Hact _]. apply bool_decide_eq_true in Hact.
    destruct (idleBefore _ _); simpl; repeat split; try done; congruence.
  - destruct (bool_decide (thr_state row = cooling) && _) eqn:H2; simpl; [|done].
    apply andb_true_iff in H2 as [Hcool _]. apply bool_decide_eq_true in Hcool.
    repeat split; try done; congruence.
Qed.

Lemma keepsLinks_alter_touchRow (now messageAt : Z) (tid : string) (s s' : Store) :
  threads s' = alter (touchRow now messageAt) tid (threads s) → keepsLinks s s'.
Proof.
  intros Heq id. rewrite Heq, lookup_alter.
  destruct (decide (tid = id)) as [->|Hne]; destruct (threads s !! id) as [row|];
    simpl; try done.
  repeat split; try done. intros Hsup. rewrite Hsup. done.
Qed.

(** A merge keeps the links as long as the row it reopens is still active
    or cooling when it commits. *)
Lemma keepsLinks_executeMerge (now : Z) (sourceThreadId targetThreadId : string)
    (s s' : Store) (targetRow : ThreadRecord) :
  sourceThreadId ≠ targetThreadId →
  threads s !! targetThreadId = Some targetRow →
  isLive targetRow = true →
  executeMerge now sourceThreadId targetThreadId s = Committed s' →
  keepsLinks s s'.
Proof.
  intros Hne Htgt Hlive. unfold executeMerge, updateThreadById.
  destruct (threads s !! sourceThreadId) as [sourceRow|] eqn:Hsrc; simpl; [|done].
  destruct (isLive sourceRow) eqn:Hsrclive; simpl; [|done].
  rewrite Htgt. rewrite bool_decide_true by done. simpl.
  rewrite lookup_insert_ne by done. rewrite Htgt.
  intros [= <-] id. simpl.
  destruct (decide (id = targetThreadId)) as [->|Hnt].
  - rewrite Htgt, lookup_insert_eq. simpl. repeat split; try done.
    intros Hsup. unfold isLive in Hlive. rewrite Hsup in Hlive. done.
  - rewrite lookup_insert_ne by done.
    destruct (decide (id = sourceThreadId)) as [->|Hns].
    + rewrite Hsrc, lookup_insert_eq. done.
    + rewrite lookup_insert_ne by done. by destruct (threads s !! id).
Qed.

(** The liveness of the target is needed: the last statement of the
    transaction has no guard on the state of the row it reopens.  A merge
    tick never meets that case on the store it has read ([mergeTick_cases]);
    the transaction run on a store in which the target has been superseded
    in the meantime makes it active again. *)
Example executeMerge_reopens_target :
  let s := with_threads (alter (continuedInRow 15 "n") "a" (threads mergeStore)) mergeStore in
  (thr_state <$> threads s !! "a") = Some superseded
  ∧ ∃ s', executeMerge (seconds 20) "b" "a" s = Committed s'
          ∧ (thr_state <$> threads s' !! "a") = Some active
          ∧ (thr_continued_in_thread_id <$> threads s' !! "a") = Some (Some "n").
Proof. split; [by vm_compute|]. eexists. by vm_compute. Qed.

Lemma revivalLinked_insert (s : Store) (newId : string) (row : ThreadRecord)
    (ths : gmap string ThreadRecord) :
  revivalLinked s →
  threads s !! newId = None →
  thr_revives_thread_id row = None →
  thr_continued_in_thread_id row = None →
  ths = <[newId := row]> (threads s) →
  revivalLinked (with_threads ths s).
Proof.
  intros [Hrev Hcont] Hfresh Hr Hc ->. split; simpl.
  - intros x X y HX HXr.
    destruct (decide (x = newId)) as [->|Hne].
    + rewrite lookup_insert_eq in HX. injection HX as <-. congruence.
    + rewrite lookup_insert_ne in HX by done.
      destruct (Hrev x X y HX HXr) as (Y & HY & HYc).
      exists Y. split; [|done]. rewrite lookup_insert_ne; [done|]. congruence.
  - intros y Y x HY HYc.
    destruct (decide (y = newId)) as [->|Hne].
    + rewrite lookup_insert_eq in HY. injection HY as <-. congruence.
    + rewrite lookup_insert_ne in HY by done.
      destruct (Hcont y Y x HY HYc) as (Hsup & X & HX & HXr).
      split; [done|]. exists X. split; [|done].
      rewrite lookup_insert_ne; [done|]. congruence.
Qed.

(** Linking a row that has no link yet to an archived row, both ways. *)
Lemma revivalLinked_link (s : Store) (now : Z) (newId oldId : string)
    (newRow oldRow : ThreadRecord) (ths : gmap string ThreadRecord) :
  revivalLinked s →
  oldId ≠ newId →
  threads s !! newId = Some newRow →
  thr_revives_thread_id newRow = None →
  thr_continued_in_thread_id newRow = None →
  threads s !! oldId = Some oldRow →
  thr_state oldRow = archived →
  ths = <[newId := revivesRow now oldId newRow]>
          (<[oldId := continuedInRow now newId oldRow]> (threads s)) →
  revivalLinked (with_threads ths s).
Proof.
  intros [Hrev Hcont] Hne Hnew Hnr Hnc Hold Harch ->.
  assert (thr_continued_in_thread_id oldRow = None) as Holdc.
  { destruct (thr_continued_in_thread_id oldRow) as [x|] eqn:Hc; [|done].
    destruct (Hcont oldId oldRow x Hold Hc) as [Hsup _]. congruence. }
  split; simpl.
  - intros x X y HX HXr.
    destruct (decide (x = newId)) as [->|Hxn].
    + rewrite lookup_insert_eq in HX. injection HX as <-. simpl in HXr.
      injection HXr as <-. eexists. split.
      * rewrite lookup_insert_ne by done. by rewrite lookup_insert_eq.
      * done.
    + rewrite lookup_insert_ne in HX by done.
      assert (∃ X0, threads s !! x = Some X0
                    ∧ thr_revives_thread_id X0 = Some y) as (X0 & HX0 & HX0r).
      { destruct (decide (x = oldId)) as [->|Hxo].
        - rewrite lookup_insert_eq in HX. injection HX as <-. by exists oldRow.
        - rewrite lookup_insert_ne in HX by done. by exists X. }
      destruct (Hrev x X0 y HX0 HX0r) as (Y & HY & HYc).
      assert (y ≠ newId) as Hyn by (intros ->; congruence).
      assert (y ≠ oldId) as Hyo by (intros ->; congruence).
      exists Y. split; [|done]. by rewrite !lookup_insert_ne.
  - intros y Y x HY HYc.
    destruct (decide (y = newId)) as [->|Hyn].
    + rewrite lookup_insert_eq in HY. injection HY as <-. simpl in HYc. congruence.
    + rewrite lookup_insert_ne in HY by done.
      destruct (decide (y = oldId)) as [->|Hyo].
      * rewrite lookup_insert_eq in HY. injection HY as <-. simpl in HYc.
        injection HYc as <-. split; [done|].
        eexists. split; [by rewrite lookup_insert_eq|done].
      * rewrite lookup_insert_ne in HY by done.
        destruct (Hcont y Y x HY HYc) as (Hsup & X & HX & HXr).
        split; [done|].
        assert (x ≠ newId) as Hxn by (intros ->; congruence).
        destruct (decide (x = oldId)) as [->|Hxo].
        -- eexists. split.
           ++ rewrite lookup_insert_ne by done. by rewrite lookup_insert_eq.
           ++ simpl. congruence.
        -- exists X. split; [|done]. by rewrite !lookup_insert_ne.
Qed.

Lemma revivalLinked_ext (s s' : Store) :
  threads s' = threads s → revivalLinked s → revivalLinked s'.
Proof. intros Heq. apply revivalLinked_keepsLinks. by apply keepsLinks_refl. Qed.

Lemma applyAssignment_linked (now : Z) (newId : string) (pending : PendingMessage)
    (decision : AssignmentDecision) (revivalSourceId : option string) (s s' : Store)
    (applied : Applied) :
  applyAssignment now newId pending decision revivalSourceId s = Committed (s', applied) →
  revivalLinked s → revivalLinked s'.
Proof.
  intros Hrun Hinv.
  apply applyAssignment_threads in Hrun as (s3 & threadId & Hprovide & _ & Htouch).
  apply (revivalLinked_keepsLinks s3); [by eapply keepsLinks_alter_touchRow|].
  apply provideThread_cases in Hprovide
    as [(_ & _ & Heq)|(_ & _ & Hfresh & [(_ & _ & Heq)|(oldId & oldRow & _ & _ & Hne & Hold & Harch & Heq)])].
  - by apply (revivalLinked_ext s).
  - apply (revivalLinked_ext (with_threads (threads s3) s)); [done|].
    by apply (revivalLinked_insert s newId (insertedRow now pending decision)).
  - apply (revivalLinked_ext (with_threads (threads s3)
             (with_threads (<[newId := insertedRow now pending decision]> (threads s)) s)));
      [done|].
    apply (revivalLinked_link _ now newId oldId (insertedRow now pending decision) oldRow).
    + by apply (revivalLinked_insert s newId (insertedRow now pending decision)).
    + done.
    + simpl. by rewrite lookup_insert_eq.
    + done.
    + done.
    + simpl. by rewrite lookup_insert_ne.
    + done.
    + simpl. rewrite Heq. apply map_eq. intros j.
      destruct (decide (j = newId)) as [->|Hj]; [by rewrite !lookup_insert_eq|].
      rewrite !(lookup_insert_ne _ newId) by done.
      destruct (decide (j = oldId)) as [->|Hjo]; [by rewrite !lookup_insert_eq|].
      rewrite !(lookup_insert_ne _ oldId) by done. by rewrite lookup_insert_ne.
Qed.

Lemma claimPendingMessage_threads (s s1 : Store) (claimed : PendingMessage) :
  claimPendingMessage s = Some (claimed, s1) → threads s1 = threads s.
Proof.
  intros Hclaim.
  by destruct (claimPendingMessage_Some _ _ _ Hclaim) as (m & _ & _ & _ & _ & -> & _).
Qed.

Lemma run_linked (cfg : Config) (op : Op) (s : Store) :
  revivalLinked s → revivalLinked (run cfg op s).
Proof.
  intros Hinv. destruct op as [newId author content now|env|nowCool nowArchive|ai now];
    cbn [run].
  - apply (revivalLinked_ext s); [|done]. unfold postMessage.
    by destruct (messages s !! newId).
  - unfold processSinglePendingMessage.
    destruct (claimPendingMessage s) as [[claimed s1]|] eqn:Hclaim; simpl; [|done].
    apply claimPendingMessage_threads in Hclaim.
    assert (revivalLinked s1) as Hinv1 by (by apply (revivalLinked_ext s)).
    destruct (env_storeThrows env); [by apply (revivalLinked_ext s1)|].
    destruct (applyAssignment _ _ _ _ _ _) as [[s2 applied]|why] eqn:Hrun; simpl.
    + by eapply applyAssignment_linked.
    + by apply (revivalLinked_ext s1).
  - by apply (revivalLinked_keepsLinks s); [apply keepsLinks_lifecycleTick|].
  - destruct (mergeTick_cases ai now s)
      as [->|(src & tgt & row & Hne & Hrow & Hlive & Hrun)]; [done|].
    apply (revivalLinked_keepsLinks s); [|done].
    by eapply keepsLinks_executeMerge.
Qed.

Lemma serial_linked (cfg : Config) (s : Store) : serial cfg s → revivalLinked s.
Proof.
  induction 1 as [|op s Hreach IH].
  - split; intros ? ? ? Hrow; simpl in Hrow; by rewrite lookup_empty in Hrow.
  - by apply run_linked.
Qed.

Lemma serial_links_paired (cfg : Config) (s : Store) : serial cfg s → linksPaired s.
Proof.
  intros Hreach x y X Y HX HY.
  destruct (serial_linked cfg s Hreach) as [Hrev Hcont]. split.
  - intros Hr. destruct (Hrev x X y HX Hr) as (Y' & HY' & Hc). congruence.
  - intros Hc. destruct (Hcont y Y x HY Hc) as (_ & X' & HX' & Hr). congruence.
Qed.

(** [applyAssignment] writes the two halves of a link together or not at
    all, on any store it commits on. *)
Lemma applyAssignment_link_atomic (now : Z) (newId : string) (pending : PendingMessage)
    (decision : AssignmentDecision) (revivalSourceId : option string) (s s' : Store)
    (applied : Applied) :
  applyAssignment now newId pending decision revivalSourceId s = Committed (s', applied) →
  linkWritten newId revivalSourceId s s' applied.
Proof.
  unfold linkWritten. revert now newId pending decision revivalSourceId s s' applied.
  intros now newId pending decision revivalSourceId s s' applied Hrun.
    apply applyAssignment_threads in Hrun as (s3 & threadId & Hprovide & Htid & Htouch).
    assert (∀ id row', threads s' !! id = Some row' →
              ∃ row3, threads s3 !! id = Some row3
                      ∧ thr_revives_thread_id row' = thr_revives_thread_id row3
                      ∧ thr_continued_in_thread_id row' = thr_continued_in_thread_id row3
                      ∧ (thr_state row3 = superseded → thr_state row' = superseded))
      as Htouched.
    { intros id row' Hrow'. rewrite Htouch, lookup_alter in Hrow'.
      destruct (decide (ap_threadId applied = id)) as [<-|Hne].
      - destruct (threads s3 !! ap_threadId applied) as [row3|]; [|done]. simpl in Hrow'.
        injection Hrow' as <-. exists row3. repeat split; try done.
        simpl. intros ->. done.
      - exists row'. done. }
    assert (∀ id row3, threads s3 !! id = Some row3 → is_Some (threads s' !! id))
      as Hkept.
    { intros id row3 Hrow3. rewrite Htouch, lookup_alter.
      destruct (decide (ap_threadId applied = id)) as [->|Hne]; rewrite Hrow3; by eexists. }
    apply provideThread_cases in Hprovide
      as [(_ & -> & Heq)|(_ & _ & Hfresh & [(-> & _ & Heq)|(oldId & oldRow & -> & Hrev & Hne & Hold & Harch & Heq)])].
    - intros id row' Hrow'. destruct (Htouched id row' Hrow') as (row3 & Hrow3 & ? & ? & _).
      rewrite Heq in Hrow3. by rewrite Hrow3.
    - intros id row' Hrow'. destruct (Htouched id row' Hrow') as (row3 & Hrow3 & Hr & Hc & _).
      rewrite Heq in Hrow3. destruct (decide (id = newId)) as [->|Hid].
      + rewrite lookup_insert_eq in Hrow3. injection Hrow3 as <-. by rewrite Hfresh.
      + rewrite lookup_insert_ne in Hrow3 by done. by rewrite Hrow3.
    - split; [done|]. split.
      { unfold present in Hrev. by destruct (truthy revivalSourceId). }
      split; [done|]. split; [by exists oldRow|].
      assert (threads s3 !! newId
              = Some (revivesRow now oldId (insertedRow now pending decision))) as Hnew3.
      { by rewrite Heq, lookup_insert_eq. }
      assert (threads s3 !! oldId = Some (continuedInRow now newId oldRow)) as Hold3.
      { rewrite Heq. rewrite lookup_insert_ne by done. by rewrite lookup_insert_eq. }
      split; [|split].
      + destruct (Hkept _ _ Hnew3) as [newRow' Hnew'].
        destruct (Htouched newId newRow' Hnew') as (row3 & Hrow3 & Hr & Hc & _).
        rewrite Hnew3 in Hrow3. injection Hrow3 as <-. by exists newRow'.
      + destruct (Hkept _ _ Hold3) as [oldRow' Hold'].
        destruct (Htouched oldId oldRow' Hold') as (row3 & Hrow3 & Hr & Hc & Hst).
        rewrite Hold3 in Hrow3. injection Hrow3 as <-. exists oldRow'.
        split; [done|]. split; [done|]. by apply Hst.
      + intros id row' Hidn Hido Hrow'.
        destruct (Htouched id row' Hrow') as (row3 & Hrow3 & Hr & Hc & _).
        rewrite Heq in Hrow3. rewrite !lookup_insert_ne in Hrow3 by done.
        by exists row3.
Qed.

(** A revival source that is not archived when the transaction runs gets
    no link, on either side. *)
Lemma applyAssignment_link_needs_archived (now : Z) (newId : string)
    (pending : PendingMessage) (decision : AssignmentDecision) (oldId : string)
    (s s' : Store) (applied : Applied) :
  applyAssignment now newId pending decision (Some oldId) s = Committed (s', applied) →
  (∀ oldRow, threads s !! oldId = Some oldRow → thr_state oldRow ≠ archived) →
  ap_revivalLink applied = None.
Proof.
  intros Hrun Hnot. apply applyAssignment_link_atomic in Hrun. unfold linkWritten in Hrun.
  destruct (ap_revivalLink applied) as [[old new]|]; [|done].
  destruct Hrun as (_ & [= <-] & _ & (oldRow & Hold & Harch) & _).
  exfalso. by apply (Hnot oldRow).
Qed.

(** ** A merge that commits on a store it has not read

    The merge tick decides on the rows it has read, and its transaction
    checks the state of the source only: the update of the target
    ([WHERE id = $1]) sets [state = 'active'] whatever the state is by then.
    When the target has been archived and revived between the read and the
    transaction, the merge reopens a superseded row that is continued in
    another; the lifecycle pass archives it again, and a second revival
    overwrites its [continued_in_thread_id]. *)

(** C6. The schedule [raceEvents] is a run of the engine from the empty
    tables, and the store it ends in has a revival link with one half only:
    thread [N] revives [T], and [T] is continued in [N2].  On the way: the
    merge tick reads [S] and [T], both cooling, and decides to merge [S]
    into [T]; before its transaction runs, [T] is archived and revived by
    [N] (it is superseded, the link has both halves); the merge transaction
    commits all the same and leaves [T] active, still continued in [N];
    [T] is archived again and revived by [N2]. *)
Theorem revival_links_unpaired_by_late_merge :
  (merging <$> raceAt (raceSetup ++ raceRead) = Some (Some ("S", "T"))
   ∧ linkColumns (raceSetup ++ raceRead) "S" = Some (cooling, None, None)
   ∧ linkColumns (raceSetup ++ raceRead) "T" = Some (cooling, None, None))
  ∧ (linkColumns (raceSetup ++ raceRead ++ raceMeanwhile) "S" = Some (active, None, None)
     ∧ linkColumns (raceSetup ++ raceRead ++ raceMeanwhile) "T"
       = Some (superseded, None, Some "N")
     ∧ linkColumns (raceSetup ++ raceRead ++ raceMeanwhile) "N"
       = Some (active, Some "T", None))
  ∧ (linkColumns (raceSetup ++ raceRead ++ raceMeanwhile ++ raceCommit) "S"
     = Some (superseded, None, None)
     ∧ linkColumns (raceSetup ++ raceRead ++ raceMeanwhile ++ raceCommit) "T"
       = Some (active, None, Some "N"))
  ∧ (linkColumns raceEvents "T" = Some (superseded, None, Some "N2")
     ∧ linkColumns raceEvents "N" = Some (archived, Some "T", None)
     ∧ linkColumns raceEvents "N2" = Some (active, Some "T", None))
  ∧ ∃ e, raceAt raceEvents = Some e
         ∧ reachable defaultConfig e
         ∧ ¬ linksPaired (store e).
Proof.
  split; [by vm_compute|]. split; [by vm_compute|]. split; [by vm_compute|].
  split; [by vm_compute|].
  destruct (raceAt raceEvents) as [e|] eqn:Hrun; [|by vm_compute in Hrun].
  exists e. split; [done|]. split.
  - by apply (reachable_execAll defaultConfig raceEvents (idleEngine emptyStore));
      [apply reachable_start|].
  - intros Hpaired. vm_compute in Hrun. injection Hrun as <-.
    destruct (Hpaired "N" "T" _ _ eq_refl eq_refl) as [Hlink _].
    by specialize (Hlink eq_refl).
Qed.

(** ** The properties at sample inputs *)

Lemma serial_runAll (cfg : Config) (ops : list Op) (s : Store) :
  serial cfg s → serial cfg (runAll cfg ops s).
Proof.
  revert s. induction ops as [|op ops IH]; intros s Hs; [done|].
  apply IH. by apply serial_run.
Qed.

Lemma normalizeAssignmentDecision_witness :
  normalizeAssignmentDecision aiAssigns demoCandidates "Title" = aiAssigns
  ∧ normalizeAssignmentDecision aiGuesses demoCandidates "Title" =
      {| dec_action := create; dec_threadId := None; dec_title := Some "Title";
         dec_confidence := Some (4 # 10)%Q;
         dec_reason := "No clear active thread match." |}.
Proof.
  split.
  - destruct (normalizeAssignmentDecision_spec aiAssigns demoCandidates "Title")
      as (Hkeep & _ & _).
    apply Hkeep. split; [done|]. split.
    + exists "deploy". split; [done|]. split; [done|]. set_solver.
    + exists (9 # 10)%Q. split; [done|]. by vm_compute.
  - destruct (normalizeAssignmentDecision_spec aiGuesses demoCandidates "Title")
      as (_ & Hcoerce & _).
    apply Hcoerce. intros (_ & _ & (c & [= <-] & Hc)). by vm_compute in Hc.
Defined.

Lemma mergeVerdict_witness :
  v_sourceThreadId (mergeVerdict (AIAnswer aiReverses) pairAB) = "b"
  ∧ v_targetThreadId (mergeVerdict (AIAnswer aiReverses) pairAB) = "a"
  ∧ v_sourceThreadId (mergeVerdict (AIAnswer aiNamesStrangers) pairAB) = "a"
  ∧ v_targetThreadId (mergeVerdict (AIAnswer aiNamesStrangers) pairAB) = "b".
Proof.
  destruct (mergeVerdict_spec pairAB) as [Hai _].
  destruct (Hai aiReverses) as (Hin & _ & _).
  destruct (Hai aiNamesStrangers) as (_ & Hout & _).
  destruct Hin as [-> ->]; [by vm_compute|].
  destruct Hout as [-> ->]; [|done].
  intros [Hx _]. by vm_compute in Hx.
Defined.

Example serial_links_paired_revived :
  serial defaultConfig revivedStore
  ∧ ∃ X Y, threads revivedStore !! "t3" = Some X
           ∧ threads revivedStore !! "t1" = Some Y
           ∧ thr_revives_thread_id X = Some "t1"
           ∧ thr_continued_in_thread_id Y = Some "t3"
           ∧ thr_state Y = superseded.
Proof.
  assert (serial defaultConfig revivedStore) as Hreach.
  { apply serial_runAll. apply serial_empty. }
  split; [done|].
  destruct (threads revivedStore !! "t3") as [X|] eqn:HX; [|by vm_compute in HX].
  destruct (threads revivedStore !! "t1") as [Y|] eqn:HY; [|by vm_compute in HY].
  exists X, Y. split; [done|]. split; [done|].
  assert (thr_revives_thread_id X = Some "t1") as Hr.
  { vm_compute in HX. by injection HX as <-. }
  split; [done|]. split.
  - by apply (serial_links_paired defaultConfig revivedStore Hreach "t3" "t1" X Y HX HY).
  - vm_compute in HY. by injection HY as <-.
Qed.

Lemma assignment_status_monotone_witness :
  reachable defaultConfig postedEngine
  ∧ statusOf (store postedEngine) "m1" = Some pending
  ∧ ∃ e', exec defaultConfig Claim postedEngine = Some e'
          ∧ heldId e' = Some "m1"
          ∧ ∃ st', statusOf (store e') "m1" = Some st'
                   ∧ (st' = pending ∨ advances pending st').
Proof.
  assert (reachable defaultConfig postedEngine) as Hreach.
  { by apply (reachable_event defaultConfig (Post "m1" "ann" "Hello world" (seconds 1))
                (idleEngine emptyStore)); [apply reachable_start|]. }
  split; [done|]. split; [by vm_compute|].
  destruct (exec defaultConfig Claim postedEngine) as [e'|] eqn:Hexec;
    [|by vm_compute in Hexec].
  exists e'. split; [done|]. split.
  - vm_compute in Hexec. by injection Hexec as <-.
  - destruct (assignment_status_monotone defaultConfig) as [Hstep _].
    apply (Hstep postedEngine Claim e' "m1" pending Hreach Hexec). by vm_compute.
Defined.

Lemma lifecycleTick_second_pass_witness :
  let once := lifecycleTick defaultConfig (hours 96) (hours 96) mergeStore in
  lifecycleTick defaultConfig (hours 96 + seconds 10) (hours 96 + seconds 10) once = once
  ∧ thr_state <$> threads once !! "a" = Some archived.
Proof.
  split; [|by vm_compute].
  destruct (lifecycleTick_second_pass defaultConfig (hours 96) (hours 96)
              (hours 96 + seconds 10) (hours 96 + seconds 10) mergeStore)
    as [Hsettled _].
  apply Hsettled. intros id row last Hrow Hlast.
  assert (last = seconds 10 ∨ last = seconds 5) as Hcases.
  { unfold mergeStore in Hrow. simpl in Hrow.
    destruct (decide (id = "a")) as [->|Ha].
    - rewrite lookup_insert_eq in Hrow. injection Hrow as <-. simpl in Hlast. left. congruence.
    - rewrite lookup_insert_ne in Hrow by done.
      apply lookup_singleton_Some in Hrow as [_ <-]. simpl in Hlast. right. congruence. }
  unfold seconds, hours, minutes in *. simpl. lia.
Defined.

(** ** The scenarios of the specification *)

(** Empty store, "Hello world" arrives: one thread, titled "Hello world",
    active, the message assigned to it. *)
Example scenario_first_thread :
  let s := runAll defaultConfig helloOps emptyStore in
  dom (threads s) = {[ "t1" ]}
  ∧ (thr_title <$> threads s !! "t1") = Some "Hello world"
  ∧ (thr_state <$> threads s !! "t1") = Some active
  ∧ (thr_last_message_at <$> threads s !! "t1") = Some (Some (seconds 1))
  ∧ (msg_assignment_status <$> messages s !! "m1") = Some assigned
  ∧ (msg_thread_id <$> messages s !! "m1") = Some (Some "t1").
Proof. by vm_compute. Qed.

(** A thread about the deploy pipeline; "the deploy pipeline is still
    broken" arrives, no provider: assigned to that thread, whose
    [last_message_at] moves and which stays active. *)
Example scenario_heuristic_assign :
  let s0 := runAll defaultConfig
              [ OpPost "m1" "ann" "deploy pipeline broken" (seconds 1);
                OpAssign (heuristicEnv (seconds 5) "A") ] emptyStore in
  let s1 := runAll defaultConfig
              [ OpPost "m2" "bob" "the deploy pipeline is still broken" (seconds 50);
                OpAssign (heuristicEnv (seconds 60) "B") ] s0 in
  (msg_thread_id <$> messages s1 !! "m2") = Some (Some "A")
  ∧ (msg_assignment_status <$> messages s1 !! "m2") = Some assigned
  ∧ (thr_last_message_at <$> threads s1 !! "A") = Some (Some (seconds 50))
  ∧ (thr_state <$> threads s1 !! "A") = Some active
  ∧ dom (threads s1) = {[ "A" ]}.
Proof. by vm_compute. Qed.

(** Idle past the first threshold: cooling.  Idle past the second:
    archived, with [archived_at] set once and stable on later ticks. *)
Example scenario_lifecycle :
  let s0 := runAll defaultConfig helloOps emptyStore in
  let s1 := lifecycleTick defaultConfig (minutes 31) (minutes 31) s0 in
  let s2 := lifecycleTick defaultConfig (hours 73) (hours 73) s1 in
  let s3 := lifecycleTick defaultConfig (hours 80) (hours 80) s2 in
  (thr_state <$> threads s1 !! "t1") = Some cooling
  ∧ (thr_state <$> threads s2 !! "t1") = Some archived
  ∧ (thr_archived_at <$> threads s2 !! "t1") = Some (Some (hours 73))
  ∧ s3 = s2.
Proof. by vm_compute. Qed.

(** Two active threads with the same words, no provider: the merge tick
    supersedes the one with the older [last_message_at] and moves its
    messages to the other, which is active. *)
Example scenario_merge :
  let s := mergeTick AIDisabled (seconds 20) mergeStore in
  (thr_state <$> threads s !! "b") = Some superseded
  ∧ (thr_merged_into_thread_id <$> threads s !! "b") = Some (Some "a")
  ∧ (thr_state <$> threads s !! "a") = Some active
  ∧ (msg_thread_id <$> messages s !! "m2") = Some (Some "a")
  ∧ (thr_last_message_at <$> threads s !! "a") = Some (Some (seconds 10)).
Proof. by vm_compute. Qed.

(** An archived thread, a new message that scores at least 0.31 against
    it: a new thread is created that revives it, and it is superseded and
    continued in the new one. *)
Example scenario_revival :
  (thr_state <$> threads (runAll defaultConfig archivingOps emptyStore) !! "t1")
    = Some archived
  ∧ (thr_revives_thread_id <$> threads revivedStore !! "t3") = Some (Some "t1")
  ∧ (thr_state <$> threads revivedStore !! "t3") = Some active
  ∧ (thr_state <$> threads revivedStore !! "t1") = Some superseded
  ∧ (thr_continued_in_thread_id <$> threads revivedStore !! "t1") = Some (Some "t3")
  ∧ (msg_thread_id <$> messages revivedStore !! "m3") = Some (Some "t3").
Proof. by vm_compute. Qed.

(** * Further properties of the code *)

(** ** The range of the score *)

(** X1. [jaccard] is the size of the intersection over the size of the
    union, and 0 when a set is empty.  It lies between 0 and 1, it does not
    depend on the order of its arguments, it is 1 exactly for two equal
    sets that are not empty, and 0 exactly for two sets with no common
    token. *)
Theorem jaccard_spec (a b : gset string) :
  (a = ∅ ∨ b = ∅ → jaccard a b = 0%Q)
  ∧ (a ≠ ∅ → b ≠ ∅ →
     jaccard a b = (Z.of_nat (size (a ∩ b)) # Pos.of_nat (size (a ∪ b)))%Q)
  ∧ (0 <= jaccard a b <= 1)%Q
  ∧ (jaccard a b == jaccard b a)%Q
  ∧ ((jaccard a b == 1)%Q ↔ a = b ∧ a ≠ ∅)
  ∧ ((jaccard a b == 0)%Q ↔ a ## b).
Proof.
  assert (∀ x y : gset string, x = ∅ ∨ y = ∅ → jaccard x y = 0%Q) as Hempty.
  { intros x y [-> | ->]; unfold jaccard; [done|].
    rewrite size_empty. by rewrite orb_true_r. }
  split; [apply Hempty|]. split; [intros Ha Hb; by apply jaccard_ratio|].
  destruct (decide (a = ∅)) as [Ha|Ha].
  { rewrite !Hempty by auto. subst a.
    split; [done|]. split; [done|]. split; [|split; [intros _; apply disjoint_empty_l|done]].
    split; [done|]. by intros [_ ?]. }
  destruct (decide (b = ∅)) as [Hb|Hb].
  { rewrite !Hempty by auto. subst b.
    split; [done|]. split; [done|]. split; [|split; [intros _; apply disjoint_empty_r|done]].
    split; [done|]. intros [-> ?]. done. }
  destruct (jaccard_ratio a b Ha Hb) as [-> Hpos].
  destruct (jaccard_ratio b a Hb Ha) as [-> _].
  destruct (size_union_intersection a b) as (Hunion & Hla & Hlb).
  rewrite (comm_L (∩) b a), (comm_L (∪) b a).
  assert (∀ n d : nat, (0 < d)%nat →
            ((Z.of_nat n # Pos.of_nat d) == 1 ↔ n = d)%Q) as Hone.
  { intros n d Hd. unfold Qeq. simpl. rewrite Z.mul_1_r, Z.mul_1_l.
    rewrite <- (Nat2Z.id d) at 2. rewrite <- positive_nat_Z, Nat2Pos.id by lia. lia. }
  assert (∀ n d : nat, ((Z.of_nat n # Pos.of_nat d) == 0 ↔ n = 0%nat)%Q) as Hzero.
  { intros n d. unfold Qeq. simpl. lia. }
  split; [|split; [done|split]].
  - split.
    + unfold Qle. simpl. lia.
    + unfold Qle. simpl. rewrite Z.mul_1_r, Z.mul_1_l.
      rewrite <- positive_nat_Z, Nat2Pos.id by lia. lia.
  - rewrite Hone by done. split.
    + intros Hsize. split; [|done].
      assert (a ∩ b = a ∪ b) as Heq.
      { apply (set_subseteq_size_eq (a ∩ b) (a ∪ b)); [|lia].
        intros x [Hx _]%elem_of_intersection. apply elem_of_union. by left. }
      apply set_eq. intros x. split; intros Hx.
      * assert (x ∈ a ∩ b) as [_ ?]%elem_of_intersection; [|done].
        rewrite Heq. apply elem_of_union. by left.
      * assert (x ∈ a ∩ b) as [? _]%elem_of_intersection; [|done].
        rewrite Heq. apply elem_of_union. by right.
    + intros [<- _]. by rewrite (idemp_L (∩) a), (idemp_L (∪) a).
  - rewrite Hzero, size_empty_iff, disjoint_intersection_L. by unfold_leibniz.
Qed.

(** ** The characters of a token *)

Lemma all_chars_app (p : ascii -> bool) (s t : string) :
  all_chars p (s ++ t) = all_chars p s && all_chars p t.
Proof. induction s as [|c s IH]; simpl; [done|]. by rewrite IH, andb_assoc. Qed.

Lemma all_chars_weaken (p q : ascii -> bool) (s : string) :
  (∀ c, p c = true → q c = true) → all_chars p s = true → all_chars q s = true.
Proof.
  intros Hpq. induction s as [|c s IH]; simpl; [done|].
  intros [Hc Hs]%andb_true_iff. by rewrite (Hpq c Hc), IH.
Qed.

Lemma split_ws_from_chars (p : ascii -> bool) (s cur : string) (in_ws : bool) (w : string) :
  all_chars p cur = true →
  all_chars (fun c => is_space c || p c) s = true →
  w ∈ split_ws_from cur in_ws s →
  all_chars p w = true.
Proof.
  revert cur in_ws. induction s as [|c s IH]; intros cur in_ws Hcur Hs; simpl.
  - by intros ->%list_elem_of_singleton.
  - simpl in Hs. apply andb_true_iff in Hs as [Hc Hs].
    destruct (is_space c) eqn:Hsp.
    + destruct in_ws.
      * by apply IH.
      * intros [->|Hw]%elem_of_cons; [done|]. by apply (IH EmptyString true).
    + apply IH; [|done]. rewrite all_chars_app, Hcur. simpl. simpl in Hc. by rewrite Hc.
Qed.

Lemma blank_non_alnum_chars (s : string) :
  all_chars (fun c => is_space c || (is_lower c || is_digit c))
            (map_chars blank_non_alnum s) = true.
Proof.
  induction s as [|c s IH]; simpl; [done|]. rewrite IH, andb_true_r.
  unfold blank_non_alnum.
  destruct (is_lower c) eqn:Hl; simpl; [by rewrite Hl, orb_true_r|].
  destruct (is_digit c) eqn:Hd; simpl; [by rewrite Hl, Hd, orb_true_r|].
  destruct (is_space c) eqn:Hs; simpl; [by rewrite Hs|done].
Qed.

Lemma lower_upper (c : ascii) : lower (upper c) = lower c.
Proof. destruct c as [[] [] [] [] [] [] [] []]; reflexivity. Qed.

Lemma lower_lower (c : ascii) : lower (lower c) = lower c.
Proof. destruct c as [[] [] [] [] [] [] [] []]; reflexivity. Qed.

Lemma map_chars_ext (f g : ascii -> ascii) (s : string) :
  (∀ c, f c = g c) → map_chars f s = map_chars g s.
Proof. intros Hfg. induction s as [|c s IH]; simpl; [done|]. by rewrite IH, Hfg. Qed.

(** ** The fallback title *)

Lemma length_app (s t : string) :
  String.length (s ++ t) = (String.length s + String.length t)%nat.
Proof. induction s as [|c s IH]; simpl; [done|]. by rewrite IH. Qed.

Lemma trim_start_length (s : string) : (String.length (trim_start s) <= String.length s)%nat.
Proof. induction s as [|c s IH]; simpl; [done|]. destruct (is_space c); simpl; lia. Qed.

Lemma trim_end_length (s : string) : (String.length (trim_end s) <= String.length s)%nat.
Proof.
  induction s as [|c s IH]; simpl; [done|].
  destruct (trim_end s) as [|c' r]; [destruct (is_space c)|]; simpl in *; lia.
Qed.

Lemma trim_length (s : string) : (String.length (trim s) <= String.length s)%nat.
Proof.
  unfold trim. pose proof (trim_end_length (trim_start s)). pose proof (trim_start_length s).
  lia.
Qed.

Lemma slice_to_length (n : nat) (s : string) : (String.length (slice_to n s) <= n)%nat.
Proof.
  revert s. induction n as [|n IH]; intros [|c s]; simpl; try lia.
  specialize (IH s). lia.
Qed.

Lemma trim_start_chars (p : ascii -> bool) (s : string) :
  all_chars p s = true → all_chars p (trim_start s) = true.
Proof.
  induction s as [|c s IH]; simpl; [done|]. intros [Hc Hs]%andb_true_iff.
  destruct (is_space c); [by apply IH|]. simpl. by rewrite Hc, Hs.
Qed.

Lemma trim_end_chars (p : ascii -> bool) (s : string) :
  all_chars p s = true → all_chars p (trim_end s) = true.
Proof.
  induction s as [|c s IH]; simpl; [done|]. intros [Hc Hs]%andb_true_iff.
  specialize (IH Hs).
  destruct (trim_end s) as [|c' r]; [destruct (is_space c)|]; simpl in *; by rewrite ?Hc.
Qed.

Lemma trim_chars (p : ascii -> bool) (s : string) :
  all_chars p s = true → all_chars p (trim s) = true.
Proof. intros Hs. by apply trim_end_chars, trim_start_chars. Qed.

Lemma slice_to_chars (p : ascii -> bool) (n : nat) (s : string) :
  all_chars p s = true → all_chars p (slice_to n s) = true.
Proof.
  revert s. induction n as [|n IH]; intros [|c s]; simpl; try done.
  intros [Hc Hs]%andb_true_iff. by rewrite Hc, IH.
Qed.

Lemma filter_chars_chars (p : ascii -> bool) (s : string) :
  all_chars p (filter_chars p s) = true.
Proof.
  induction s as [|c s IH]; simpl; [done|].
  destruct (p c) eqn:Hc; simpl; by rewrite ?Hc.
Qed.

Lemma filter_chars_both (p q : ascii -> bool) (s : string) :
  all_chars q s = true → all_chars (fun c => p c && q c) (filter_chars p s) = true.
Proof.
  induction s as [|c s IH]; simpl; [done|]. intros [Hc Hs]%andb_true_iff.
  destruct (p c) eqn:Hp; simpl; [|by apply IH]. by rewrite Hp, Hc, IH.
Qed.

(** A string that starts with a character that is not white space. *)
Lemma trim_start_cases (s : string) :
  trim_start s = EmptyString
  ∨ ∃ c r, trim_start s = String c r ∧ is_space c = false.
Proof.
  induction s as [|c s IH]; simpl; [by left|].
  destruct (is_space c) eqn:Hc; [done|]. right. by exists c, s.
Qed.

Lemma trim_end_head (c : ascii) (r : string) :
  is_space c = false → ∃ r', trim_end (String c r) = String c r'.
Proof.
  intros Hc. simpl. destruct (trim_end r) as [|c' r'].
  - rewrite Hc. by eexists.
  - by eexists.
Qed.

Lemma trim_cases (s : string) :
  trim s = EmptyString ∨ ∃ c r, trim s = String c r ∧ is_space c = false.
Proof.
  unfold trim. destruct (trim_start_cases s) as [->|(c & r & -> & Hc)]; [by left|].
  right. destruct (trim_end_head c r Hc) as [r' ->]. by exists c, r'.
Qed.

Lemma trim_start_spaces (s : string) :
  all_chars is_space s = true → trim_start s = EmptyString.
Proof.
  induction s as [|c s IH]; simpl; [done|]. intros [-> Hs]%andb_true_iff. by apply IH.
Qed.

Lemma upper_head (c : ascii) :
  is_space c = false → is_space (upper c) = false ∧ is_lower (upper c) = false.
Proof. destruct c as [[] [] [] [] [] [] [] []]; by vm_compute. Qed.

Lemma upper_title_char (c : ascii) :
  (is_word c || is_space c || (code c =? 45)%nat) = true → title_char (upper c) = true.
Proof. destruct c as [[] [] [] [] [] [] [] []]; by vm_compute. Qed.

Lemma concat_chars (p : ascii -> bool) (sep : string) (l : list string) :
  all_chars p sep = true → Forall (fun w => all_chars p w = true) l →
  all_chars p (String.concat sep l) = true.
Proof.
  intros Hsep. induction 1 as [|w l Hw Hl IH]; simpl; [done|].
  destruct l as [|w' l']; [done|]. by rewrite !all_chars_app, Hw, Hsep, IH.
Qed.

(** X3. A title built from a message is never empty and never longer than
    96 characters; it starts with a character that is neither white space
    nor a lower-case letter; and it holds letters, digits, underscores,
    hyphens, white space and dots only. *)
Theorem buildTitle_shape (message : string) :
  (String.length (buildTitle message) <= 96)%nat
  ∧ (∃ c r, buildTitle message = String c r ∧ is_space c = false ∧ is_lower c = false)
  ∧ all_chars title_char (buildTitle message) = true.
Proof.
  unfold buildTitle.
  set (kept := fun c => is_word c || is_space c || (code c =? 45)%nat).
  set (joined := trim (filter_chars kept _)).
  assert (all_chars kept joined = true) as Hkept by apply trim_chars, filter_chars_chars.
  destruct (String.length joined =? 0)%nat eqn:Hlen.
  { split; [simpl; lia|]. split; [|done]. by eexists _, _. }
  destruct (trim_cases (filter_chars kept
              (String.concat " " (take 8 (split_ws (trim message))))))
    as [Hempty|(c & r & Hjoined & Hc)]; fold joined in Hempty || fold joined in Hjoined.
  { by rewrite Hempty in Hlen. }
  rewrite Hjoined in *. clear Hlen. simpl in Hkept. apply andb_true_iff in Hkept as [Hkc Hkr].
  destruct (upper_head c Hc) as [Hspace Hlower].
  assert (all_chars title_char (capitalize (String c r)) = true) as Hchars.
  { simpl. rewrite (upper_title_char c Hkc). simpl.
    apply (all_chars_weaken kept); [|done].
    intros x Hx. unfold title_char. fold (kept x). by rewrite Hx. }
  destruct (96 <? String.length (capitalize (String c r)))%nat eqn:Hlong.
  - split; [|split].
    + rewrite length_app. simpl String.length at 2.
      pose proof (trim_length (slice_to 93 (capitalize (String c r)))).
      pose proof (slice_to_length 93 (capitalize (String c r))). lia.
    + change (slice_to 93 (capitalize (String c r)))
        with (String (upper c) (slice_to 92 r)).
      unfold trim. cbn [trim_start]. rewrite Hspace.
      destruct (trim_end_head (upper c) (slice_to 92 r) Hspace) as [r' ->].
      by exists (upper c), (r' ++ "...").
    + rewrite all_chars_app. rewrite trim_chars; [done|]. by apply slice_to_chars.
  - apply Nat.ltb_ge in Hlong. split; [done|]. split; [|done].
    by exists (upper c), r.
Qed.

(** X4. A message without a letter, a digit, an underscore or a hyphen (an
    empty message, white space, punctuation) gets the title
    "Untitled discussion". *)
Theorem buildTitle_untitled (message : string) :
  all_chars (fun c => negb (is_word c || (code c =? 45)%nat)) message = true →
  buildTitle message = "Untitled discussion".
Proof.
  intros Hnone. unfold buildTitle.
  set (plain := fun c => negb (is_word c || (code c =? 45)%nat)).
  set (kept := fun c => is_word c || is_space c || (code c =? 45)%nat).
  assert (all_chars plain (String.concat " " (take 8 (split_ws (trim message)))) = true)
    as Hwords.
  { apply concat_chars; [done|]. apply Forall_forall. intros w Hw.
    apply subseteq_take in Hw.
    apply (split_ws_from_chars plain (trim message) EmptyString false); [done| |done].
    apply (all_chars_weaken plain); [intros c ->; apply orb_true_r|].
    by apply trim_chars. }
  apply (filter_chars_both kept) in Hwords.
  apply (all_chars_weaken _ is_space) in Hwords.
  - unfold trim at 1. rewrite (trim_start_spaces _ Hwords). done.
  - intros c. unfold kept, plain. destruct (is_word c), (is_space c), (code c =? 45)%nat; done.
Qed.

Lemma buildTitle_untitled_witness : buildTitle "  ?!  ...  " = "Untitled discussion".
Proof. apply buildTitle_untitled. by vm_compute. Defined.

(** ** The pair that the merge tick selects *)

Lemma orderedPairs_before (cs : list MergeCandidate) (a b : MergeCandidate) :
  (a, b) ∈ orderedPairs cs ↔ before cs a b.
Proof.
  induction cs as [|c cs IH]; simpl.
  - split; [by intros ?%elem_of_nil|]. by intros (i & j & _ & Hi & _).
  - rewrite elem_of_app, list_elem_of_fmap, IH. split.
    + intros [(second & [= -> ->] & Hin)|(i & j & Hij & Hi & Hj)].
      * apply list_elem_of_lookup in Hin as [j Hj].
        exists 0%nat, (S j). split; [lia|done].
      * exists (S i), (S j). split; [lia|done].
    + intros (i & j & Hij & Hi & Hj). destruct j as [|j]; [lia|]. simpl in Hj.
      destruct i as [|i]; simpl in Hi.
      * injection Hi as <-. left. exists b. split; [done|].
        apply list_elem_of_lookup. by exists j.
      * right. exists i, j. split; [lia|done].
Qed.

Lemma foldl_keepBestPair_max (l : list MergePair) (acc : option MergePair) :
  match foldl keepBestPair acc l with
  | Some b =>
      (acc = Some b ∨ b ∈ l)
      ∧ (∀ p, p ∈ l → (pair_score p <= pair_score b)%Q)
      ∧ (∀ a, acc = Some a → (pair_score a <= pair_score b)%Q)
  | None => acc = None ∧ l = []
  end.
Proof.
  revert acc. induction l as [|p l IH]; intros acc; simpl.
  - destruct acc as [a|]; [|done]. split; [by left|]. split.
    + by intros p ?%elem_of_nil.
    + intros ? [= <-]. apply Qle_refl.
  - specialize (IH (keepBestPair acc p)).
    destruct (foldl keepBestPair (keepBestPair acc p) l) as [b|].
    2: { destruct IH as [Hkept _]. unfold keepBestPair in Hkept.
         destruct acc as [a|]; [by destruct (Qgt_bool _ _)|done]. }
    destruct IH as (Hin & Hmax & Hacc).
    unfold keepBestPair in Hin, Hacc. destruct acc as [a|].
    + destruct (Qgt_bool (pair_score p) (pair_score a)) eqn:Hcmp.
      * apply Qgt_bool_iff in Hcmp. specialize (Hacc p eq_refl). split; [|split].
        -- right. destruct Hin as [[= <-]|Hin]; [by left|by right].
        -- intros q [->|Hq]%elem_of_cons; [done|by apply Hmax].
        -- intros ? [= <-]. apply Qlt_le_weak. by eapply Qlt_le_trans.
      * apply Qgt_bool_false in Hcmp. specialize (Hacc a eq_refl). split; [|split].
        -- destruct Hin as [Hin|Hin]; [by left|right; by right].
        -- intros q [->|Hq]%elem_of_cons; [by eapply Qle_trans|by apply Hmax].
        -- by intros ? [= <-].
    + specialize (Hacc p eq_refl). split; [|split].
      * right. destruct Hin as [[= <-]|Hin]; [by left|by right].
      * intros q [->|Hq]%elem_of_cons; [done|by apply Hmax].
      * done.
Qed.

(** X5. The pair that [findMergePair] returns holds two candidates of the
    list, the first standing before the second; its score is their
    similarity, it is at least 0.58, and no two candidates of the list
    score higher.  It returns nothing exactly when every two candidates
    score below 0.58 (in particular for fewer than two candidates). *)
Theorem findMergePair_spec (candidates : list MergeCandidate) :
  match findMergePair candidates with
  | Some best =>
      before candidates (pair_source best) (pair_target best)
      ∧ pair_score best = pairScore (pair_source best) (pair_target best)
      ∧ (58 # 100 <= pair_score best)%Q
      ∧ ∀ a b, before candidates a b → (pairScore a b <= pair_score best)%Q
  | None =>
      ∀ a b, before candidates a b → (pairScore a b < 58 # 100)%Q
  end.
Proof.
  unfold findMergePair.
  pose proof (foldl_keepBestPair_max (scorePair <$> orderedPairs candidates) None) as Hfold.
  destruct (foldl keepBestPair None (scorePair <$> orderedPairs candidates)) as [best|].
  - destruct Hfold as ([?|Hin] & Hmax & _); [done|].
    apply list_elem_of_fmap in Hin as ([x y] & -> & Hin).
    assert (∀ a b, before candidates a b →
              (pairScore a b <= pair_score (scorePair (x, y)))%Q) as Hbest.
    { intros a b Hab. apply orderedPairs_before in Hab.
      apply (Hmax (scorePair (a, b))), list_elem_of_fmap. by exists (a, b). }
    destruct (Qgt_bool (58 # 100) (pair_score (scorePair (x, y)))) eqn:Hcmp.
    + apply Qgt_bool_iff in Hcmp. intros a b Hab.
      eapply Qle_lt_trans; [by apply Hbest|done].
    + apply Qgt_bool_false in Hcmp. split; [by apply orderedPairs_before|done].
  - destruct Hfold as [_ Hnil]. intros a b Hab%orderedPairs_before.
    apply fmap_nil_inv in Hnil. rewrite Hnil in Hab. by apply elem_of_nil in Hab.
Qed.

(** ** The candidates that a query offers *)

#[global] Instance moreRecent_trans : Transitive moreRecent.
Proof. intros a b c. unfold moreRecent. lia. Qed.

#[global] Instance moreRecent_total : Total moreRecent.
Proof. intros a b. unfold moreRecent. lia. Qed.

#[global] Instance newerMessage_trans : Transitive newerMessage.
Proof. intros a b c. unfold newerMessage. lia. Qed.

#[global] Instance newerMessage_total : Total newerMessage.
Proof. intros a b. unfold newerMessage. lia. Qed.

(** What [LIMIT n] leaves out of a sorted list comes after all it keeps. *)
Lemma sorted_take_complete {A : Type} (R : relation A) (l : list A) (n : nat) (x : A) :
  StronglySorted R l → x ∈ l →
  x ∈ take n l ∨ (length (take n l) = n ∧ ∀ y, y ∈ take n l → R y x).
Proof.
  intros Hsorted Hx. rewrite <- (take_drop n l) in Hsorted, Hx.
  apply elem_of_app in Hx as [Hx|Hx]; [by left|]. right. split.
  - apply length_take_le. apply list_elem_of_lookup in Hx as [i Hi].
    apply lookup_lt_Some in Hi. rewrite length_drop in Hi. lia.
  - intros y Hy. by eapply StronglySorted_app_1_elem_of.
Qed.

Lemma sorted_take_lookup {A : Type} (R : relation A) (l : list A) (n i j : nat) (x y : A) :
  StronglySorted R l → (i < j)%nat →
  take n l !! i = Some x → take n l !! j = Some y → R x y.
Proof.
  intros Hsorted Hij Hi Hj.
  apply lookup_take_Some in Hi as [Hi _], Hj as [Hj _].
  rewrite <- (take_drop j l) in Hsorted, Hi, Hj.
  assert (length (take j l) = j) as Hlen.
  { apply length_take_le. apply lookup_lt_Some in Hj. rewrite take_drop in Hj. lia. }
  rewrite lookup_app_l in Hi by lia.
  rewrite lookup_app_r, Hlen, Nat.sub_diag in Hj by lia.
  eapply StronglySorted_app_1_elem_of; [done| |].
  - apply list_elem_of_lookup. by exists i.
  - apply list_elem_of_lookup. by exists 0%nat.
Qed.

Lemma selectThreads_spec (states : ThreadRecord -> bool) (limit : nat) (s : Store) :
  (length (selectThreads states limit s) <= limit)%nat
  ∧ NoDup (fst <$> selectThreads states limit s)
  ∧ (∀ i j x y, (i < j)%nat →
       selectThreads states limit s !! i = Some x →
       selectThreads states limit s !! j = Some y →
       recencyKey (snd y) ≤ recencyKey (snd x))
  ∧ (∀ id row, threads s !! id = Some row → states row = true →
       (id, row) ∈ selectThreads states limit s
       ∨ (length (selectThreads states limit s) = limit
          ∧ ∀ y, y ∈ selectThreads states limit s → recencyKey row ≤ recencyKey (snd y))).
Proof.
  unfold selectThreads.
  set (matching := filter (fun row => states (snd row) = true) (map_to_list (threads s))).
  pose proof (StronglySorted_merge_sort moreRecent matching) as Hsorted.
  split; [apply firstn_le_length|]. split; [|split].
  - eapply sublist_NoDup; [|apply fmap_sublist, sublist_take].
    rewrite merge_sort_Permutation.
    eapply sublist_NoDup; [apply (fin_maps.NoDup_fst_map_to_list (threads s))|].
    apply fmap_sublist, sublist_filter.
  - intros i j x y Hij Hi Hj.
    apply (sorted_take_lookup moreRecent _ limit i j x y Hsorted Hij Hi Hj).
  - intros id row Hrow Hst.
    apply (sorted_take_complete moreRecent _ limit (id, row) Hsorted).
    rewrite merge_sort_Permutation. apply list_elem_of_filter. split; [done|].
    by apply elem_of_map_to_list.
Qed.

(** X6. The candidates offered for a message are threads of the store that
    are active or cooling, each once, with the title, the state and the
    [last_message_at] of its row and the excerpt of its six latest
    messages; there are at most [MAX_ACTIVE_THREAD_CANDIDATES] of them, the
    most recent first; and an active or cooling thread is left out only
    when that many are offered, none of them less recent than it. *)
Theorem fetchActiveThreadCandidates_spec (cfg : Config) (s : Store) :
  let candidates := fetchActiveThreadCandidates cfg s in
  (length candidates <= MAX_ACTIVE_THREAD_CANDIDATES cfg)%nat
  ∧ NoDup (cand_id <$> candidates)
  ∧ (∀ c, c ∈ candidates →
       ∃ row, threads s !! cand_id c = Some row
              ∧ isLive row = true
              ∧ cand_title c = thr_title row
              ∧ cand_state c = thr_state row
              ∧ cand_last_message_at c = thr_last_message_at row
              ∧ cand_recent_excerpt c = recentExcerpt 6 (cand_id c) s)
  ∧ (∀ i j ci cj ki kj, (i < j)%nat →
       candidates !! i = Some ci → candidates !! j = Some cj →
       recencyOf s (cand_id ci) = Some ki → recencyOf s (cand_id cj) = Some kj →
       kj ≤ ki)
  ∧ (∀ id row, threads s !! id = Some row → isLive row = true →
       id ∈ cand_id <$> candidates
       ∨ (length candidates = MAX_ACTIVE_THREAD_CANDIDATES cfg
          ∧ ∀ c k, c ∈ candidates → recencyOf s (cand_id c) = Some k →
                   recencyKey row ≤ k)).
Proof.
  intros candidates. unfold candidates, fetchActiveThreadCandidates.
  destruct (selectThreads_spec isLive (MAX_ACTIVE_THREAD_CANDIDATES cfg) s)
    as (Hlen & Hnodup & Hsorted & Hcomplete).
  set (rows := selectThreads isLive (MAX_ACTIVE_THREAD_CANDIDATES cfg) s) in *.
  assert (∀ x, x ∈ rows → recencyOf s (x.1) = Some (recencyKey (x.2))) as Hkey.
  { intros [id row] Hx. apply selectThreads_elem in Hx as [Hrow _].
    unfold recencyOf. simpl. by rewrite Hrow. }
  split; [by rewrite length_fmap|]. split; [|split; [|split]].
  - by rewrite <- list_fmap_compose.
  - intros c Hc. apply list_elem_of_fmap in Hc as ([id row] & -> & Hin).
    apply selectThreads_elem in Hin as [Hrow Hlive]. by exists row.
  - intros i j ci cj ki kj Hij Hi Hj Hki Hkj.
    rewrite list_lookup_fmap in Hi, Hj.
    destruct (rows !! i) as [x|] eqn:Hx; [|done].
    destruct (rows !! j) as [y|] eqn:Hy; [|done].
    injection Hi as <-. injection Hj as <-. simpl in Hki, Hkj.
    rewrite Hkey in Hki by (by eapply list_elem_of_lookup_2).
    rewrite Hkey in Hkj by (by eapply list_elem_of_lookup_2).
    injection Hki as <-. injection Hkj as <-. by eapply Hsorted.
  - intros id row Hrow Hlive. rewrite length_fmap.
    destruct (Hcomplete id row Hrow Hlive) as [Hin|[Hfull Hleast]].
    + left. apply list_elem_of_fmap. exists (toCandidate 6 s (id, row)). split; [done|].
      apply list_elem_of_fmap. by exists (id, row).
    + right. split; [done|]. intros c k Hc Hk.
      apply list_elem_of_fmap in Hc as (y & -> & Hy). simpl in Hk.
      rewrite (Hkey y Hy) in Hk. injection Hk as <-. by apply Hleast.
Qed.

(** X7. The similarity of two texts does not depend on the case of their
    letters: a text in upper case scores as the text itself. *)
Theorem scoreSimilarity_ignores_case (textA textB : string) :
  tokenize (map_chars upper textA) = tokenize textA
  ∧ scoreSimilarity (map_chars upper textA) textB = scoreSimilarity textA textB
  ∧ scoreSimilarity textA (map_chars upper textB) = scoreSimilarity textA textB.
Proof.
  assert (∀ text, tokenize (map_chars upper text) = tokenize text) as Hcase.
  { intros text. unfold tokenize, toLowerCase.
    by rewrite (map_chars_compose lower upper), (map_chars_ext _ lower _ lower_upper). }
  unfold scoreSimilarity. by rewrite !Hcase.
Qed.

(** ** The queue of pending messages *)

(** X8. [claimPendingMessage] takes the oldest pending message: it returns
    the id, the author and the content of a message that is pending, and
    its time cut to whole milliseconds; no pending message is older, and
    it marks that message [in_progress] and changes nothing else.  It
    returns nothing exactly when no message is pending, and then it
    changes nothing. *)
Theorem claimPendingMessage_oldest (s : Store) :
  match claimPendingMessage s with
  | Some (claimed, s') =>
      (∃ m, messages s !! pend_id claimed = Some m
            ∧ msg_assignment_status m = pending
            ∧ pend_created_at claimed = asDate (msg_created_at m)
            ∧ pend_author claimed = msg_author m
            ∧ pend_content claimed = msg_content m
            ∧ messages s' !! pend_id claimed = Some (set_assignment_status in_progress m)
            ∧ ∀ id' m', messages s !! id' = Some m' → msg_assignment_status m' = pending →
                        msg_created_at m ≤ msg_created_at m')
      ∧ (∀ id, id ≠ pend_id claimed → messages s' !! id = messages s !! id)
      ∧ threads s' = threads s
  | None =>
      ∀ id m, messages s !! id = Some m → msg_assignment_status m ≠ pending
  end.
Proof.
  destruct (claimPendingMessage s) as [[claimed s']|] eqn:Hclaim;
    [|by apply claimPendingMessage_None].
  destruct (claimPendingMessage_Some _ _ _ Hclaim)
    as (m & Hm & Hst & Hat & Hcontent & -> & Holdest).
  split; [|split; [|done]].
  - exists m. split; [done|]. split; [done|]. split; [done|]. split.
    + revert Hclaim Hm. unfold claimPendingMessage. fold (pendingRows s).
      destruct (pendingRows s) as [|[id0 m0] rest] eqn:Hrows; simpl; [done|].
      intros [= <- _]. simpl. intros Hm.
      assert ((id0, m0) ∈ pendingRows s) as Hin by (rewrite Hrows; by left).
      apply elem_of_pendingRows in Hin as [Hm0 _]. congruence.
    + split; [done|]. split; [|done]. simpl. by rewrite lookup_alter_eq, Hm.
  - intros id Hne. simpl. by rewrite lookup_alter_ne.
Qed.

(** ** What the lifecycle pass leaves alone *)

(** X9. A lifecycle pass writes no message and deletes or adds no thread.
    It changes the state of a thread forwards only (active to cooling,
    cooling to archived, active to archived), and only of a thread that has
    a [last_message_at]; an archived or superseded thread, and a thread
    without messages, keeps its row as it is.  Title, creation time,
    [last_message_at], [superseded_at] and the three links of every thread
    are unchanged, and a thread that the pass archives has an
    [archived_at]. *)
Theorem lifecycleTick_forward (cfg : Config) (nowCool nowArchive : Z) (s : Store) :
  messages (lifecycleTick cfg nowCool nowArchive s) = messages s
  ∧ ∀ id,
      match threads s !! id, threads (lifecycleTick cfg nowCool nowArchive s) !! id with
      | Some row, Some row' =>
          thr_title row' = thr_title row
          ∧ thr_created_at row' = thr_created_at row
          ∧ thr_last_message_at row' = thr_last_message_at row
          ∧ thr_superseded_at row' = thr_superseded_at row
          ∧ thr_revives_thread_id row' = thr_revives_thread_id row
          ∧ thr_continued_in_thread_id row' = thr_continued_in_thread_id row
          ∧ thr_merged_into_thread_id row' = thr_merged_into_thread_id row
          ∧ (row' = row
             ∨ (thr_state row = active ∧ thr_state row' = cooling)
             ∨ (thr_state row = cooling ∧ thr_state row' = archived)
             ∨ (thr_state row = active ∧ thr_state row' = archived))
          ∧ (thr_state row = archived ∨ thr_state row = superseded
             ∨ thr_last_message_at row = None → row' = row)
          ∧ (thr_state row ≠ archived → thr_state row' = archived →
             thr_archived_at row' = Some (default nowArchive (thr_archived_at row)))
      | None, None => True
      | _, _ => False
      end.
Proof.
  split; [apply lifecycleTick_messages|]. intros id. rewrite lifecycleTick_lookup.
  destruct (threads s !! id) as [row|]; simpl; [|done].
  unfold lifecycleRow, idleBefore, coolRow, archiveRow.
  destruct row as [title state created updated last archivedAt supersededAt r c m]; simpl.
  destruct state, last as [t|]; simpl;
    repeat (match goal with |- context [if ?b then _ else _] => destruct b end; simpl);
    repeat split; try done; try tauto; intros; try congruence; try (by intuition congruence).
Qed.

(** ** The rows of [threads], one round trip at a time *)

Lemma executeMerge_threads (now : Z) (sourceThreadId targetThreadId : string) (s s' : Store) :
  executeMerge now sourceThreadId targetThreadId s = Committed s' →
  ∃ sourceRow lastMessageAt,
    threads s !! sourceThreadId = Some sourceRow
    ∧ isLive sourceRow = true
    ∧ is_Some (threads s !! targetThreadId)
    ∧ threads s' =
        alter (reopenRow now lastMessageAt) targetThreadId
          (<[sourceThreadId := supersedeIntoRow now targetThreadId sourceRow]> (threads s)).
Proof.
  unfold executeMerge.
  destruct (updateThreadById sourceThreadId isLive _ s) as [s1 rowCount] eqn:Hsource.
  unfold updateThreadById in Hsource.
  destruct (threads s !! sourceThreadId) as [sourceRow|] eqn:Hsrc;
    [|by injection Hsource as <- <-].
  destruct (isLive sourceRow) eqn:Hlive; [|by injection Hsource as <- <-].
  injection Hsource as <- <-. simpl.
  destruct (bool_decide (is_Some (threads s !! targetThreadId))) eqn:Htgt; simpl; [|done].
  apply bool_decide_eq_true in Htgt.
  match goal with |- context [updateThreadById targetThreadId ?g ?f ?st] =>
    pose proof (updateThreadById_always targetThreadId f st) as Hreopen;
    destruct (updateThreadById targetThreadId g f st) as [s3 n] end.
  intros [= <-]. simpl in Hreopen. eexists sourceRow, _. by rewrite Hreopen.
Qed.

Lemma rowAfter_same (ths ths' : gmap string ThreadRecord) (target : option string)
    (id : string) :
  ths' !! id = ths !! id → rowAfter ths ths' target id.
Proof. unfold rowAfter. intros ->. by destruct (ths !! id). Qed.

Lemma rowAfter_guarded (ths ths' : gmap string ThreadRecord) (target : option string)
    (id : string) (guard : ThreadRecord -> bool) (set : ThreadRecord -> ThreadRecord) :
  ths' !! id = (fun row => if guard row then set row else row) <$> ths !! id →
  (∀ row, guard row = true → rowWrite ths' target id row (set row)) →
  rowAfter ths ths' target id.
Proof.
  unfold rowAfter. intros -> Hset. destruct (ths !! id) as [row|]; simpl; [|done].
  destruct (guard row) eqn:Hguard; [|done]. by apply rtc_once, Hset.
Qed.

(** The rows after an event, row by row. *)
Lemma exec_rows (cfg : Config) (ev : Event) (e e' : Engine) :
  mergingDistinct e → exec cfg ev e = Some e' →
  ∀ id, rowAfter (threads (store e)) (threads (store e')) (snd <$> merging e) id.
Proof.
  intros Hdistinct Hexec id.
  destruct ev as [mid author content now| |ai|ai|now newId| |now|now|ai|now]; simpl in Hexec.
  - injection Hexec as <-. apply rowAfter_same. simpl. unfold postMessage.
    by destruct (messages (store e) !! mid).
  - destruct (assigning e); [done|].
    destruct (claimPendingMessage (store e)) as [[p s1]|] eqn:Hclaim; [|done].
    injection Hexec as <-. apply rowAfter_same. simpl.
    by rewrite (claimPendingMessage_threads _ _ _ Hclaim).
  - destruct (assigning e) as [[p|p d|p d r]|]; try done.
    injection Hexec as <-. by apply rowAfter_same.
  - destruct (assigning e) as [[p|p d|p d r]|]; try done.
    injection Hexec as <-. by apply rowAfter_same.
  - destruct (assigning e) as [[p|p d|p d r]|]; try done.
    injection Hexec as <-. simpl.
    destruct (applyAssignment now newId p d r (store e)) as [[s2 applied]|why] eqn:Hrun;
      [|by apply rowAfter_same].
    apply applyAssignment_threads in Hrun as (s3 & threadId & Hprovide & Htid & Htouch).
    apply present_Some_inv in Htid as [-> _].
    set (tid := ap_threadId applied) in *.
    assert (∀ j, j ≠ tid → threads s2 !! j = threads s3 !! j) as Hother.
    { intros j Hj. by rewrite Htouch, lookup_alter_ne. }
    assert (threads s2 !! tid = touchRow now (pend_created_at p) <$> threads s3 !! tid)
      as Hthis.
    { by rewrite Htouch, lookup_alter_eq. }
    apply provideThread_cases in Hprovide
      as [(_ & _ & Heq)
         |(_ & [= Hnew] & Hfresh & [(_ & _ & Heq)
            |(oldId & oldRow & _ & _ & Hne & Hold & Harch & Heq)])].
    + unfold rowAfter. destruct (decide (id = tid)) as [->|Hid].
      * rewrite Hthis, Heq. destruct (threads (store e) !! tid); simpl; [|done].
        apply rtc_once, write_touch.
      * rewrite (Hother id Hid), Heq. by destruct (threads (store e) !! id).
    + unfold rowAfter. destruct (decide (id = tid)) as [->|Hid].
      * rewrite Hthis, Heq, Hnew, lookup_insert_eq, Hfresh. simpl.
        eexists _, _, _. apply rtc_once, write_touch.
      * rewrite (Hother id Hid), Heq, lookup_insert_ne by congruence.
        by destruct (threads (store e) !! id).
    + assert (is_Some (threads s2 !! oldId)) as HoldAfter.
      { rewrite (Hother oldId) by congruence.
        rewrite Heq, lookup_insert_ne, lookup_insert_eq by done. by eexists. }
      assert (is_Some (threads s2 !! newId)) as HnewAfter.
      { rewrite <- Hnew, Hthis, Heq, Hnew, lookup_insert_eq. by eexists. }
      unfold rowAfter. destruct (decide (id = tid)) as [->|Hid].
      * rewrite Hthis, Heq, Hnew, lookup_insert_eq, Hfresh. simpl.
        eexists _, _, _. eapply rtc_l; [|apply rtc_once, write_touch].
        apply write_revives; [congruence|done].
      * rewrite (Hother id Hid), Heq, lookup_insert_ne by congruence.
        destruct (decide (id = oldId)) as [->|Hido].
        -- rewrite lookup_insert_eq, Hold. apply rtc_once.
           apply write_continued; [done|congruence|done].
        -- rewrite !lookup_insert_ne by congruence.
           by destruct (threads (store e) !! id).
  - destruct (assigning e); [|done]. injection Hexec as <-. by apply rowAfter_same.
  - injection Hexec as <-.
    apply (rowAfter_guarded _ _ _ _
             (fun t => bool_decide (thr_state t = active)
                       && idleBefore (now - minutes (ACTIVE_TO_COOLING_MINUTES cfg)) t)
             (coolRow now)).
    + simpl. by rewrite lookup_fmap.
    + intros row [Hst Hidle]%andb_true_iff. apply bool_decide_eq_true in Hst.
      apply write_cool; [done|]. unfold idleBefore in Hidle.
      by destruct (thr_last_message_at row).
  - injection Hexec as <-.
    apply (rowAfter_guarded _ _ _ _
             (fun t => bool_decide (thr_state t = cooling)
                       && idleBefore (now - hours (COOLING_TO_ARCHIVED_HOURS cfg)) t)
             (archiveRow now)).
    + simpl. by rewrite lookup_fmap.
    + intros row [Hst Hidle]%andb_true_iff. apply bool_decide_eq_true in Hst.
      apply write_archive; [done|]. unfold idleBefore in Hidle.
      by destruct (thr_last_message_at row).
  - destruct (length _ <? 2)%nat; [done|]. destruct (merging e); [done|].
    destruct (findMergePair _) as [best|]; [|done].
    destruct (resolveMerge ai best); [|done].
    injection Hexec as <-. by apply rowAfter_same.
  - destruct (merging e) as [[sourceThreadId targetThreadId]|] eqn:Hmerging; [|done].
    injection Hexec as <-. simpl.
    destruct (executeMerge now sourceThreadId targetThreadId (store e)) as [s2|why] eqn:Hrun;
      [|by apply rowAfter_same].
    specialize (Hdistinct _ _ Hmerging).
    apply executeMerge_threads in Hrun
      as (sourceRow & lastMessageAt & Hsrc & Hlive & [targetRow Htgt] & Heq).
    unfold rowAfter. rewrite Heq.
    destruct (decide (id = targetThreadId)) as [->|Hidt].
    + rewrite lookup_alter_eq, lookup_insert_ne, Htgt by done. simpl.
      by apply rtc_once, write_reopen.
    + rewrite lookup_alter_ne by done.
      destruct (decide (id = sourceThreadId)) as [->|Hids].
      * rewrite lookup_insert_eq, Hsrc. apply rtc_once.
        apply write_superseded; [done|done|done|].
        rewrite lookup_alter_eq, lookup_insert_ne, Htgt by done. by eexists.
      * rewrite lookup_insert_ne by done. by destruct (threads (store e) !! id).
Qed.

Lemma exec_mergingDistinct (cfg : Config) (ev : Event) (e e' : Engine) :
  mergingDistinct e → exec cfg ev e = Some e' → mergingDistinct e'.
Proof.
  intros Hdistinct Hexec.
  destruct ev as [mid author content now| |ai|ai|now newId| |now|now|ai|now]; simpl in Hexec.
  - by injection Hexec as <-.
  - destruct (assigning e); [done|].
    destruct (claimPendingMessage (store e)) as [[p s1]|]; [|done]. by injection Hexec as <-.
  - destruct (assigning e) as [[p|p d|p d r]|]; try done. by injection Hexec as <-.
  - destruct (assigning e) as [[p|p d|p d r]|]; try done. by injection Hexec as <-.
  - destruct (assigning e) as [[p|p d|p d r]|]; try done. by injection Hexec as <-.
  - destruct (assigning e); [|done]. by injection Hexec as <-.
  - by injection Hexec as <-.
  - by injection Hexec as <-.
  - destruct (length _ <? 2)%nat; [done|]. destruct (merging e); [done|].
    destruct (findMergePair _) as [best|]; [|done].
    destruct (resolveMerge ai best) as [[src tgt]|] eqn:Hres; [|done].
    injection Hexec as <-. intros src' tgt' [= <- <-].
    by apply resolveMerge_distinct in Hres as [? _].
  - destruct (merging e) as [[sourceThreadId targetThreadId]|]; [|done].
    injection Hexec as <-. by intros ? ?.
Qed.

Lemma reachable_mergingDistinct (cfg : Config) (e : Engine) :
  reachable cfg e → mergingDistinct e.
Proof.
  induction 1 as [|ev e e' _ IH Hexec]; [by intros ? ?|]. by eapply exec_mergingDistinct.
Qed.

(** ** The rows of [messages], one round trip at a time *)

Lemma messageAfter_same (e e' : Engine) (id : string) :
  messages (store e') !! id = messages (store e) !! id → messageAfter e e' id.
Proof. unfold messageAfter. intros ->. destruct (messages (store e) !! id); [by left|done]. Qed.

Lemma messageAfter_alter (e e' : Engine) (id id0 : string)
    (set : MessageRecord -> MessageRecord) :
  messages (store e') = alter set id0 (messages (store e)) →
  (∀ m, messages (store e) !! id0 = Some m → messageWrite e e' id0 m (set m)) →
  messageAfter e e' id.
Proof.
  intros Heq Hset. unfold messageAfter. rewrite Heq.
  destruct (decide (id = id0)) as [->|Hne].
  - rewrite lookup_alter_eq. destruct (messages (store e) !! id0) as [m|]; simpl; [|done].
    right. by apply Hset.
  - rewrite lookup_alter_ne by done. destruct (messages (store e) !! id); [by left|done].
Qed.

(** The messages after an event, row by row. *)
Lemma exec_messages (cfg : Config) (ev : Event) (e e' : Engine) :
  exec cfg ev e = Some e' → ∀ id, messageAfter e e' id.
Proof.
  intros Hexec id.
  destruct ev as [mid author content now| |ai|ai|now newId| |now|now|ai|now]; simpl in Hexec.
  - injection Hexec as <-. unfold messageAfter. simpl. unfold postMessage.
    destruct (messages (store e) !! mid) eqn:Hold.
    { destruct (messages (store e) !! id); [by left|done]. }
    simpl. destruct (decide (id = mid)) as [->|Hne].
    + by rewrite lookup_insert_eq, Hold.
    + rewrite lookup_insert_ne by done. destruct (messages (store e) !! id); [by left|done].
  - destruct (assigning e) eqn:Ha; [done|].
    destruct (claimPendingMessage (store e)) as [[p s1]|] eqn:Hclaim; [|done].
    injection Hexec as <-.
    destruct (claimPendingMessage_Some _ _ _ Hclaim) as (m & Hm & Hst & _ & _ & -> & _).
    apply (messageAfter_alter _ _ _ (pend_id p) (set_assignment_status in_progress));
      [done|].
    intros m' Hm'. apply write_claim; [congruence| |done]. unfold heldId. by rewrite Ha.
  - destruct (assigning e) as [[p|p d|p d r]|]; try done.
    injection Hexec as <-. by apply messageAfter_same.
  - destruct (assigning e) as [[p|p d|p d r]|]; try done.
    injection Hexec as <-. by apply messageAfter_same.
  - destruct (assigning e) as [[p|p d|p d r]|] eqn:Ha; try done.
    injection Hexec as <-.
    destruct (applyAssignment now newId p d r (store e)) as [[s2 applied]|why] eqn:Hrun.
    + eapply messageAfter_alter; [by apply (applyAssignment_messages _ _ _ _ _ _ _ _ Hrun)|].
      intros m Hm. apply write_assigned; [unfold heldId; by rewrite Ha|done|]. simpl.
      eapply applyAssignment_thread_exists; [done|by eexists].
    + eapply messageAfter_alter; [done|]. simpl.
      intros m Hm. apply write_failed; [unfold heldId; by rewrite Ha|done].
  - destruct (assigning e) as [a|] eqn:Ha; [|done]. injection Hexec as <-.
    eapply messageAfter_alter; [done|]. simpl.
    intros m Hm. apply write_failed; [unfold heldId; by rewrite Ha|done].
  - injection Hexec as <-. by apply messageAfter_same.
  - injection Hexec as <-. by apply messageAfter_same.
  - destruct (length _ <? 2)%nat; [done|]. destruct (merging e); [done|].
    destruct (findMergePair _) as [best|]; [|done].
    destruct (resolveMerge ai best); [|done].
    injection Hexec as <-. by apply messageAfter_same.
  - destruct (merging e) as [[sourceThreadId targetThreadId]|]; [|done].
    injection Hexec as <-.
    destruct (executeMerge now sourceThreadId targetThreadId (store e)) as [s2|why] eqn:Hrun;
      [|by apply messageAfter_same].
    pose proof (executeMerge_messages _ _ _ _ _ Hrun) as Hmessages.
    apply executeMerge_threads in Hrun as (sourceRow & last & _ & _ & [targetRow Htgt] & Heq).
    unfold messageAfter. simpl. rewrite Hmessages, lookup_fmap.
    destruct (messages (store e) !! id) as [m|]; simpl; [|done].
    destruct (bool_decide (msg_thread_id m = Some sourceThreadId)) eqn:Hsrc; [|by left].
    apply bool_decide_eq_true in Hsrc. right. apply (write_moved _ _ _ sourceThreadId); [done|].
    simpl. rewrite Heq.
    destruct (decide (sourceThreadId = targetThreadId)) as [->|Hne].
    + rewrite lookup_alter_eq, lookup_insert_eq. by eexists.
    + rewrite lookup_alter_eq, lookup_insert_ne, Htgt by done. by eexists.
Qed.

(** ** What holds of every row, whatever the order of the round trips *)

Lemma rowWrite_keeps (ths' : gmap string ThreadRecord) (target : option string) (id : string)
    (row row' : ThreadRecord) :
  rtc (rowWrite ths' target id) row row' →
  thr_title row' = thr_title row ∧ thr_created_at row' = thr_created_at row.
Proof.
  induction 1 as [row|row mid row' Hwrite _ [IHt IHc]]; [done|].
  rewrite IHt, IHc. by destruct Hwrite.
Qed.

Lemma exec_keeps_rows (cfg : Config) (ev : Event) (e e' : Engine) :
  mergingDistinct e → exec cfg ev e = Some e' →
  (∀ id row, threads (store e) !! id = Some row →
     ∃ row', threads (store e') !! id = Some row'
             ∧ thr_title row' = thr_title row
             ∧ thr_created_at row' = thr_created_at row)
  ∧ (∀ id m, messages (store e) !! id = Some m →
       ∃ m', messages (store e') !! id = Some m'
             ∧ msg_author m' = msg_author m
             ∧ msg_content m' = msg_content m
             ∧ msg_created_at m' = msg_created_at m).
Proof.
  intros Hdistinct Hexec. split.
  - intros id row Hrow. pose proof (exec_rows cfg ev e e' Hdistinct Hexec id) as Hafter.
    unfold rowAfter in Hafter. rewrite Hrow in Hafter.
    destruct (threads (store e') !! id) as [row'|]; [|done].
    exists row'. split; [done|]. by eapply rowWrite_keeps.
  - intros id m Hm. pose proof (exec_messages cfg ev e e' Hexec id) as Hafter.
    unfold messageAfter in Hafter. rewrite Hm in Hafter.
    destruct (messages (store e') !! id) as [m'|]; [|done].
    exists m'. split; [done|]. destruct Hafter as [->|Hwrite]; [done|]. by destruct Hwrite.
Qed.

(** X10. Over any run of the engine no row is deleted, and what the users
    wrote stays as it was: a thread keeps its title and its creation time,
    a message its author, its content and its creation time. *)
Theorem run_keeps_rows (cfg : Config) (evs : list Event) (e e' : Engine) :
  reachable cfg e → execAll cfg evs e = Some e' →
  (∀ id row, threads (store e) !! id = Some row →
     ∃ row', threads (store e') !! id = Some row'
             ∧ thr_title row' = thr_title row
             ∧ thr_created_at row' = thr_created_at row)
  ∧ (∀ id m, messages (store e) !! id = Some m →
       ∃ m', messages (store e') !! id = Some m'
             ∧ msg_author m' = msg_author m
             ∧ msg_content m' = msg_content m
             ∧ msg_created_at m' = msg_created_at m).
Proof.
  revert e. induction evs as [|ev evs IH]; intros e Hreach.
  - intros [= <-]. split; [intros id row Hrow; by exists row|intros id m Hm; by exists m].
  - rewrite execAll_cons. destruct (exec cfg ev e) as [e1|] eqn:Hexec; [|done]. simpl.
    intros Hrest.
    destruct (exec_keeps_rows cfg ev e e1 (reachable_mergingDistinct cfg e Hreach) Hexec)
      as [Hrows Hmessages].
    destruct (IH e1 (reachable_event cfg ev e e1 Hreach Hexec) Hrest) as [Hrows' Hmessages'].
    split.
    + intros id row Hrow. destruct (Hrows id row Hrow) as (row1 & Hrow1 & <- & <-).
      by apply Hrows'.
    + intros id m Hm. destruct (Hmessages id m Hm) as (m1 & Hm1 & <- & <- & <-).
      by apply Hmessages'.
Qed.

Lemma rowWrite_sound (ths' : gmap string ThreadRecord) (target : option string) (id : string)
    (row row' : ThreadRecord) :
  rowWrite ths' target id row row' → rowSound ths' id row → rowSound ths' id row'.
Proof.
  unfold rowSound, linksOf.
  intros Hwrite (Harchived & Hsuperseded & Hlinks).
  destruct Hwrite as [now row Hst Hlast|now row Hst Hlast|now messageAt row
    |now newId row Hst Hne Hex|now oldId row Hne Hex
    |now targetThreadId row Hlive Htarget Hne Hex|now lastMessageAt row Htarget]; simpl.
  - split; [done|]. split; [done|]. done.
  - split; [done|]. split; [done|]. done.
  - destruct (bool_decide (thr_state row = cooling)) eqn:Hcool; [by split|].
    apply bool_decide_eq_false in Hcool. done.
  - split; [done|]. split; [intros _; split; [done|by right]|].
    intros other Hin. rewrite !elem_of_cons in Hin.
    destruct Hin as [Hin|[[= <-]|[Hin|Hin%elem_of_nil]]]; [|done| |done];
      apply Hlinks; rewrite !elem_of_cons; tauto.
  - split; [done|]. split; [done|].
    intros other Hin. rewrite !elem_of_cons in Hin.
    destruct Hin as [[= <-]|[Hin|[Hin|Hin%elem_of_nil]]]; [done| | |done];
      apply Hlinks; rewrite !elem_of_cons; tauto.
  - split; [done|]. split; [intros _; split; [done|by left]|].
    intros other Hin. rewrite !elem_of_cons in Hin.
    destruct Hin as [Hin|[Hin|[[= <-]|Hin%elem_of_nil]]]; [| |done|done];
      apply Hlinks; rewrite !elem_of_cons; tauto.
  - split; [done|]. split; [done|]. done.
Qed.

Lemma exec_rowSound (cfg : Config) (ev : Event) (e e' : Engine) :
  mergingDistinct e → exec cfg ev e = Some e' →
  (∀ id row, threads (store e) !! id = Some row → rowSound (threads (store e)) id row) →
  ∀ id row', threads (store e') !! id = Some row' → rowSound (threads (store e')) id row'.
Proof.
  intros Hdistinct Hexec Hsound id row' Hrow'.
  pose proof (exec_rows cfg ev e e' Hdistinct Hexec) as Hafter.
  assert (∀ row0, rtc (rowWrite (threads (store e')) (snd <$> merging e) id) row0 row' →
            rowSound (threads (store e')) id row0 → rowSound (threads (store e')) id row')
    as Hchain.
  { intros row0 Hrtc. induction Hrtc as [|a b c Hab _ IH]; [done|].
    intros Ha. apply IH; [done|]. by eapply rowWrite_sound. }
  pose proof (Hafter id) as Hid. unfold rowAfter in Hid. rewrite Hrow' in Hid.
  destruct (threads (store e) !! id) as [row|] eqn:Hrow.
  - apply (Hchain row Hid).
    destruct (Hsound id row Hrow) as (Harchived & Hsuperseded & Hlinks).
    split; [done|]. split; [done|]. intros other Hin.
    destruct (Hlinks other Hin) as [Hne [otherRow Hother]]. split; [done|].
    specialize (Hafter other). unfold rowAfter in Hafter. rewrite Hother in Hafter.
    by destruct (threads (store e') !! other).
  - destruct Hid as (title & lastMessageAt & now & Hid). apply (Hchain _ Hid).
    split; [done|]. split; [done|]. unfold linksOf. simpl. intros other Hin.
    rewrite !elem_of_cons in Hin. destruct Hin as [?|[?|[?|?%elem_of_nil]]]; done.
Qed.

(** X11. In every state that the engine reaches, whatever the order of
    the round trips of its loops: an archived thread has an [archived_at];
    a superseded thread has a [superseded_at] and names the thread it was
    merged into or the thread it is continued in; and each of the three
    links of a thread names a thread of the table other than itself. *)
Theorem reachable_rows_sound (cfg : Config) (e : Engine) (id : string) (row : ThreadRecord) :
  reachable cfg e → threads (store e) !! id = Some row →
  rowSound (threads (store e)) id row.
Proof.
  intros Hreach. revert id row. induction Hreach as [|ev e e' Hreach IH Hexec].
  - intros id row Hrow. simpl in Hrow. by rewrite lookup_empty in Hrow.
  - by apply (exec_rowSound cfg ev e e' (reachable_mergingDistinct cfg e Hreach) Hexec).
Qed.

Lemma exec_filed (cfg : Config) (ev : Event) (e e' : Engine) :
  mergingDistinct e → holdsClaim e → exec cfg ev e = Some e' →
  filed (store e) → filed (store e').
Proof.
  intros Hdistinct Hclaim Hexec Hfiled id m' Hm'.
  assert (∀ threadId, is_Some (threads (store e) !! threadId) →
            is_Some (threads (store e') !! threadId)) as Hkept.
  { intros threadId [row Hrow].
    pose proof (exec_rows cfg ev e e' Hdistinct Hexec threadId) as Hafter.
    unfold rowAfter in Hafter. rewrite Hrow in Hafter.
    by destruct (threads (store e') !! threadId). }
  pose proof (exec_messages cfg ev e e' Hexec id) as Hafter.
  unfold messageAfter in Hafter. rewrite Hm' in Hafter.
  destruct (messages (store e) !! id) as [m|] eqn:Hm.
  - specialize (Hfiled id m Hm).
    destruct Hafter as [->|Hwrite].
    { destruct (msg_thread_id m); [|done]. destruct Hfiled. split; [done|by apply Hkept]. }
    destruct Hwrite as [m Hst _ _|threadId note m _ _ Hex|m Hheld _|src tgt m Hsrc Hex]; simpl.
    + destruct (msg_thread_id m); [destruct Hfiled; congruence|done].
    + done.
    + apply Hclaim in Hheld. unfold statusOf in Hheld. rewrite Hm in Hheld.
      injection Hheld as Hst.
      destruct (msg_thread_id m); [destruct Hfiled; congruence|done].
    + rewrite Hsrc in Hfiled. by destruct Hfiled.
  - destruct Hafter as (-> & -> & _). done.
Qed.

(** X12. In every state that the engine reaches, whatever the order of
    the round trips of its loops, a message has a [thread_id] exactly when
    its status is [assigned], and that thread is a row of [threads]. *)
Theorem reachable_filed (cfg : Config) (e : Engine) : reachable cfg e → filed (store e).
Proof.
  induction 1 as [|ev e e' Hreach IH Hexec].
  - intros id m Hm. simpl in Hm. by rewrite lookup_empty in Hm.
  - by apply (exec_filed cfg ev e e' (reachable_mergingDistinct cfg e Hreach)
                (reachable_holdsClaim cfg e Hreach) Hexec).
Qed.

Lemma rowWrite_mergedAway (ths' : gmap string ThreadRecord) (target : option string)
    (id : string) (row row' : ThreadRecord) :
  rowWrite ths' target id row row' → mergedAway target id row →
  mergedAway target id row'
  ∧ (thr_merged_into_thread_id row ≠ None →
     thr_merged_into_thread_id row' = thr_merged_into_thread_id row).
Proof.
  unfold mergedAway. intros Hwrite [Hmerged Htarget].
  destruct Hwrite as [now row Hst Hlast|now row Hst Hlast|now messageAt row
    |now newId row Hst Hne Hex|now oldId row Hne Hex
    |now targetThreadId row Hlive Htgt Hne Hex|now lastMessageAt row Htgt]; simpl.
  - split; [|done]. split; [|done]. intros Hm. specialize (Hmerged Hm). congruence.
  - split; [|done]. split; [|done]. intros Hm. specialize (Hmerged Hm). congruence.
  - split; [|done]. split; [|done]. intros Hm. specialize (Hmerged Hm).
    rewrite Hmerged. by rewrite bool_decide_false.
  - done.
  - done.
  - assert (thr_merged_into_thread_id row = None) as Hnone.
    { destruct (thr_merged_into_thread_id row) eqn:Hm; [|done].
      unfold isLive in Hlive. rewrite Hmerged in Hlive; done. }
    split; [|by rewrite Hnone]. split; [done|]. congruence.
  - split; [|done]. split; [|done]. intros Hm. exfalso. apply Hm. by apply Htarget.
Qed.

Lemma rtc_rowWrite_mergedAway (ths' : gmap string ThreadRecord) (target : option string)
    (id : string) (row row' : ThreadRecord) :
  rtc (rowWrite ths' target id) row row' → mergedAway target id row →
  mergedAway target id row'
  ∧ (thr_merged_into_thread_id row ≠ None →
     thr_merged_into_thread_id row' = thr_merged_into_thread_id row).
Proof.
  induction 1 as [row|row mid row' Hwrite _ IH]; [done|]. intros Hrow.
  destruct (rowWrite_mergedAway _ _ _ _ _ Hwrite Hrow) as [Hmid Hsame].
  destruct (IH Hmid) as [Hrow' Hsame']. split; [done|].
  intros Hm. rewrite <- (Hsame Hm). apply Hsame'. by rewrite (Hsame Hm).
Qed.

(** The pending merge after an event: the same, none, or the one that the
    merge tick has just decided on the rows it has read. *)
Lemma exec_merging (cfg : Config) (ev : Event) (e e' : Engine) :
  exec cfg ev e = Some e' →
  merging e' = merging e
  ∨ merging e' = None
  ∨ (store e' = store e
     ∧ ∃ ai best, findMergePair (fetchMergeCandidates (store e)) = Some best
                  ∧ resolveMerge ai best = merging e').
Proof.
  intros Hexec.
  destruct ev as [mid author content now| |ai|ai|now newId| |now|now|ai|now]; simpl in Hexec.
  - injection Hexec as <-. by left.
  - destruct (assigning e); [done|].
    destruct (claimPendingMessage (store e)) as [[p s1]|]; [|done].
    injection Hexec as <-. by left.
  - destruct (assigning e) as [[p|p d|p d r]|]; try done. injection Hexec as <-. by left.
  - destruct (assigning e) as [[p|p d|p d r]|]; try done. injection Hexec as <-. by left.
  - destruct (assigning e) as [[p|p d|p d r]|]; try done. injection Hexec as <-. by left.
  - destruct (assigning e); [|done]. injection Hexec as <-. by left.
  - injection Hexec as <-. by left.
  - injection Hexec as <-. by left.
  - destruct (length _ <? 2)%nat; [done|]. destruct (merging e); [done|].
    destruct (findMergePair _) as [best|] eqn:Hpair; [|done].
    destruct (resolveMerge ai best) as [ids|] eqn:Hres; [|done].
    injection Hexec as <-. right; right. split; [done|]. by exists ai, best.
  - destruct (merging e) as [[sourceThreadId targetThreadId]|]; [|done].
    injection Hexec as <-. right; by left.
Qed.

Lemma exec_mergedAway (cfg : Config) (ev : Event) (e e' : Engine) :
  mergingDistinct e → exec cfg ev e = Some e' →
  (∀ id row, threads (store e) !! id = Some row → mergedAway (snd <$> merging e) id row) →
  (∀ id row', threads (store e') !! id = Some row' →
     mergedAway (snd <$> merging e') id row')
  ∧ (∀ id row, threads (store e) !! id = Some row →
       thr_merged_into_thread_id row ≠ None →
       ∃ row', threads (store e') !! id = Some row'
               ∧ thr_merged_into_thread_id row' = thr_merged_into_thread_id row).
Proof.
  intros Hdistinct Hexec Hinv.
  pose proof (exec_rows cfg ev e e' Hdistinct Hexec) as Hafter.
  assert (∀ id row', threads (store e') !! id = Some row' →
            mergedAway (snd <$> merging e) id row') as Hold.
  { intros id row' Hrow'. specialize (Hafter id). unfold rowAfter in Hafter.
    rewrite Hrow' in Hafter. destruct (threads (store e) !! id) as [row|] eqn:Hrow.
    - by apply (rtc_rowWrite_mergedAway _ _ _ _ _ Hafter), Hinv.
    - destruct Hafter as (title & lastMessageAt & now & Hafter).
      apply (rtc_rowWrite_mergedAway _ _ _ _ _ Hafter). by split. }
  split.
  - intros id row' Hrow'. destruct (Hold id row' Hrow') as [Hmerged Htarget].
    split; [done|].
    destruct (exec_merging cfg ev e e' Hexec) as [->|[->|(Hstore & ai & best & Hpair & Hres)]];
      [done|done|].
    rewrite <- Hres. intros Hid.
    destruct (resolveMerge ai best) as [[src tgt]|] eqn:Hres'; [|done].
    simpl in Hid. injection Hid as ->.
    apply resolveMerge_distinct in Hres' as (_ & _ & Htgt).
    apply findMergePair_elem in Hpair as [Hs Ht].
    assert (∃ c, c ∈ fetchMergeCandidates (store e) ∧ id = cand_id c) as (c & Hc & ->).
    { unfold pairIds in Htgt. apply elem_of_union in Htgt as [Hx|Hx];
        apply elem_of_singleton in Hx; eauto. }
    apply fetchMergeCandidates_live in Hc as (row & Hrow & Hlive).
    rewrite Hstore, Hrow in Hrow'. injection Hrow' as <-.
    destruct (thr_merged_into_thread_id row) eqn:Hm; [|done].
    unfold isLive in Hlive. rewrite Hmerged in Hlive; done.
  - intros id row Hrow Hm. specialize (Hafter id). unfold rowAfter in Hafter.
    rewrite Hrow in Hafter. destruct (threads (store e') !! id) as [row'|]; [|done].
    exists row'. split; [done|].
    destruct (rtc_rowWrite_mergedAway _ _ _ _ _ Hafter (Hinv id row Hrow)) as [_ Hsame].
    by apply Hsame.
Qed.

Lemma reachable_mergedAway (cfg : Config) (e : Engine) :
  reachable cfg e →
  ∀ id row, threads (store e) !! id = Some row → mergedAway (snd <$> merging e) id row.
Proof.
  induction 1 as [|ev e e' Hreach IH Hexec].
  - intros id row Hrow. simpl in Hrow. by rewrite lookup_empty in Hrow.
  - by apply (exec_mergedAway cfg ev e e' (reachable_mergingDistinct cfg e Hreach) Hexec).
Qed.

(** X13. A thread that has been merged into another stays so, whatever
    the order of the round trips: in every state that the engine reaches a
    thread with a [merged_into_thread_id] is superseded, and over any run
    from there it keeps that [merged_into_thread_id] and stays
    superseded. *)
Theorem merged_threads_stay_merged (cfg : Config) (evs : list Event) (e e' : Engine)
    (id : string) (row : ThreadRecord) :
  reachable cfg e → execAll cfg evs e = Some e' →
  threads (store e) !! id = Some row → thr_merged_into_thread_id row ≠ None →
  thr_state row = superseded
  ∧ ∃ row', threads (store e') !! id = Some row'
            ∧ thr_merged_into_thread_id row' = thr_merged_into_thread_id row
            ∧ thr_state row' = superseded.
Proof.
  intros Hreach Hrun Hrow Hm.
  split; [by apply (reachable_mergedAway cfg e Hreach id row Hrow)|].
  revert e row Hreach Hrun Hrow Hm. induction evs as [|ev evs IH]; intros e row Hreach.
  - intros [= <-] Hrow Hm. exists row. split; [done|]. split; [done|].
    by apply (reachable_mergedAway cfg e Hreach id row Hrow).
  - rewrite execAll_cons. destruct (exec cfg ev e) as [e1|] eqn:Hexec; [|done]. simpl.
    intros Hrest Hrow Hm.
    destruct (exec_mergedAway cfg ev e e1 (reachable_mergingDistinct cfg e Hreach) Hexec
                (reachable_mergedAway cfg e Hreach)) as [_ Hkept].
    destruct (Hkept id row Hrow Hm) as (row1 & Hrow1 & Hsame).
    destruct (IH e1 row1 (reachable_event cfg ev e e1 Hreach Hexec) Hrest Hrow1)
      as (row' & Hrow' & Hsame' & Hst); [congruence|].
    exists row'. split; [done|]. split; [congruence|done].
Qed.

(** ** A claimed message is assigned *)

Lemma decideAssignment_names (cfg : Config) (ai : AICall AssignmentDecision)
    (pending : PendingMessage) (s : Store) (defaultTitle : string) :
  namesThread (threads s)
    (decideAssignment ai pending (fetchActiveThreadCandidates cfg s) defaultTitle).
Proof.
  unfold namesThread, decideAssignment.
  assert (∀ threadId c, c ∈ fetchActiveThreadCandidates cfg s → cand_id c = threadId →
            is_Some (threads s !! threadId)) as Hrow.
  { intros threadId c Hc <-.
    apply fetchActiveThreadCandidates_live in Hc as (row & Hrow & _). by eexists. }
  destruct (fetchActiveThreadCandidates cfg s) as [|c0 cs] eqn:Hcs; [done|].
  assert (∀ threadId,
            dec_threadId (fallbackAssignment pending (c0 :: cs) defaultTitle) = Some threadId →
            is_Some (threads s !! threadId)) as Hfallback.
  { intros threadId Hid. apply fallbackAssignment_threadId in Hid as (c & Hc & Heq).
    by apply (Hrow threadId c). }
  destruct ai as [| |d].
  - intros _ Htruthy. unfold truthy in Htruthy.
    destruct (dec_threadId _) as [threadId|] eqn:Hid; [|done].
    exists threadId. split; [done|]. by apply Hfallback.
  - intros _ Htruthy. unfold truthy in Htruthy.
    destruct (dec_threadId _) as [threadId|] eqn:Hid; [|done].
    exists threadId. split; [done|]. by apply Hfallback.
  - unfold normalizeAssignmentDecision.
    destruct (acceptsAssign d (c0 :: cs)) eqn:Hacc; [|done]. intros _ _.
    unfold acceptsAssign in Hacc. rewrite !andb_true_iff in Hacc.
    destruct Hacc as [[[_ _] Hid] _]. unfold has_id in Hid.
    destruct (dec_threadId d) as [threadId|]; [|done].
    apply bool_decide_eq_true, elem_of_list_to_set, list_elem_of_fmap in Hid
      as (c & -> & Hc).
    exists (cand_id c). split; [done|]. by apply (Hrow _ c).
Qed.

(** The transaction commits when the id drawn for a new row is not empty
    and not taken, and an assigning decision names a row. *)
Lemma applyAssignment_commits (now : Z) (newId : string) (pending : PendingMessage)
    (decision : AssignmentDecision) (revivalSourceId : option string) (s : Store) :
  newId ≠ "" → threads s !! newId = None → namesThread (threads s) decision →
  ∃ s' applied,
    applyAssignment now newId pending decision revivalSourceId s = Committed (s', applied).
Proof.
  intros HnewId Hfresh Hnames. unfold applyAssignment.
  destruct (provideThread_total now newId pending decision revivalSourceId s Hfresh)
    as ([[[s3 threadId] createdThreadId] revivalLink] & Hrun).
  rewrite Hrun. simpl.
  assert (∃ tid, present threadId = Some tid ∧ is_Some (threads s3 !! tid))
    as (tid & -> & [row Hrow]).
  { apply provideThread_Committed in Hrun
      as [(_ & -> & _ & _ & Hnew)|((Hact & Ht) & -> & _ & _ & ->)].
    - exists newId. by rewrite present_Some.
    - destruct (Hnames Hact Ht) as (tid & Hid & Hex). exists tid. split; [|done].
      unfold present. by rewrite Ht. }
  unfold assignMessage. rewrite Hrow.
  destruct (messages s3 !! pend_id pending); simpl;
    destruct (updateThreadById _ _ _ _); by eexists _, _.
Qed.

Lemma exec_decision (cfg : Config) (ev : Event) (e e' : Engine) :
  exec cfg ev e = Some e' →
  decisionInFlight e' = None
  ∨ decisionInFlight e' = decisionInFlight e
  ∨ (store e' = store e
     ∧ ∃ ai pending defaultTitle,
         decisionInFlight e'
         = Some (decideAssignment ai pending
                   (fetchActiveThreadCandidates cfg (store e)) defaultTitle)).
Proof.
  intros Hexec. unfold decisionInFlight.
  destruct ev as [mid author content now| |ai|ai|now newId| |now|now|ai|now]; simpl in Hexec.
  - injection Hexec as <-. right; by left.
  - destruct (assigning e); [done|].
    destruct (claimPendingMessage (store e)) as [[p s1]|]; [|done].
    injection Hexec as <-. by left.
  - destruct (assigning e) as [[p|p d|p d r]|]; try done. injection Hexec as <-.
    right; right. split; [done|]. by eexists _, _, _.
  - destruct (assigning e) as [[p|p d|p d r]|]; try done. injection Hexec as <-.
    right; by left.
  - destruct (assigning e) as [[p|p d|p d r]|]; try done. injection Hexec as <-. by left.
  - destruct (assigning e); [|done]. injection Hexec as <-. by left.
  - injection Hexec as <-. right; by left.
  - injection Hexec as <-. right; by left.
  - destruct (length _ <? 2)%nat; [done|]. destruct (merging e); [done|].
    destruct (findMergePair _) as [best|]; [|done].
    destruct (resolveMerge ai best); [|done]. injection Hexec as <-. right; by left.
  - destruct (merging e) as [[sourceThreadId targetThreadId]|]; [|done].
    injection Hexec as <-. right; by left.
Qed.

Lemma reachable_namesThread (cfg : Config) (e : Engine) (decision : AssignmentDecision) :
  reachable cfg e → decisionInFlight e = Some decision →
  namesThread (threads (store e)) decision.
Proof.
  intros Hreach. revert decision. induction Hreach as [|ev e e' Hreach IH Hexec]; [done|].
  intros decision Hd.
  destruct (exec_decision cfg ev e e' Hexec)
    as [Hnone|[Hsame|(Hstore & ai & pending & defaultTitle & Hnew)]].
  - congruence.
  - rewrite Hsame in Hd. intros Hact Ht.
    destruct (IH decision Hd Hact Ht) as (threadId & Hid & [row Hrow]).
    exists threadId. split; [done|].
    pose proof (exec_rows cfg ev e e' (reachable_mergingDistinct cfg e Hreach) Hexec threadId)
      as Hafter.
    unfold rowAfter in Hafter. rewrite Hrow in Hafter.
    by destruct (threads (store e') !! threadId).
  - rewrite Hnew in Hd. injection Hd as <-. rewrite Hstore. apply decideAssignment_names.
Qed.

(** X14. Once the assignment loop has claimed a message and made its
    decision, the transaction commits, whatever the other loops have
    written in between: in every state that the engine reaches, with an id
    for the new row that is not empty and not taken, [applyAssignment]
    commits and the claimed message is [assigned].  A claimed message is
    [failed] only when a round trip throws or the drawn id is taken. *)
Theorem reachable_apply_commits (cfg : Config) (e : Engine) (pending : PendingMessage)
    (decision : AssignmentDecision) (revivalSourceId : option string)
    (now : Z) (newId : string) :
  reachable cfg e → assigning e = Some (Resolved pending decision revivalSourceId) →
  newId ≠ "" → threads (store e) !! newId = None →
  ∃ s' applied,
    applyAssignment now newId pending decision revivalSourceId (store e)
      = Committed (s', applied)
    ∧ exec cfg (Apply now newId) e
      = Some {| store := s'; assigning := None; merging := merging e |}
    ∧ statusOf s' (pend_id pending) = Some assigned.
Proof.
  intros Hreach Ha HnewId Hfresh.
  assert (namesThread (threads (store e)) decision) as Hnames.
  { apply (reachable_namesThread cfg e decision Hreach). unfold decisionInFlight.
    by rewrite Ha. }
  destruct (applyAssignment_commits now newId pending decision revivalSourceId (store e)
              HnewId Hfresh Hnames) as (s' & applied & Hrun).
  exists s', applied. split; [done|]. split.
  - simpl. by rewrite Ha, Hrun.
  - assert (statusOf (store e) (pend_id pending) = Some in_progress) as Hheld.
    { apply (reachable_holdsClaim cfg e Hreach). unfold heldId. by rewrite Ha. }
    apply applyAssignment_messages in Hrun.
    rewrite (statusOf_alter
               (fun m => set_assignment assigned (Some (dec_reason decision))
                           (set_thread_id (Some (ap_threadId applied)) m))
               assigned (pend_id pending) (store e) s') by done.
    rewrite decide_True by done. by rewrite Hheld.
Qed.

(** ** The properties of the rows at a sample run *)

Lemma raceAt_reachable (evs : list Event) (e : Engine) :
  raceAt evs = Some e → reachable defaultConfig e.
Proof.
  apply (reachable_execAll defaultConfig evs (idleEngine emptyStore)), reachable_start.
Qed.

(** A fact about a run is computed on the run and then read at the engine
    that the run yields. *)
Ltac reduce_bind H := cbv beta iota delta [mbind option_bind] in H.

Lemma run_keeps_rows_witness :
  ∃ e e', raceAt raceMerged = Some e ∧ execAll defaultConfig raceLater e = Some e'
          ∧ (thr_title <$> threads (store e) !! "T") = Some "Deploy pipeline broken too"
          ∧ (thr_title <$> threads (store e') !! "T") = Some "Deploy pipeline broken too"
          ∧ (msg_content <$> messages (store e') !! "m1") = Some "still broken".
Proof.
  assert ((e0 ← raceAt raceMerged; _ ← execAll defaultConfig raceLater e0;
           row ← threads (store e0) !! "T"; m ← messages (store e0) !! "m1";
           Some (thr_title row, msg_content m))
          = Some ("Deploy pipeline broken too", "still broken")) as Hfacts
    by (vm_compute; reflexivity).
  destruct (raceAt raceMerged) as [e|] eqn:He; [|discriminate Hfacts].
  pose proof (raceAt_reachable _ _ He) as Hreach. reduce_bind Hfacts.
  destruct (execAll defaultConfig raceLater e) as [e'|] eqn:Hrun; [|discriminate Hfacts].
  destruct (threads (store e) !! "T") as [row|] eqn:Hrow; [|discriminate Hfacts].
  destruct (messages (store e) !! "m1") as [m|] eqn:Hm; [|discriminate Hfacts].
  injection Hfacts as Htitle Hcontent.
  destruct (run_keeps_rows defaultConfig raceLater e e' Hreach Hrun) as [Hrows Hmessages].
  destruct (Hrows "T" row Hrow) as (row' & Hrow' & Htitle' & _).
  destruct (Hmessages "m1" m Hm) as (m' & Hm' & _ & Hcontent' & _).
  exists e, e'. split; [reflexivity|]. split; [exact Hrun|].
  rewrite Hrow, Hrow', Hm'. simpl. rewrite Htitle', Hcontent', Htitle, Hcontent.
  split; [reflexivity|]. split; reflexivity.
Defined.

Lemma reachable_rows_sound_witness :
  ∃ e row, raceAt raceEvents = Some e ∧ threads (store e) !! "T" = Some row
           ∧ thr_state row = superseded
           ∧ rowSound (threads (store e)) "T" row.
Proof.
  assert ((e0 ← raceAt raceEvents; row ← threads (store e0) !! "T"; Some (thr_state row))
          = Some superseded) as Hfacts by (vm_compute; reflexivity).
  destruct (raceAt raceEvents) as [e|] eqn:He; [|discriminate Hfacts].
  pose proof (raceAt_reachable _ _ He) as Hreach. reduce_bind Hfacts.
  destruct (threads (store e) !! "T") as [row|] eqn:Hrow; [|discriminate Hfacts].
  injection Hfacts as Hstate.
  exists e, row. split; [reflexivity|]. split; [exact Hrow|]. split; [exact Hstate|].
  exact (reachable_rows_sound defaultConfig e "T" row Hreach Hrow).
Defined.

Lemma reachable_filed_witness :
  ∃ e, raceAt raceEvents = Some e
       ∧ (msg_thread_id <$> messages (store e) !! "mS") = Some (Some "T")
       ∧ filed (store e).
Proof.
  assert ((e0 ← raceAt raceEvents; m ← messages (store e0) !! "mS"; Some (msg_thread_id m))
          = Some (Some "T")) as Hfacts by (vm_compute; reflexivity).
  destruct (raceAt raceEvents) as [e|] eqn:He; [|discriminate Hfacts].
  pose proof (raceAt_reachable _ _ He) as Hreach. reduce_bind Hfacts.
  destruct (messages (store e) !! "mS") as [m|] eqn:Hm; [|discriminate Hfacts].
  injection Hfacts as Hthread.
  exists e. split; [reflexivity|]. split; [rewrite Hm; simpl; by rewrite Hthread|].
  exact (reachable_filed defaultConfig e Hreach).
Defined.

Lemma merged_threads_stay_merged_witness :
  ∃ e e' row, raceAt raceMerged = Some e ∧ execAll defaultConfig raceLater e = Some e'
              ∧ threads (store e) !! "S" = Some row
              ∧ thr_merged_into_thread_id row = Some "T"
              ∧ thr_state row = superseded
              ∧ ∃ row', threads (store e') !! "S" = Some row'
                        ∧ thr_merged_into_thread_id row' = thr_merged_into_thread_id row
                        ∧ thr_state row' = superseded.
Proof.
  assert ((e0 ← raceAt raceMerged; _ ← execAll defaultConfig raceLater e0;
           row ← threads (store e0) !! "S"; Some (thr_merged_into_thread_id row))
          = Some (Some "T")) as Hfacts by (vm_compute; reflexivity).
  destruct (raceAt raceMerged) as [e|] eqn:He; [|discriminate Hfacts].
  pose proof (raceAt_reachable _ _ He) as Hreach. reduce_bind Hfacts.
  destruct (execAll defaultConfig raceLater e) as [e'|] eqn:Hrun; [|discriminate Hfacts].
  destruct (threads (store e) !! "S") as [row|] eqn:Hrow; [|discriminate Hfacts].
  injection Hfacts as Hm.
  exists e, e', row. split; [reflexivity|]. split; [exact Hrun|]. split; [exact Hrow|].
  split; [exact Hm|].
  apply (merged_threads_stay_merged defaultConfig raceLater e e' "S" row Hreach Hrun Hrow).
  rewrite Hm. discriminate.
Defined.

Lemma reachable_apply_commits_witness :
  ∃ e pending decision,
    raceAt raceDeciding = Some e
    ∧ assigning e = Some (Resolved pending decision None)
    ∧ pend_id pending = "m1"
    ∧ ∃ s' applied,
        applyAssignment (hours 72 + seconds 3) "unused" pending decision None (store e)
          = Committed (s', applied)
        ∧ exec defaultConfig (Apply (hours 72 + seconds 3) "unused") e
          = Some {| store := s'; assigning := None; merging := merging e |}
        ∧ statusOf s' (pend_id pending) = Some assigned.
Proof.
  assert ((e0 ← raceAt raceDeciding;
           match assigning e0 with
           | Some (Resolved p _ None) =>
               Some (pend_id p, bool_decide (threads (store e0) !! "unused" = None))
           | _ => None
           end) = Some ("m1", true)) as Hfacts by (vm_compute; reflexivity).
  destruct (raceAt raceDeciding) as [e|] eqn:He; [|discriminate Hfacts].
  pose proof (raceAt_reachable _ _ He) as Hreach. reduce_bind Hfacts.
  destruct (assigning e) as [[p|p d|p d [r|]]|] eqn:Ha; try discriminate Hfacts.
  injection Hfacts as Hid Hfresh. apply bool_decide_eq_true in Hfresh.
  exists e, p, d. split; [reflexivity|]. split; [exact Ha|]. split; [exact Hid|].
  apply (reachable_apply_commits defaultConfig e p d None _ "unused" Hreach Ha);
    [discriminate|exact Hfresh].
Defined.

(** ** The transaction of an assignment, case by case *)

(** X15. An assignment to a thread that exists commits and inserts no
    row.  The message gets that thread, the status [assigned] and the
    reason of the decision as its note.  The thread's [last_message_at]
    becomes the later of its old value and the time of the message, so it
    never moves back; a cooling thread becomes active again, and a thread
    in any other state keeps its state (an archived or superseded thread
    is not reopened).  No other row is written. *)
Theorem applyAssignment_assigns (now : Z) (newId : string) (pending : PendingMessage)
    (decision : AssignmentDecision) (revivalSourceId : option string) (s : Store)
    (threadId : string) (row : ThreadRecord) (m : MessageRecord) :
  dec_action decision = assign → dec_threadId decision = Some threadId → threadId ≠ "" →
  threads s !! threadId = Some row → messages s !! pend_id pending = Some m →
  ∃ s' row',
    applyAssignment now newId pending decision revivalSourceId s
    = Committed (s', {| ap_threadId := threadId; ap_createdThreadId := None;
                        ap_revivalLink := None |})
    ∧ messages s'
      = <[pend_id pending :=
            set_assignment assigned (Some (dec_reason decision))
              (set_thread_id (Some threadId) m)]> (messages s)
    ∧ threads s' = <[threadId := row']> (threads s)
    ∧ (∃ last, thr_last_message_at row' = Some last
               ∧ pend_created_at pending ≤ last
               ∧ (∀ before, thr_last_message_at row = Some before → before ≤ last)
               ∧ (last = pend_created_at pending ∨ thr_last_message_at row = Some last))
    ∧ (thr_state row = cooling → thr_state row' = active)
    ∧ (thr_state row ≠ cooling → thr_state row' = thr_state row)
    ∧ thr_updated_at row' = now
    ∧ thr_title row' = thr_title row
    ∧ linksOf row' = linksOf row.
Proof.
  intros Hact Hid Hne Hrow Hm.
  exists (with_threads (<[threadId := touchRow now (pend_created_at pending) row]> (threads s))
            (with_messages
               (<[pend_id pending :=
                    set_assignment assigned (Some (dec_reason decision))
                      (set_thread_id (Some threadId) m)]> (messages s)) s)),
         (touchRow now (pend_created_at pending) row).
  split.
  - unfold applyAssignment, provideThread. rewrite Hact, Hid.
    rewrite bool_decide_false by done. rewrite (truthy_Some threadId Hne). simpl.
    rewrite (present_Some threadId Hne). unfold assignMessage. rewrite Hm, Hrow. simpl.
    unfold updateThreadById. simpl. rewrite Hrow. simpl. do 2 f_equal.
    unfold updateMessageById, with_threads, with_messages. simpl. f_equal.
    apply map_eq. intros j. destruct (decide (j = pend_id pending)) as [->|Hj].
    + by rewrite lookup_alter_eq, lookup_insert_eq, Hm.
    + by rewrite lookup_alter_ne, lookup_insert_ne.
  - split; [done|]. split; [done|]. unfold touchRow, linksOf. simpl. split.
    + eexists. split; [done|]. destruct (thr_last_message_at row) as [before|]; simpl.
      * split; [lia|]. split; [intros ? [= <-]; lia|].
        destruct (Z.max_spec before (pend_created_at pending)) as [[_ ->]|[_ ->]]; auto.
      * split; [lia|]. split; [done|]. left. lia.
    + split; [intros ->; by rewrite bool_decide_true|].
      split; [intros Hst; by rewrite bool_decide_false|]. done.
Qed.

Lemma applyAssignment_assigns_witness :
  ∃ s' row',
    applyAssignment (seconds 950) "n1" demoPending demoAssign None claimedStore
    = Committed (s', {| ap_threadId := "a"; ap_createdThreadId := None;
                        ap_revivalLink := None |})
    ∧ threads s' !! "a" = Some row'
    ∧ thr_state row' = active
    ∧ thr_last_message_at row' = Some (seconds 900).
Proof.
  destruct (threads claimedStore !! "a") as [row|] eqn:Hrow; [|by vm_compute in Hrow].
  destruct (messages claimedStore !! pend_id demoPending) as [m|] eqn:Hm;
    [|by vm_compute in Hm].
  destruct (applyAssignment_assigns (seconds 950) "n1" demoPending demoAssign None claimedStore
              "a" row m)
    as (s' & row' & Hrun & _ & Hthreads & (last & Hlast & Hle & _ & Hcase) & _ & Hkeep & _);
    try done.
  exists s', row'. split; [done|]. split; [by rewrite Hthreads, lookup_insert_eq|].
  vm_compute in Hrow. injection Hrow as <-. split; [by apply Hkeep|].
  rewrite Hlast. f_equal. simpl in Hle, Hcase. unfold seconds in *.
  destruct Hcase as [->|[= <-]]; [done|lia].
Defined.

Lemma applyAssignment_creates_row (now : Z) (newId : string) (pending : PendingMessage)
    (decision : AssignmentDecision) (revivalSourceId : option string) (s : Store)
    (m : MessageRecord) :
  dec_action decision = create ∨ truthy (dec_threadId decision) = false →
  newId ≠ "" → threads s !! newId = None → messages s !! pend_id pending = Some m →
  ∃ s' applied row',
    applyAssignment now newId pending decision revivalSourceId s = Committed (s', applied)
    ∧ ap_threadId applied = newId
    ∧ ap_createdThreadId applied = Some newId
    ∧ messages s'
      = <[pend_id pending :=
            set_assignment assigned (Some (dec_reason decision))
              (set_thread_id (Some newId) m)]> (messages s)
    ∧ threads s' !! newId = Some row'
    ∧ thr_title row' = default (buildTitle (pend_content pending)) (dec_title decision)
    ∧ thr_state row' = active
    ∧ thr_created_at row' = now
    ∧ thr_last_message_at row' = Some (pend_created_at pending)
    ∧ linksOf row' = [fst <$> ap_revivalLink applied; None; None]
    ∧ (∀ id, id ≠ newId → Some id ≠ fst <$> ap_revivalLink applied →
         threads s' !! id = threads s !! id).
Proof.
  intros Hcreates HnewId Hfresh Hm.
  destruct (applyAssignment_commits now newId pending decision revivalSourceId s
              HnewId Hfresh) as (s' & applied & Hrun).
  { intros Hact Ht. destruct Hcreates; congruence. }
  exists s', applied.
  pose proof (applyAssignment_messages _ _ _ _ _ _ _ _ Hrun) as Hmessages.
  apply applyAssignment_threads in Hrun as Hthreads.
  destruct Hthreads as (s3 & threadId & Hprovide & Htid & Htouch).
  pose proof (provideThread_Committed _ _ _ _ _ _ _ _ _ _ Hprovide) as Hcase.
  destruct Hcase as [(_ & -> & Hcreated & _ & _)|((Hact & Ht) & _)];
    [|destruct Hcreates; congruence].
  apply present_Some_inv in Htid as [[= Htid] _].
  assert (messages s'
          = <[pend_id pending :=
                set_assignment assigned (Some (dec_reason decision))
                  (set_thread_id (Some newId) m)]> (messages s)) as Hmessages'.
  { rewrite Hmessages, <- Htid. apply map_eq. intros j.
    destruct (decide (j = pend_id pending)) as [->|Hj].
    - by rewrite lookup_alter_eq, lookup_insert_eq, Hm.
    - by rewrite lookup_alter_ne, lookup_insert_ne. }
  assert (Z.max (pend_created_at pending) (pend_created_at pending) = pend_created_at pending)
    as Hmax by lia.
  apply provideThread_cases in Hprovide
    as [([= ?] & _)|(_ & _ & _ & [(Hlink & _ & Heq)
          |(oldId & oldRow & Hlink & _ & Hne & Hold & _ & Heq)])]; [congruence| |].
  - eexists. split; [done|]. split; [by rewrite <- Htid|]. split; [done|].
    split; [done|]. split.
    { rewrite Htouch, <- Htid, lookup_alter_eq, Heq, lookup_insert_eq. done. }
    rewrite Hlink. unfold linksOf. simpl. rewrite Hmax.
    repeat (split; [done|]). intros id Hid _.
    by rewrite Htouch, <- Htid, lookup_alter_ne, Heq, lookup_insert_ne.
  - eexists. split; [done|]. split; [by rewrite <- Htid|]. split; [done|].
    split; [done|]. split.
    { rewrite Htouch, <- Htid, lookup_alter_eq, Heq, lookup_insert_eq. done. }
    rewrite Hlink. unfold linksOf. simpl. rewrite Hmax.
    repeat (split; [done|]). intros id Hid Hold'.
    rewrite Htouch, <- Htid, lookup_alter_ne, Heq by done.
    rewrite !lookup_insert_ne by congruence. done.
Qed.

(** X16. An assignment that creates a thread (the decision says [create],
    or it names no thread) commits when the id drawn for the new row is
    not taken, and is rolled back on a unique violation when it is.  The
    new row is active, carries the title of the decision, or the title
    built from the message when the decision has none, and has the time
    of the message as its [last_message_at]; the message is assigned to
    it.  Apart from the new row and a revived one, no row is written. *)
Theorem applyAssignment_creates (now : Z) (newId : string) (pending : PendingMessage)
    (decision : AssignmentDecision) (revivalSourceId : option string) (s : Store)
    (m : MessageRecord) :
  dec_action decision = create ∨ truthy (dec_threadId decision) = false →
  newId ≠ "" → messages s !! pend_id pending = Some m →
  match threads s !! newId with
  | Some _ =>
      applyAssignment now newId pending decision revivalSourceId s
      = RolledBack UniqueViolation
  | None =>
      ∃ s' applied row',
        applyAssignment now newId pending decision revivalSourceId s
        = Committed (s', applied)
        ∧ ap_threadId applied = newId
        ∧ ap_createdThreadId applied = Some newId
        ∧ messages s'
          = <[pend_id pending :=
                set_assignment assigned (Some (dec_reason decision))
                  (set_thread_id (Some newId) m)]> (messages s)
        ∧ threads s' !! newId = Some row'
        ∧ thr_title row' = default (buildTitle (pend_content pending)) (dec_title decision)
        ∧ thr_state row' = active
        ∧ thr_created_at row' = now
        ∧ thr_last_message_at row' = Some (pend_created_at pending)
        ∧ linksOf row' = [fst <$> ap_revivalLink applied; None; None]
        ∧ (∀ id, id ≠ newId → Some id ≠ fst <$> ap_revivalLink applied →
             threads s' !! id = threads s !! id)
  end.
Proof.
  intros Hcreates HnewId Hm.
  destruct (threads s !! newId) as [taken|] eqn:Hfresh;
    [|by apply applyAssignment_creates_row].
  unfold applyAssignment, provideThread, insertThread. rewrite Hfresh.
  destruct (bool_decide (dec_action decision = create)
            || negb (truthy (dec_threadId decision))) eqn:Hbranch; [done|].
  apply orb_false_iff in Hbranch as [Hact Ht].
  apply bool_decide_eq_false in Hact. apply negb_false_iff in Ht.
  destruct Hcreates; congruence.
Qed.

Lemma applyAssignment_creates_witness :
  (∃ s' applied row',
     applyAssignment (seconds 950) "n1" demoPending demoCreate None claimedStore
     = Committed (s', applied)
     ∧ ap_threadId applied = "n1"
     ∧ threads s' !! "n1" = Some row'
     ∧ thr_title row' = "Rollout plan"
     ∧ thr_last_message_at row' = Some (seconds 900))
  ∧ applyAssignment (seconds 950) "a" demoPending demoCreate None claimedStore
    = RolledBack UniqueViolation.
Proof.
  destruct (messages claimedStore !! pend_id demoPending) as [m|] eqn:Hm;
    [|by vm_compute in Hm].
  split.
  - pose proof (applyAssignment_creates (seconds 950) "n1" demoPending demoCreate None claimedStore m)
      as Hrun.
    destruct (threads claimedStore !! "n1") eqn:Hfresh; [by vm_compute in Hfresh|].
    destruct Hrun as (s' & applied & row' & Hrun & Htid & _ & _ & Hrow' & Htitle
                      & _ & _ & Hlast & _); try done; [by left|].
    by exists s', applied, row'.
  - pose proof (applyAssignment_creates (seconds 950) "a" demoPending demoCreate None claimedStore m)
      as Hrun.
    destruct (threads claimedStore !! "a") eqn:Htaken; [|by vm_compute in Htaken].
    apply Hrun; try done. by left.
Defined.

Lemma fetchActiveThreadCandidates_none (cfg : Config) (s : Store) :
  (∀ id row, threads s !! id = Some row → isLive row = false) →
  fetchActiveThreadCandidates cfg s = [].
Proof.
  intros Hnone. destruct (fetchActiveThreadCandidates cfg s) as [|c cs] eqn:Hcs; [done|].
  assert (c ∈ fetchActiveThreadCandidates cfg s) as Hc by (rewrite Hcs; by left).
  apply fetchActiveThreadCandidates_live in Hc as (row & Hrow & Hlive).
  by rewrite (Hnone _ _ Hrow) in Hlive.
Qed.

(** X17. When no thread is active or cooling, the provider is not asked
    where a message goes: the run of [processSinglePendingMessage] that
    claims it creates a thread, active, titled from the message, with the
    time of the message as its [last_message_at], and assigns the message
    to it with the note "First thread in the system.", whatever the
    provider would answer (no round trip throwing, and the id drawn for
    the row not empty and not taken). *)
Theorem processSinglePendingMessage_first_thread (cfg : Config) (env : AssignmentEnv)
    (s s1 : Store) (claimed : PendingMessage) :
  (∀ id row, threads s !! id = Some row → isLive row = false) →
  claimPendingMessage s = Some (claimed, s1) →
  env_storeThrows env = false →
  env_newId env ≠ "" → threads s !! env_newId env = None →
  ∃ row m',
    threads (processSinglePendingMessage cfg env s).1 !! env_newId env = Some row
    ∧ thr_title row = buildTitle (pend_content claimed)
    ∧ thr_state row = active
    ∧ thr_last_message_at row = Some (pend_created_at claimed)
    ∧ messages (processSinglePendingMessage cfg env s).1 !! pend_id claimed = Some m'
    ∧ msg_thread_id m' = Some (env_newId env)
    ∧ msg_assignment_status m' = assigned
    ∧ msg_assignment_note m' = Some "First thread in the system.".
Proof.
  intros Hnone Hclaim Hthrows HnewId Hfresh.
  pose proof (claimPendingMessage_threads _ _ _ Hclaim) as Hthreads.
  destruct (claimPendingMessage_Some _ _ _ Hclaim) as (m & Hm & _ & _ & _ & Hs1 & _).
  assert (messages s1 !! pend_id claimed = Some (set_assignment_status in_progress m))
    as Hm1.
  { rewrite Hs1. simpl. by rewrite lookup_alter_eq, Hm. }
  unfold processSinglePendingMessage. rewrite Hclaim, Hthrows. simpl.
  rewrite fetchActiveThreadCandidates_none by (by rewrite Hthreads).
  unfold decideAssignment. simpl.
  match goal with |- context [applyAssignment ?now ?newId ?p ?d ?r ?st] =>
    destruct (applyAssignment_creates_row now newId p d r st
                (set_assignment_status in_progress m))
      as (s' & applied & row' & -> & _ & _ & Hmessages & Hrow' & Htitle & Hstate & _
          & Hlast & _); [by left|done|by rewrite Hthreads|done|] end.
  simpl. exists row'. eexists. split; [done|]. split; [done|]. split; [done|].
  split; [done|]. rewrite Hmessages, lookup_insert_eq. done.
Qed.

Lemma processSinglePendingMessage_first_thread_witness :
  ∃ row m',
    threads (processSinglePendingMessage defaultConfig
               {| env_now := seconds 5; env_newId := "t1";
                  env_assignment := AIAnswer aiAssigns;
                  env_revival := AIDisabled; env_storeThrows := false |} postedStore).1
      !! "t1" = Some row
    ∧ thr_title row = "Hello world"
    ∧ messages (processSinglePendingMessage defaultConfig
                  {| env_now := seconds 5; env_newId := "t1";
                     env_assignment := AIAnswer aiAssigns;
                     env_revival := AIDisabled; env_storeThrows := false |} postedStore).1
        !! "m1" = Some m'
    ∧ msg_thread_id m' = Some "t1".
Proof.
  assert ((claim ← claimPendingMessage postedStore;
           Some (pend_id claim.1, buildTitle (pend_content claim.1)))
          = Some ("m1", "Hello world")) as Hfacts by (vm_compute; reflexivity).
  assert (threads postedStore = ∅) as Hnone by (vm_compute; reflexivity).
  destruct (claimPendingMessage postedStore) as [[claimed s1]|] eqn:Hclaim;
    [|discriminate Hfacts].
  reduce_bind Hfacts. injection Hfacts as Hid Htitle.
  destruct (processSinglePendingMessage_first_thread defaultConfig
              {| env_now := seconds 5; env_newId := "t1";
                 env_assignment := AIAnswer aiAssigns;
                 env_revival := AIDisabled; env_storeThrows := false |}
              postedStore s1 claimed)
    as (row & m' & Hrow & Hbuilt & _ & _ & Hm' & Hthread & _).
  - intros id row. rewrite Hnone, lookup_empty. discriminate.
  - exact Hclaim.
  - reflexivity.
  - discriminate.
  - rewrite Hnone. apply lookup_empty.
  - exists row, m'. split; [exact Hrow|]. split; [by rewrite Hbuilt|].
    split; [|exact Hthread]. simpl in Hid. rewrite Hid in Hm'. exact Hm'.
Defined.

(** ** What a merge tick does to the live threads *)

Lemma elem_of_liveIds (s : Store) (id : string) :
  id ∈ liveIds s ↔ ∃ row, threads s !! id = Some row ∧ isLive row = true.
Proof.
  unfold liveIds. rewrite elem_of_dom. unfold is_Some.
  setoid_rewrite map_lookup_filter_Some. done.
Qed.

(** X18. A merge tick leaves the store as it is, or it merges two distinct
    threads that are both active or cooling: then the source is no longer
    active or cooling, every other thread that was active or cooling still
    is (the target among them), so there is one such thread less; no row
    is added or deleted, and no row other than those two is written.  With
    fewer than two active or cooling threads the tick changes nothing. *)
Theorem mergeTick_supersedes_one (ai : AICall MergeDecision) (now : Z) (s : Store) :
  (mergeTick ai now s = s
   ∨ ∃ sourceThreadId targetThreadId,
       sourceThreadId ≠ targetThreadId
       ∧ sourceThreadId ∈ liveIds s ∧ targetThreadId ∈ liveIds s
       ∧ liveIds (mergeTick ai now s) = liveIds s ∖ {[sourceThreadId]}
       ∧ (size (liveIds (mergeTick ai now s)) + 1 = size (liveIds s))%nat
       ∧ dom (threads (mergeTick ai now s)) = dom (threads s)
       ∧ ∀ id, id ≠ sourceThreadId → id ≠ targetThreadId →
               threads (mergeTick ai now s) !! id = threads s !! id)
  ∧ ((size (liveIds s) < 2)%nat → mergeTick ai now s = s).
Proof.
  assert (mergeTick ai now s = s
   ∨ ∃ sourceThreadId targetThreadId,
       sourceThreadId ≠ targetThreadId
       ∧ sourceThreadId ∈ liveIds s ∧ targetThreadId ∈ liveIds s
       ∧ liveIds (mergeTick ai now s) = liveIds s ∖ {[sourceThreadId]}
       ∧ (size (liveIds (mergeTick ai now s)) + 1 = size (liveIds s))%nat
       ∧ dom (threads (mergeTick ai now s)) = dom (threads s)
       ∧ ∀ id, id ≠ sourceThreadId → id ≠ targetThreadId →
               threads (mergeTick ai now s) !! id = threads s !! id) as Hcases.
  { destruct (mergeTick_cases ai now s) as [->|(src & tgt & tgtRow & Hne & Htgt & Hlive & Hrun)];
      [by left|].
    right. exists src, tgt.
    apply executeMerge_threads in Hrun as (srcRow & last & Hsrc & Hsrclive & _ & Heq).
    assert (src ∈ liveIds s) as Hsrcin by (apply elem_of_liveIds; by exists srcRow).
    assert (tgt ∈ liveIds s) as Htgtin by (apply elem_of_liveIds; by exists tgtRow).
    assert (∀ id, threads (mergeTick ai now s) !! id =
              if decide (id = tgt) then Some (reopenRow now last tgtRow)
              else if decide (id = src) then Some (supersedeIntoRow now tgt srcRow)
              else threads s !! id) as Hlookup.
    { intros id. rewrite Heq. destruct (decide (id = tgt)) as [->|Hidt].
      - by rewrite lookup_alter_eq, lookup_insert_ne, Htgt.
      - rewrite lookup_alter_ne by done. destruct (decide (id = src)) as [->|Hids].
        + by rewrite lookup_insert_eq.
        + by rewrite lookup_insert_ne. }
    assert (liveIds (mergeTick ai now s) = liveIds s ∖ {[src]}) as Hlive'.
    { apply set_eq. intros id.
      rewrite elem_of_difference, elem_of_singleton, !elem_of_liveIds, Hlookup.
      destruct (decide (id = tgt)) as [->|Hidt].
      - split; [intros _; split; [by exists tgtRow|congruence]|].
        intros _. by eexists.
      - destruct (decide (id = src)) as [->|Hids].
        + split; [by intros (row & [= <-] & Hl)|by intros [_ ?]].
        + split; [by intros ?|by intros [? _]]. }
    split; [done|]. split; [done|]. split; [done|]. split; [done|]. split; [|split].
    - rewrite Hlive', size_difference, size_singleton.
      + assert (size (liveIds s) ≠ 0%nat) as Hpos; [|lia].
        apply size_non_empty_iff. intros Hempty. rewrite Hempty in Hsrcin.
        by apply elem_of_empty in Hsrcin.
      + by apply singleton_subseteq_l.
    - apply set_eq. intros id. rewrite !elem_of_dom, Hlookup.
      destruct (decide (id = tgt)) as [->|Hidt]; [by rewrite Htgt|].
      destruct (decide (id = src)) as [->|Hids]; [by rewrite Hsrc|done].
    - intros id Hids Hidt. rewrite Hlookup.
      by rewrite decide_False, decide_False. }
  split; [done|]. intros Hfew.
  destruct Hcases as [?|(src & tgt & Hne & Hsrc & Htgt & _)]; [done|]. exfalso.
  assert (({[src; tgt]} : gset string) ⊆ liveIds s) as Hsub.
  { intros x [->%elem_of_singleton| ->%elem_of_singleton]%elem_of_union; done. }
  apply subseteq_size in Hsub.
  rewrite size_union, !size_singleton in Hsub; [lia|].
  by apply disjoint_singleton_l, not_elem_of_singleton.
Qed.

(** ** The revival source comes from the store *)

Lemma selectRevivalSource_candidate (ai : AICall RevivalDecision) (pending : PendingMessage)
    (archivedRows : list ArchivedCandidate) (id : string) :
  selectRevivalSource ai pending archivedRows = Some id → id ∈ arch_id <$> archivedRows.
Proof.
  assert (heuristicRevival pending archivedRows = Some id → id ∈ arch_id <$> archivedRows)
    as Hheuristic.
  { intros Hid. destruct (decide (archivedRows = [])) as [->|Hne]; [done|].
    destruct (heuristicRevival_spec pending archivedRows Hne)
      as (i & best & Hi & _ & _ & Hyes & Hno).
    destruct (Qlt_le_dec (archivedScore pending best) (31 # 100)) as [Hlt|Hle].
    - by rewrite (Hno Hlt) in Hid.
    - rewrite (Hyes Hle) in Hid. injection Hid as <-.
      apply list_elem_of_fmap. exists best. split; [done|]. by eapply list_elem_of_lookup_2. }
  unfold selectRevivalSource. destruct archivedRows as [|c0 cs]; [done|].
  destruct ai as [| |d]; [done|done|].
  destruct (acceptsRevival d (c0 :: cs)) eqn:Hacc; [|done].
  apply acceptsRevival_iff in Hacc as (id' & Hid' & _ & _ & Hin). congruence.
Qed.

(** X19. Whatever the provider answers, the revival source that
    [findRevivalSource] returns is a thread of the store that is archived;
    and with no archived thread in the store it returns none. *)
Theorem findRevivalSource_archived (cfg : Config) (ai : AICall RevivalDecision)
    (pending : PendingMessage) (s : Store) :
  (∀ id, findRevivalSource cfg ai pending s = Some id →
     ∃ row, threads s !! id = Some row ∧ thr_state row = archived)
  ∧ ((∀ id row, threads s !! id = Some row → thr_state row ≠ archived) →
     findRevivalSource cfg ai pending s = None).
Proof.
  assert (∀ id, findRevivalSource cfg ai pending s = Some id →
            ∃ row, threads s !! id = Some row ∧ thr_state row = archived) as Hsome.
  { intros id Hid. unfold findRevivalSource in Hid.
    apply selectRevivalSource_candidate in Hid.
    unfold fetchArchivedCandidates in Hid. rewrite <- list_fmap_compose in Hid.
    apply list_elem_of_fmap in Hid as ([id' row] & -> & Hin).
    apply selectThreads_elem in Hin as [Hrow Harch].
    exists row. split; [done|]. by apply bool_decide_eq_true in Harch. }
  split; [done|]. intros Hnone.
  destruct (findRevivalSource cfg ai pending s) as [id|] eqn:Hid; [|done].
  destruct (Hsome id eq_refl) as (row & Hrow & Harch). by destruct (Hnone id row Hrow).
Qed.

(** ** The list of threads *)

#[global] Instance listedBefore_trans : Transitive listedBefore.
Proof. intros a b c. unfold listedBefore. lia. Qed.

#[global] Instance listedBefore_total : Total listedBefore.
Proof. intros a b. unfold listedBefore. lia. Qed.

Lemma sorted_lookup {A : Type} (R : relation A) (l : list A) (i j : nat) (x y : A) :
  StronglySorted R l → (i < j)%nat → l !! i = Some x → l !! j = Some y → R x y.
Proof.
  intros Hsorted Hij Hi Hj.
  apply (sorted_take_lookup R l (length l) i j x y Hsorted Hij); by rewrite firstn_all.
Qed.

Lemma stateOfName_Some (name : string) (st : ThreadState) :
  stateOfName name = Some st ↔ name = stateName st.
Proof.
  unfold stateOfName.
  destruct (String.eqb_spec name "active") as [->|Ha].
  { destruct st; simpl; split; congruence. }
  destruct (String.eqb_spec name "cooling") as [->|Hc].
  { destruct st; simpl; split; congruence. }
  destruct (String.eqb_spec name "archived") as [->|Hr].
  { destruct st; simpl; split; congruence. }
  destruct (String.eqb_spec name "superseded") as [->|Hs].
  { destruct st; simpl; split; congruence. }
  split; [done|]. by destruct st; simpl; intros ->.
Qed.

Lemma elem_of_requestedStates (states : option string) (st : ThreadState) :
  st ∈ requestedStates states ↔ asksFor states st ∨ ∀ st', ¬ asksFor states st'.
Proof.
  unfold requestedStates.
  assert (∀ st', st' ∈ omap (fun piece => stateOfName (trim piece))
                         (split_on "," (default "" states)) ↔ asksFor states st') as Hin.
  { intros st'. rewrite list_elem_of_omap. unfold asksFor.
    by setoid_rewrite stateOfName_Some. }
  destruct (omap _ _) as [|st0 rest] eqn:Hrequested.
  - split.
    + intros _. right. intros st' Hasked. apply Hin in Hasked. by apply elem_of_nil in Hasked.
    + intros _. unfold allStates. destruct st; rewrite !elem_of_cons; tauto.
  - rewrite Hin. split; [by left|]. intros [?|Hnone]; [done|]. exfalso.
    apply (Hnone st0), Hin. by left.
Qed.

Lemma elem_of_messagesOf (threadId : string) (s : Store) (m : MessageRecord) :
  m ∈ messagesOf threadId s ↔
  (∃ id, messages s !! id = Some m) ∧ msg_thread_id m = Some threadId.
Proof.
  unfold messagesOf. rewrite list_elem_of_filter, list_elem_of_fmap. split.
  - intros [Ht ([id m'] & -> & Hin)]. apply elem_of_map_to_list in Hin. split; [|done].
    by exists id.
  - intros [[id Hm] Ht]. split; [done|]. exists (id, m). split; [done|].
    by apply elem_of_map_to_list.
Qed.

Lemma filter_snd_length {A B : Type} (P : B → Prop) `{!∀ x, Decision (P x)}
    (l : list (A * B)) :
  length (filter P (snd <$> l)) = length (filter (fun entry => P (snd entry)) l).
Proof.
  induction l as [|[a b] l IH]; [done|].
  rewrite fmap_cons, !filter_cons. simpl. destruct (decide (P b)); simpl; by rewrite IH.
Qed.

Lemma messagesOf_length (threadId : string) (s : Store) :
  length (messagesOf threadId s) = messageCount threadId s.
Proof.
  unfold messagesOf, messageCount. rewrite filter_snd_length.
  rewrite <- length_map_to_list, map_filter_alt.
  apply Permutation_length. symmetry. apply map_to_list_to_map.
  eapply sublist_NoDup; [apply (fin_maps.NoDup_fst_map_to_list (messages s))|].
  apply fmap_sublist, sublist_filter.
Qed.

(** X20. [GET /api/threads] lists each thread of the store whose state
    the query parameter names, once, and every thread when the parameter
    is absent or names no state; the latest activity first.  Each comes
    with the number of its messages and, when it has any, the content of a
    message of the thread that no other is later than. *)
Theorem getThreads_spec (states : option string) (s : Store) :
  (∀ id row,
     (∃ listing, listing ∈ getThreads states s ∧ tl_id listing = id ∧ tl_thread listing = row)
     ↔ threads s !! id = Some row
       ∧ (asksFor states (thr_state row) ∨ ∀ st, ¬ asksFor states st))
  ∧ NoDup (tl_id <$> getThreads states s)
  ∧ (∀ i j a b, (i < j)%nat →
       getThreads states s !! i = Some a → getThreads states s !! j = Some b →
       listedKey (tl_thread b) ≤ listedKey (tl_thread a))
  ∧ (∀ listing, listing ∈ getThreads states s →
       tl_message_count listing = messageCount (tl_id listing) s
       ∧ match tl_preview listing with
         | Some content =>
             ∃ m, latestMessage (tl_id listing) s m ∧ msg_content m = content
         | None => messageCount (tl_id listing) s = 0%nat
         end).
Proof.
  unfold getThreads, listThreads.
  set (rows := merge_sort listedBefore
                 (filter (fun row => thr_state (snd row) ∈ requestedStates states)
                         (map_to_list (threads s)))).
  assert (∀ id row, (id, row) ∈ rows ↔
            threads s !! id = Some row
            ∧ (asksFor states (thr_state row) ∨ ∀ st, ¬ asksFor states st)) as Hrows.
  { intros id row. unfold rows.
    rewrite merge_sort_Permutation, list_elem_of_filter, elem_of_map_to_list. simpl.
    rewrite elem_of_requestedStates. tauto. }
  split; [|split; [|split]].
  - intros id row. rewrite <- Hrows. split.
    + intros (listing & Hin & <- & <-).
      apply list_elem_of_fmap in Hin as ([id row] & -> & Hin). done.
    + intros Hin. eexists. split; [apply list_elem_of_fmap; by eexists|done].
  - rewrite <- list_fmap_compose. unfold rows.
    change (tl_id ∘ _) with (fst : string * ThreadRecord → string).
    rewrite merge_sort_Permutation.
    eapply sublist_NoDup; [apply (fin_maps.NoDup_fst_map_to_list (threads s))|].
    apply fmap_sublist, sublist_filter.
  - intros i j a b Hij Hi Hj. rewrite list_lookup_fmap in Hi, Hj.
    destruct (rows !! i) as [x|] eqn:Hx; [|done].
    destruct (rows !! j) as [y|] eqn:Hy; [|done].
    injection Hi as <-. injection Hj as <-. simpl.
    apply (sorted_lookup listedBefore rows i j x y); [|done..].
    apply StronglySorted_merge_sort; apply _.
  - intros listing Hin. apply list_elem_of_fmap in Hin as ([id row] & -> & _). simpl.
    split; [apply messagesOf_length|].
    pose proof (StronglySorted_merge_sort newerMessage (messagesOf id s)) as Hsorted.
    pose proof (merge_sort_Permutation newerMessage (messagesOf id s)) as Hperm.
    destruct (merge_sort newerMessage (messagesOf id s)) as [|m rest]; simpl.
    + rewrite <- messagesOf_length. apply Permutation_nil in Hperm. by rewrite Hperm.
    + exists m. split; [|done].
      assert (m ∈ messagesOf id s) as Hm by (rewrite <- Hperm; by left).
      apply elem_of_messagesOf in Hm as [Hex Ht]. split; [done|]. split; [done|].
      intros id' m' Hm' Ht'.
      assert (m' ∈ m :: rest) as Hin'.
      { rewrite Hperm. apply elem_of_messagesOf. split; [by exists id'|done]. }
      apply StronglySorted_inv in Hsorted as [_ Hall]. rewrite Forall_forall in Hall.
      apply elem_of_cons in Hin' as [->|Hin']; [done|]. by apply Hall.
Qed.

(** ** The list of messages *)

#[global] Instance newerRow_trans : Transitive newerRow.
Proof. intros a b c. unfold newerRow. lia. Qed.

#[global] Instance newerRow_total : Total newerRow.
Proof. intros a b. unfold newerRow. lia. Qed.

(** X21. The limit of [GET /api/messages] lies between 1 and 500: it is
    the value asked for when that lies between 1 and 500, 1 for a smaller
    one, 500 for a larger one, and 200 when the parameter is not a finite
    number. *)
Theorem messageLimit_spec (limitParam : JSNumber) :
  (1 <= messageLimit limitParam <= 500)%Q
  ∧ match limitParam with
    | Finite q =>
        ((1 <= q <= 500)%Q → messageLimit limitParam == q)%Q
        ∧ ((q <= 1)%Q → messageLimit limitParam == 1)%Q
        ∧ ((500 <= q)%Q → messageLimit limitParam == 500)%Q
    | NotFinite => messageLimit limitParam = 200%Q
    end.
Proof.
  destruct limitParam as [q|]; simpl; [|done].
  assert (1 <= Qmax q 1)%Q as Hmax by apply Q.le_max_r.
  split; [split|split; [|split]].
  - apply Q.min_glb; [done|]. done.
  - apply Q.le_min_r.
  - intros [Hlow Hhigh]. rewrite Q.min_l; [by apply Q.max_l|].
    rewrite Q.max_l; done.
  - intros Hlow. rewrite Q.max_r by done. by apply Q.min_l.
  - intros Hhigh. apply Q.min_r. eapply Qle_trans; [exact Hhigh|]. apply Q.le_max_l.
Qed.

(** X22. [GET /api/messages] with an integral limit returns messages of
    the store, each once and with the title and the state of its thread
    when it has one: as many as the limit allows, the oldest first, and no
    message that is left out is later than one that is returned. *)
Theorem listMessages_spec (limit : nat) (s : Store) :
  length (listMessages limit s) = (limit `min` size (messages s))%nat
  ∧ NoDup (ml_id <$> listMessages limit s)
  ∧ (∀ listing, listing ∈ listMessages limit s →
       messages s !! ml_id listing = Some (ml_message listing)
       ∧ match msg_thread_id (ml_message listing) ≫= (fun threadId => threads s !! threadId) with
         | Some thread =>
             ml_thread_title listing = Some (thr_title thread)
             ∧ ml_thread_state listing = Some (thr_state thread)
         | None => ml_thread_title listing = None ∧ ml_thread_state listing = None
         end)
  ∧ (∀ i j a b, (i < j)%nat →
       listMessages limit s !! i = Some a → listMessages limit s !! j = Some b →
       msg_created_at (ml_message a) ≤ msg_created_at (ml_message b))
  ∧ (∀ id m listing, messages s !! id = Some m → id ∉ ml_id <$> listMessages limit s →
       listing ∈ listMessages limit s →
       msg_created_at m ≤ msg_created_at (ml_message listing)).
Proof.
  unfold listMessages.
  set (latest := take limit (merge_sort newerRow (map_to_list (messages s)))).
  set (rows := merge_sort olderMessage latest).
  assert (∀ row, row ∈ rows ↔ row ∈ latest) as Hrows.
  { intros row. unfold rows. by rewrite merge_sort_Permutation. }
  assert (∀ id m, (id, m) ∈ latest → messages s !! id = Some m) as Hlatest.
  { intros id m Hin. apply subseteq_take in Hin. rewrite merge_sort_Permutation in Hin.
    by apply elem_of_map_to_list. }
  split; [|split; [|split; [|split]]].
  - rewrite length_fmap. unfold rows. rewrite merge_sort_Permutation. unfold latest.
    by rewrite length_take, merge_sort_Permutation, length_map_to_list.
  - rewrite <- list_fmap_compose.
    change (ml_id ∘ _) with (fst : string * MessageRecord → string).
    unfold rows. rewrite merge_sort_Permutation. unfold latest.
    eapply sublist_NoDup; [|apply fmap_sublist, sublist_take].
    rewrite merge_sort_Permutation. apply (fin_maps.NoDup_fst_map_to_list (messages s)).
  - intros listing Hin. apply list_elem_of_fmap in Hin as ([id m] & -> & Hin). simpl.
    split; [by apply Hlatest, Hrows|].
    by destruct (msg_thread_id m ≫= (fun threadId => threads s !! threadId)).
  - intros i j a b Hij Hi Hj. rewrite list_lookup_fmap in Hi, Hj.
    destruct (rows !! i) as [x|] eqn:Hx; [|done].
    destruct (rows !! j) as [y|] eqn:Hy; [|done].
    injection Hi as <-. injection Hj as <-. simpl.
    apply (sorted_lookup olderMessage rows i j x y); [|done..].
    apply StronglySorted_merge_sort; apply _.
  - intros id m listing Hm Hout Hin.
    apply list_elem_of_fmap in Hin as (y & -> & Hy). simpl. apply Hrows in Hy.
    destruct (sorted_take_complete newerRow (merge_sort newerRow (map_to_list (messages s)))
                limit (id, m)) as [Hin|[_ Hleast]].
    + apply StronglySorted_merge_sort; apply _.
    + rewrite merge_sort_Permutation. by apply elem_of_map_to_list.
    + exfalso. apply Hout. rewrite <- list_fmap_compose.
      apply list_elem_of_fmap. exists (id, m). split; [done|]. by apply Hrows.
    + by apply (Hleast y).
Qed.

(** ** Posting a message *)

Lemma trim_end_idemp (s : string) : trim_end (trim_end s) = trim_end s.
Proof.
  induction s as [|c s IH]; [done|]. simpl.
  destruct (trim_end s) as [|c' r'] eqn:Hend.
  - destruct (is_space c) eqn:Hc; [done|]. simpl. by rewrite Hc.
  - remember (String c' r') as t eqn:Ht. simpl. rewrite IH. by subst t.
Qed.

Lemma trim_idemp (s : string) : trim (trim s) = trim s.
Proof.
  destruct (trim_cases s) as [Hempty|(c & r & Heq & Hc)].
  - by rewrite Hempty.
  - unfold trim at 1. rewrite Heq. simpl trim_start. rewrite Hc, <- Heq.
    unfold trim. apply trim_end_idemp.
Qed.

Lemma trimmedWithin_Some (least most : nat) (field : option string) (trimmed : string) :
  trimmedWithin least most field = Some trimmed ↔
  ∃ value, field = Some value ∧ trimmed = trim value
           ∧ (least <= String.length trimmed <= most)%nat.
Proof.
  unfold trimmedWithin. destruct field as [value|]; simpl.
  - destruct (_ && _) eqn:Hlen.
    + apply andb_true_iff in Hlen as [Hl Hm]. apply Nat.leb_le in Hl, Hm. split.
      * intros [= <-]. by exists value.
      * by intros (? & [= <-] & -> & _).
    + split; [done|]. intros (? & [= <-] & -> & [Hl Hm]).
      apply Nat.leb_le in Hl, Hm. by rewrite Hl, Hm in Hlen.
  - split; [done|]. by intros (? & ? & _).
Qed.

(** X23. [POST /api/messages] answers 400 and writes nothing unless the
    author and the content are strings that, trimmed, hold 1 to 40 and 1
    to 2000 characters.  Otherwise it inserts one message and returns it:
    the trimmed author and content (so neither starts or ends with white
    space), pending, with no thread and no note; no other row is
    written. *)
Theorem handlePostMessage_spec (author content : option string) (newId : string) (now : Z)
    (s : Store) :
  let valid :=
    ∃ a c, author = Some a ∧ content = Some c
           ∧ (1 <= String.length (trim a) <= 40)%nat
           ∧ (1 <= String.length (trim c) <= 2000)%nat in
  match handlePostMessage author content newId now s with
  | (BadRequest, s') => s' = s ∧ ¬ valid
  | (InsertThrows, s') => s' = s ∧ valid ∧ is_Some (messages s !! newId)
  | (Created id message, s') =>
      id = newId
      ∧ messages s !! newId = None
      ∧ messages s' = <[newId := message]> (messages s)
      ∧ threads s' = threads s
      ∧ (∃ a c, author = Some a ∧ content = Some c
                ∧ msg_author message = trim a ∧ msg_content message = trim c)
      ∧ (1 <= String.length (msg_author message) <= 40)%nat
      ∧ (1 <= String.length (msg_content message) <= 2000)%nat
      ∧ trim (msg_author message) = msg_author message
      ∧ trim (msg_content message) = msg_content message
      ∧ msg_created_at message = now
      ∧ msg_thread_id message = None
      ∧ msg_assignment_status message = pending
      ∧ msg_assignment_note message = None
  end.
Proof.
  intros valid. unfold handlePostMessage, createMessageSchema.
  destruct (trimmedWithin 1 40 author) as [a|] eqn:Ha.
  2: { split; [done|]. intros (a & c & -> & _ & Hlen & _).
       assert (trimmedWithin 1 40 (Some a) = Some (trim a)) as Hsome; [|congruence].
       apply trimmedWithin_Some. by exists a. }
  destruct (trimmedWithin 1 2000 content) as [c|] eqn:Hc.
  2: { split; [done|]. intros (a' & c & _ & -> & _ & Hlen).
       assert (trimmedWithin 1 2000 (Some c) = Some (trim c)) as Hsome; [|congruence].
       apply trimmedWithin_Some. by exists c. }
  apply trimmedWithin_Some in Ha as (a0 & -> & -> & Hla).
  apply trimmedWithin_Some in Hc as (c0 & -> & -> & Hlc).
  destruct (messages s !! newId) as [taken|] eqn:Hfresh.
  - split; [done|]. split; [by exists a0, c0|by eexists].
  - simpl. split; [done|]. split; [done|]. split.
    { unfold postMessage. by rewrite Hfresh. }
    split. { unfold postMessage. by rewrite Hfresh. }
    split; [by exists a0, c0|]. split; [done|]. split; [done|].
    split; [apply trim_idemp|]. split; [apply trim_idemp|]. done.
Qed.

(** ** Text on the page *)

Lemma replaceAll_app (c : ascii) (replacement s t : string) :
  replaceAll c replacement (s ++ t)
  = replaceAll c replacement s ++ replaceAll c replacement t.
Proof.
  induction s as [|x s IH]; [done|]. simpl.
  destruct (Ascii.eqb x c); rewrite IH; [|done]. by rewrite string_app_assoc.
Qed.

Lemma escapeHtml_cons (c : ascii) (r : string) :
  escapeHtml (String c r) = escapeChar c ++ escapeHtml r.
Proof.
  unfold escapeHtml, escapeChar. simpl.
  destruct (Ascii.eqb_spec c "&") as [->|Hamp].
  { by rewrite !replaceAll_app. }
  simpl. destruct (Ascii.eqb_spec c "<") as [->|Hlt].
  { by rewrite !replaceAll_app. }
  simpl. by destruct (Ascii.eqb_spec c ">") as [->|Hgt].
Qed.

Lemma unescapeHtml_escapeHtml (value : string) : unescapeHtml (escapeHtml value) = value.
Proof.
  induction value as [|c r IH]; [done|]. rewrite escapeHtml_cons.
  destruct c as [[] [] [] [] [] [] [] []]; cbv -[escapeHtml]; f_equal; exact IH.
Qed.

(** X24. The text that [escapeHtml] returns holds no [<] and no [>];
    two different texts are never escaped to the same one, and reading the
    three entities back gives the text that was escaped; a text without
    [&], [<] and [>] is returned as it is. *)
Theorem escapeHtml_spec (value : string) :
  all_chars (fun c => negb (Ascii.eqb c "<") && negb (Ascii.eqb c ">")) (escapeHtml value)
  = true
  ∧ unescapeHtml (escapeHtml value) = value
  ∧ (∀ other, escapeHtml other = escapeHtml value ↔ other = value)
  ∧ (all_chars (fun c => negb (Ascii.eqb c "&") && negb (Ascii.eqb c "<")
                          && negb (Ascii.eqb c ">")) value = true →
     escapeHtml value = value).
Proof.
  split; [|split; [apply unescapeHtml_escapeHtml|split]].
  - induction value as [|c r IH]; [done|]. rewrite escapeHtml_cons, all_chars_app, IH.
    rewrite andb_true_r. unfold escapeChar.
    destruct (Ascii.eqb c "&"); [done|]. destruct (Ascii.eqb c "<") eqn:Hlt; [done|].
    destruct (Ascii.eqb c ">") eqn:Hgt; [done|]. simpl. by rewrite Hlt, Hgt.
  - intros other. split; [|by intros ->]. intros Heq.
    by rewrite <- (unescapeHtml_escapeHtml other), Heq, unescapeHtml_escapeHtml.
  - induction value as [|c r IH]; [done|]. simpl.
    intros [Hc Hr]%andb_true_iff. rewrite escapeHtml_cons, (IH Hr). unfold escapeChar.
    apply andb_true_iff in Hc as [[Ha Hl]%andb_true_iff Hg].
    apply negb_true_iff in Ha, Hl, Hg. by rewrite Ha, Hl, Hg.
Qed.

(** ** The time of the last message *)

Lemma asDate_le (t : Z) : asDate t ≤ t.
Proof. unfold asDate, getTime. rewrite Z.mul_comm. apply Z.mul_div_le. lia. Qed.

Lemma asDate_mono (t u : Z) : t ≤ u → asDate t ≤ asDate u.
Proof.
  intros Hle. unfold asDate, getTime. apply Z.mul_le_mono_nonneg_r; [lia|].
  apply Z.div_le_mono; lia.
Qed.

Lemma exec_claimed (cfg : Config) (ev : Event) (e e' : Engine) :
  exec cfg ev e = Some e' →
  assigning e' = None
  ∨ claimedMessage <$> assigning e' = claimedMessage <$> assigning e
  ∨ ∃ p, assigning e' = Some (Claimed p) ∧ claimPendingMessage (store e) = Some (p, store e').
Proof.
  intros Hexec.
  destruct ev as [mid author content now| |ai|ai|now newId| |now|now|ai|now]; simpl in Hexec.
  - injection Hexec as <-. right; by left.
  - destruct (assigning e); [done|].
    destruct (claimPendingMessage (store e)) as [[p s1]|] eqn:Hclaim; [|done].
    injection Hexec as <-. right; right. by exists p.
  - destruct (assigning e) as [[p|p d|p d r]|]; try done. injection Hexec as <-.
    right; by left.
  - destruct (assigning e) as [[p|p d|p d r]|]; try done. injection Hexec as <-.
    right; by left.
  - destruct (assigning e) as [[p|p d|p d r]|]; try done. injection Hexec as <-. by left.
  - destruct (assigning e); [|done]. injection Hexec as <-. by left.
  - injection Hexec as <-. right; by left.
  - injection Hexec as <-. right; by left.
  - destruct (length _ <? 2)%nat; [done|]. destruct (merging e); [done|].
    destruct (findMergePair _) as [best|]; [|done].
    destruct (resolveMerge ai best); [|done]. injection Hexec as <-. right; by left.
  - destruct (merging e) as [[sourceThreadId targetThreadId]|]; [|done].
    injection Hexec as <-. right; by left.
Qed.

Lemma reachable_heldFaithful (cfg : Config) (e : Engine) : reachable cfg e → heldFaithful e.
Proof.
  induction 1 as [|ev e e' Hreach IH Hexec]; [done|]. intros a Ha.
  destruct (exec_keeps_rows cfg ev e e' (reachable_mergingDistinct cfg e Hreach) Hexec)
    as [_ Hkept].
  destruct (exec_claimed cfg ev e e' Hexec) as [Hnone|[Hsame|(p & Hp & Hclaim)]].
  - congruence.
  - rewrite Ha in Hsame. simpl in Hsame.
    destruct (assigning e) as [a0|] eqn:Ha0; [|done]. injection Hsame as Hsame.
    destruct (IH a0 Ha0) as (m & Hm & Hat).
    destruct (Hkept _ m Hm) as (m' & Hm' & _ & _ & Hat').
    exists m'. rewrite Hsame. split; [done|]. congruence.
  - rewrite Ha in Hp. injection Hp as ->. simpl.
    destruct (claimPendingMessage_Some _ _ _ Hclaim) as (m & Hm & _ & Hat & _ & Hs1 & _).
    exists (set_assignment_status in_progress m). split; [|done].
    rewrite Hs1. simpl. by rewrite lookup_alter_eq, Hm.
Qed.

(** An event that leaves the thread and the time of every message, and the
    [last_message_at] and the [merged_into_thread_id] of every thread. *)
Lemma timed_quiet (s s' : Store) :
  (∀ id row', threads s' !! id = Some row' →
     ∃ row, threads s !! id = Some row
            ∧ thr_last_message_at row' = thr_last_message_at row
            ∧ thr_merged_into_thread_id row' = thr_merged_into_thread_id row) →
  (∀ id, match messages s !! id, messages s' !! id with
         | Some m, Some m' =>
             msg_thread_id m' = msg_thread_id m ∧ msg_created_at m' = msg_created_at m
         | None, Some m' => msg_thread_id m' = None
         | None, None => True
         | Some _, None => False
         end) →
  timed s → timed s'.
Proof.
  intros Hrows Hmessages Htimed id row' Hrow' Hmerged.
  destruct (Hrows id row' Hrow') as (row & Hrow & Hlast & Hm).
  destruct (Htimed id row Hrow)
    as (last & latest & Hlatest & [(mid & m & Hmid & Ht & Hat) Hmax] & Hbounds);
    [congruence|].
  exists last, latest. split; [congruence|]. split; [|done]. split.
  - specialize (Hmessages mid). rewrite Hmid in Hmessages.
    destruct (messages s' !! mid) as [m'|] eqn:Hm'; [|done].
    destruct Hmessages as [Ht' Hat']. exists mid, m'. split; [done|]. split; congruence.
  - intros mid' m' Hm' Ht'. specialize (Hmessages mid'). rewrite Hm' in Hmessages.
    destruct (messages s !! mid') as [m0|] eqn:Hm0; [|congruence].
    destruct Hmessages as [Ht0 Hat0]. rewrite Hat0. apply (Hmax mid' m0 Hm0). congruence.
Qed.

Lemma timed_alter_status (s : Store) (id0 : string) (set : MessageRecord -> MessageRecord) :
  (∀ m, msg_thread_id (set m) = msg_thread_id m ∧ msg_created_at (set m) = msg_created_at m) →
  timed s → timed (updateMessageById id0 set s).
Proof.
  intros Hset. apply timed_quiet.
  - intros id row' Hrow'. by exists row'.
  - intros id. simpl. destruct (decide (id = id0)) as [->|Hne].
    + rewrite lookup_alter_eq. destruct (messages s !! id0) as [m|]; simpl; [|done].
      apply Hset.
    + rewrite lookup_alter_ne by done. by destruct (messages s !! id).
Qed.

Lemma timed_guarded (s : Store) (guard : ThreadRecord -> bool)
    (set : ThreadRecord -> ThreadRecord) :
  (∀ row, thr_last_message_at (set row) = thr_last_message_at row
          ∧ thr_merged_into_thread_id (set row) = thr_merged_into_thread_id row) →
  timed s → timed (updateThreadsWhere guard set s).
Proof.
  intros Hset. apply timed_quiet.
  - intros id row'. simpl. rewrite lookup_fmap.
    destruct (threads s !! id) as [row|]; simpl; [|done]. intros [= <-].
    exists row. split; [done|]. destruct (guard row); [apply Hset|done].
  - intros id. simpl. by destruct (messages s !! id).
Qed.

Lemma timed_applyAssignment (now : Z) (newId : string) (pending : PendingMessage)
    (decision : AssignmentDecision) (revivalSourceId : option string) (s s' : Store)
    (applied : Applied) (m : MessageRecord) :
  applyAssignment now newId pending decision revivalSourceId s = Committed (s', applied) →
  messages s !! pend_id pending = Some m → msg_thread_id m = None →
  pend_created_at pending = asDate (msg_created_at m) →
  filed s → timed s → timed s'.
Proof.
  intros Hrun Hm Hnone Hat Hfiled Htimed.
  pose proof (applyAssignment_messages _ _ _ _ _ _ _ _ Hrun) as Hmessages.
  apply applyAssignment_threads in Hrun as (s3 & threadId & Hprovide & Htid & Htouch).
  apply present_Some_inv in Htid as [-> _].
  set (tid := ap_threadId applied) in *.
  set (m' := set_assignment assigned (Some (dec_reason decision))
               (set_thread_id (Some tid) m)).
  assert (∀ id, messages s' !! id = if decide (id = pend_id pending) then Some m'
                                    else messages s !! id) as Hlookup.
  { intros id. rewrite Hmessages. destruct (decide (id = pend_id pending)) as [->|Hne].
    - by rewrite lookup_alter_eq, Hm.
    - by rewrite lookup_alter_ne. }
  (* the messages of a thread other than [tid] are those it had *)
  assert (∀ x latest, x ≠ tid → latestOf (messages s) x latest →
            latestOf (messages s') x latest) as Hother.
  { intros x latest Hx [(mid & m0 & Hm0 & Ht0 & Hat0) Hmax]. split.
    - exists mid, m0. rewrite Hlookup. rewrite decide_False; [done|].
      intros ->. congruence.
    - intros mid' m1. rewrite Hlookup. destruct (decide (mid' = pend_id pending)) as [->|Hne].
      + intros [= <-]. simpl. congruence.
      + apply Hmax. }
  (* the messages of [tid] are those it had and the one assigned *)
  assert (∀ latest, latestOf (messages s) tid latest →
            latestOf (messages s') tid (Z.max latest (msg_created_at m)))
    as Hmore.
  { intros latest [(mid & m0 & Hm0 & Ht0 & Hat0) Hmax]. split.
    - destruct (Z.max_spec latest (msg_created_at m)) as [[_ ->]|[_ ->]].
      + exists (pend_id pending), m'. rewrite Hlookup, decide_True by done. done.
      + exists mid, m0. rewrite Hlookup. rewrite decide_False; [done|].
        intros ->. congruence.
    - intros mid' m1. rewrite Hlookup. destruct (decide (mid' = pend_id pending)) as [->|Hne].
      + intros [= <-] _. simpl. lia.
      + intros Hm1 Ht1. specialize (Hmax mid' m1 Hm1 Ht1). lia. }
  (* a thread that no message names gets the one assigned *)
  assert (threads s !! tid = None →
            latestOf (messages s') tid (msg_created_at m)) as Hfirst.
  { intros Hfresh. split.
    - exists (pend_id pending), m'. rewrite Hlookup, decide_True by done. done.
    - intros mid' m1. rewrite Hlookup. destruct (decide (mid' = pend_id pending)) as [->|Hne].
      + intros [= <-] _. simpl. lia.
      + intros Hm1 Ht1. specialize (Hfiled mid' m1 Hm1). rewrite Ht1 in Hfiled.
        destruct Hfiled as [_ [row Hrow]]. congruence. }
  pose proof (asDate_le (msg_created_at m)) as Hcut.
  assert (Z.max (pend_created_at pending) (pend_created_at pending)
          = pend_created_at pending) as Hmax by lia.
  assert (∀ id row, id ≠ tid → threads s !! id = Some row →
            thr_merged_into_thread_id row = None →
            ∃ last latest,
              thr_last_message_at row = Some last ∧ latestOf (messages s') id latest
              ∧ asDate latest ≤ last ≤ latest) as Hkeeps.
  { intros id row Hid Hrow Hmerged.
    destruct (Htimed id row Hrow Hmerged) as (last & latest & Hlast & Hlatest & Hbounds).
    exists last, latest. split; [done|]. split; [by apply Hother|done]. }
  intros id row' Hrow' Hmerged. rewrite Htouch in Hrow'.
  apply provideThread_cases in Hprovide
    as [(_ & _ & Heq)
       |(_ & [= Hnew] & Hfresh & [(_ & _ & Heq)
          |(oldId & oldRow & _ & _ & Hne & Hold & Harch & Heq)])].
  - rewrite Heq in Hrow'. destruct (decide (id = tid)) as [->|Hid].
    + rewrite lookup_alter_eq in Hrow'.
      destruct (threads s !! tid) as [row|] eqn:Hrow; [|done]. injection Hrow' as <-.
      destruct (Htimed tid row Hrow Hmerged) as (last & latest & Hlast & Hlatest & Hbounds).
      exists (Z.max last (pend_created_at pending)), (Z.max latest (msg_created_at m)).
      split; [simpl; by rewrite Hlast|]. split; [by apply Hmore|].
      rewrite Hat.
      destruct (Z.max_spec latest (msg_created_at m)) as [[Hle ->]|[Hle ->]]; [lia|].
      pose proof (asDate_mono _ _ Hle). lia.
    + rewrite lookup_alter_ne in Hrow' by done. by apply (Hkeeps id row').
  - rewrite <- Hnew in Heq, Hfresh. rewrite Heq in Hrow'.
    destruct (decide (id = tid)) as [->|Hid].
    + rewrite lookup_alter_eq, lookup_insert_eq in Hrow'. injection Hrow' as <-.
      exists (pend_created_at pending), (msg_created_at m).
      split; [simpl; by rewrite Hmax|]. split; [by apply Hfirst|]. rewrite Hat. lia.
    + rewrite lookup_alter_ne, lookup_insert_ne in Hrow' by congruence.
      by apply (Hkeeps id row').
  - rewrite <- Hnew in Heq, Hfresh, Hne. rewrite Heq in Hrow'.
    destruct (decide (id = tid)) as [->|Hid].
    + rewrite lookup_alter_eq, lookup_insert_eq in Hrow'. injection Hrow' as <-.
      exists (pend_created_at pending), (msg_created_at m).
      split; [simpl; by rewrite Hmax|]. split; [by apply Hfirst|]. rewrite Hat. lia.
    + rewrite lookup_alter_ne, lookup_insert_ne in Hrow' by congruence.
      destruct (decide (id = oldId)) as [->|Hido].
      * rewrite lookup_insert_eq in Hrow'. injection Hrow' as <-.
        destruct (Htimed oldId oldRow Hold Hmerged)
          as (last & latest & Hlast & Hlatest & Hbounds).
        exists last, latest. split; [done|]. split; [by apply Hother|done].
      * rewrite !lookup_insert_ne in Hrow' by congruence. by apply (Hkeeps id row').
Qed.

Lemma executeMerge_last (now : Z) (sourceThreadId targetThreadId : string) (s s' : Store) :
  executeMerge now sourceThreadId targetThreadId s = Committed s' →
  ∃ sourceRow,
    threads s !! sourceThreadId = Some sourceRow
    ∧ threads s' =
        alter (reopenRow now (maxCreatedAt targetThreadId s')) targetThreadId
          (<[sourceThreadId := supersedeIntoRow now targetThreadId sourceRow]> (threads s)).
Proof.
  unfold executeMerge.
  destruct (updateThreadById sourceThreadId isLive _ s) as [s1 rowCount] eqn:Hsource.
  unfold updateThreadById in Hsource.
  destruct (threads s !! sourceThreadId) as [sourceRow|] eqn:Hsrc;
    [|by injection Hsource as <- <-].
  destruct (isLive sourceRow) eqn:Hlive; [|by injection Hsource as <- <-].
  injection Hsource as <- <-. simpl.
  destruct (bool_decide (is_Some (threads s !! targetThreadId))); simpl; [|done].
  match goal with |- context [updateThreadById targetThreadId ?g ?f ?st] =>
    pose proof (updateThreadById_always targetThreadId f st) as Hreopen;
    pose proof (updateThreadById_messages targetThreadId g f st) as Hsame;
    destruct (updateThreadById targetThreadId g f st) as [s3 n] end.
  intros [= <-]. simpl in Hreopen, Hsame. exists sourceRow. split; [done|].
  rewrite Hreopen. unfold maxCreatedAt. by rewrite Hsame.
Qed.

Lemma timed_executeMerge (now : Z) (sourceThreadId targetThreadId : string) (s s' : Store) :
  executeMerge now sourceThreadId targetThreadId s = Committed s' →
  sourceThreadId ≠ targetThreadId →
  (∀ row, threads s !! targetThreadId = Some row → thr_merged_into_thread_id row = None) →
  timed s → timed s'.
Proof.
  intros Hrun Hne Htarget Htimed.
  pose proof (executeMerge_messages _ _ _ _ _ Hrun) as Hmessages.
  apply executeMerge_last in Hrun as (sourceRow & Hsource & Hthreads).
  intros id row' Hrow' Hmerged. rewrite Hthreads in Hrow'.
  destruct (decide (id = targetThreadId)) as [->|Hid].
  - rewrite lookup_alter_eq, lookup_insert_ne in Hrow' by done.
    destruct (threads s !! targetThreadId) as [row|] eqn:Hrow; [|done].
    injection Hrow' as <-. simpl.
    destruct (Htimed _ row Hrow (Htarget row eq_refl))
      as (_ & latest & _ & [(mid & m & Hm & Ht & _) _] & _).
    pose proof (maxCreatedAt_spec targetThreadId s') as Hspec.
    destruct (maxCreatedAt targetThreadId s') as [latest'|].
    { exists latest', latest'. split; [done|]. split; [done|].
      pose proof (asDate_le latest'). lia. }
    exfalso. apply (Hspec mid (set_thread_id (Some targetThreadId) m)); [|done].
    rewrite Hmessages, lookup_fmap, Hm. simpl.
    destruct (bool_decide _); [done|]. by destruct m; simpl in *; subst.
  - rewrite lookup_alter_ne in Hrow' by done.
    destruct (decide (id = sourceThreadId)) as [->|Hids].
    { rewrite lookup_insert_eq in Hrow'. by injection Hrow' as <-. }
    rewrite lookup_insert_ne in Hrow' by done.
    destruct (Htimed id row' Hrow' Hmerged)
      as (last & latest & Hlast & [(mid & m & Hm & Ht & Hat) Hmax] & Hbounds).
    exists last, latest. split; [done|]. split; [|done]. split.
    + exists mid, m. split; [|done]. rewrite Hmessages, lookup_fmap, Hm. simpl.
      rewrite bool_decide_eq_false_2; [done|]. congruence.
    + intros mid' m'. rewrite Hmessages, lookup_fmap.
      destruct (messages s !! mid') as [m0|] eqn:Hm0; simpl; [|done]. intros [= <-].
      case_bool_decide as Hsrc; simpl; [congruence|]. apply (Hmax mid' m0 Hm0).
Qed.

Lemma exec_timed (cfg : Config) (ev : Event) (e e' : Engine) :
  reachable cfg e → exec cfg ev e = Some e' →
  filed (store e) → timed (store e) → timed (store e').
Proof.
  intros Hreach Hexec Hfiled Htimed.
  destruct ev as [mid author content now| |ai|ai|now newId| |now|now|ai|now]; simpl in Hexec.
  - injection Hexec as <-. simpl. unfold postMessage.
    destruct (messages (store e) !! mid) eqn:Hmid; [done|].
    revert Htimed. apply timed_quiet.
    + intros id row' Hrow'. by exists row'.
    + intros id. simpl. destruct (decide (id = mid)) as [->|Hne].
      * by rewrite Hmid, lookup_insert_eq.
      * rewrite lookup_insert_ne by done. by destruct (messages (store e) !! id).
  - destruct (assigning e); [done|].
    destruct (claimPendingMessage (store e)) as [[p s1]|] eqn:Hclaim; [|done].
    injection Hexec as <-. simpl.
    apply claimPendingMessage_Some in Hclaim as (_ & _ & _ & _ & _ & -> & _).
    by apply timed_alter_status.
  - destruct (assigning e) as [[p|p d|p d r]|]; try done. by injection Hexec as <-.
  - destruct (assigning e) as [[p|p d|p d r]|]; try done. by injection Hexec as <-.
  - destruct (assigning e) as [[p|p d|p d r]|] eqn:Ha; try done. injection Hexec as <-.
    simpl. destruct (applyAssignment now newId p d r (store e)) as [[s2 applied]|] eqn:Hrun;
      [|by apply timed_alter_status].
    destruct (reachable_heldFaithful cfg e Hreach _ Ha) as (m & Hm & Hat). simpl in Hm, Hat.
    apply (timed_applyAssignment _ _ _ _ _ _ _ _ m Hrun Hm); try done.
    pose proof (reachable_holdsClaim cfg e Hreach (pend_id p)) as Hheld.
    unfold heldId, statusOf in Hheld. rewrite Ha, Hm in Hheld. simpl in Hheld.
    specialize (Hfiled _ m Hm).
    destruct (msg_thread_id m); [|done]. destruct Hfiled as [Hassigned _].
    assert (Some (msg_assignment_status m) = Some in_progress) as [=] by by apply Hheld.
    congruence.
  - destruct (assigning e); [|done]. injection Hexec as <-. by apply timed_alter_status.
  - injection Hexec as <-. by apply timed_guarded.
  - injection Hexec as <-. by apply timed_guarded.
  - destruct (length _ <? 2)%nat; [done|]. destruct (merging e); [done|].
    destruct (findMergePair _) as [best|]; [|done].
    destruct (resolveMerge ai best); [|done]. by injection Hexec as <-.
  - destruct (merging e) as [[sourceThreadId targetThreadId]|] eqn:Hmerging; [|done].
    injection Hexec as <-. simpl.
    destruct (executeMerge now sourceThreadId targetThreadId (store e)) as [s2|] eqn:Hrun;
      [|done].
    apply (timed_executeMerge _ _ _ _ _ Hrun); [|intros row Hrow|done].
    + by apply (reachable_mergingDistinct cfg e Hreach).
    + apply (reachable_mergedAway cfg e Hreach _ row Hrow). by rewrite Hmerging.
Qed.

(** X25. In every state that the engine reaches, whatever the order of the
    round trips, a thread that has not been merged into another has at
    least one message, and its [last_message_at] is never later than the
    [created_at] of the latest of its messages and less than a
    millisecond earlier: the assignment loop writes the time of a message
    as the [Date] it read, which holds whole milliseconds, and the merge
    writes the maximum as the store has it. *)
Theorem reachable_timed (cfg : Config) (e : Engine) (id : string) (row : ThreadRecord) :
  reachable cfg e →
  threads (store e) !! id = Some row → thr_merged_into_thread_id row = None →
  ∃ last latest,
    thr_last_message_at row = Some last
    ∧ (∃ mid m, messages (store e) !! mid = Some m ∧ msg_thread_id m = Some id
                ∧ msg_created_at m = latest)
    ∧ (∀ mid m, messages (store e) !! mid = Some m → msg_thread_id m = Some id →
                msg_created_at m ≤ latest)
    ∧ latest - 1000 < last ≤ latest.
Proof.
  intros Hreach Hrow Hmerged.
  assert (filed (store e) ∧ timed (store e)) as [_ Htimed].
  { clear id row Hrow Hmerged.
    induction Hreach as [|ev e e' Hreach [Hfiled Htimed] Hexec].
    - split; [intros id m Hm|intros id row Hrow]; simpl in *; by rewrite lookup_empty in *.
    - split.
      + by apply (exec_filed cfg ev e e' (reachable_mergingDistinct cfg e Hreach)
                    (reachable_holdsClaim cfg e Hreach) Hexec).
      + by apply (exec_timed cfg ev e e' Hreach Hexec). }
  destruct (Htimed id row Hrow Hmerged) as (last & latest & Hlast & [Hsome Hmax] & Hbounds).
  exists last, latest. split; [done|]. split; [done|]. split; [done|].
  unfold asDate, getTime in Hbounds.
  pose proof (Z.mod_pos_bound latest 1000). pose proof (Z.div_mod latest 1000). lia.
Qed.

Lemma reachable_timed_witness :
  ∃ e row latest,
    raceAt raceEvents = Some e ∧ threads (store e) !! "T" = Some row
    ∧ thr_merged_into_thread_id row = None
    ∧ thr_last_message_at row = Some (hours 72 + seconds 2)
    ∧ (∀ mid m, messages (store e) !! mid = Some m → msg_thread_id m = Some "T" →
                msg_created_at m ≤ latest)
    ∧ latest - 1000 < hours 72 + seconds 2 ≤ latest.
Proof.
  destruct (raceAt raceEvents) as [e|] eqn:He; [|by vm_compute in He].
  pose proof (raceAt_reachable _ _ He) as Hreach.
  assert ((e0 ← raceAt raceEvents; row0 ← threads (store e0) !! "T";
           Some (thr_merged_into_thread_id row0, thr_last_message_at row0))
          = Some (None, Some (hours 72 + seconds 2))) as Hfacts by (by vm_compute).
  rewrite He in Hfacts. reduce_bind Hfacts.
  destruct (threads (store e) !! "T") as [row|] eqn:Hrow; [|discriminate Hfacts].
  injection Hfacts as Hmerged Hlast.
  destruct (reachable_timed defaultConfig e "T" row Hreach Hrow Hmerged)
    as (last & latest & Hlast' & _ & Hmax & Hbounds).
  exists e, row, latest. rewrite Hlast in Hlast'. injection Hlast' as <-.
  split; [reflexivity|]. split; [exact Hrow|]. split; [exact Hmerged|].
  split; [exact Hlast|]. split; [exact Hmax|exact Hbounds].
Defined.

(** ** A merge that does not commit *)

(** X26. The merge transaction commits exactly when, at commit time, its
    source is a row that is active or cooling and its target is a row of
    the table.  When the source is no row or is no longer active or
    cooling (a message assigned elsewhere may have archived or superseded
    it since the tick read the pair), the transaction is rolled back at
    its first statement; when the target is no row, on the foreign key.  A
    merge that is rolled back writes nothing: the round trip of the engine
    that commits a merge decided earlier leaves the store as it was. *)
Theorem executeMerge_outcome (now : Z) (sourceThreadId targetThreadId : string) (s : Store) :
  let sourceLive :=
    ∃ row, threads s !! sourceThreadId = Some row ∧ isLive row = true in
  match executeMerge now sourceThreadId targetThreadId s with
  | Committed _ => sourceLive ∧ is_Some (threads s !! targetThreadId)
  | RolledBack SourceNotLive => ¬ sourceLive
  | RolledBack ForeignKeyViolation => sourceLive ∧ threads s !! targetThreadId = None
  | RolledBack _ => False
  end
  ∧ (∀ (cfg : Config) (e : Engine) why,
       store e = s → merging e = Some (sourceThreadId, targetThreadId) →
       executeMerge now sourceThreadId targetThreadId s = RolledBack why →
       exec cfg (MergeCommit now) e
       = Some {| store := s; assigning := assigning e; merging := None |}).
Proof.
  intros sourceLive. subst sourceLive. split.
  - unfold executeMerge.
    destruct (updateThreadById sourceThreadId isLive _ s) as [s1 rowCount] eqn:Hsource.
    unfold updateThreadById in Hsource.
    destruct (threads s !! sourceThreadId) as [sourceRow|] eqn:Hsrc.
    + destruct (isLive sourceRow) eqn:Hlive; injection Hsource as <- <-; simpl.
      * destruct (threads s !! targetThreadId) as [targetRow|] eqn:Htgt.
        -- rewrite bool_decide_true by (by eexists). simpl.
           destruct (updateThreadById targetThreadId _ _ _) as [s3 n].
           split; [by exists sourceRow|by eexists].
        -- rewrite bool_decide_false by (by intros [? ?]). simpl.
           split; [by exists sourceRow|done].
      * intros (row & [= <-] & Hrow). congruence.
    + injection Hsource as <- <-. simpl. by intros (row & ? & _).
  - intros cfg e why <- Hmerging Hrun. simpl. by rewrite Hmerging, Hrun.
Qed.

(** ** The decision that is applied *)

(** X27. Whatever the provider answers, the decision that the assignment
    loop goes on with either creates a thread, and then it names no thread
    and carries a title; or it assigns to one of the candidates that were
    offered, with a confidence of at least 0.45.  With no candidate it
    creates, as does a provider's answer that is not accepted. *)
Theorem decideAssignment_outcome (ai : AICall AssignmentDecision) (pending : PendingMessage)
    (candidates : list ThreadCandidate) (defaultTitle : string) :
  let decision := decideAssignment ai pending candidates defaultTitle in
  ((dec_action decision = create ∧ dec_threadId decision = None
    ∧ is_Some (dec_title decision))
   ∨ (dec_action decision = assign
      ∧ (∃ c, c ∈ candidates ∧ dec_threadId decision = Some (cand_id c))
      ∧ ∃ confidence, dec_confidence decision = Some confidence
                      ∧ (45 # 100 <= confidence)%Q))
  ∧ (candidates = [] → dec_action decision = create)
  ∧ (∀ answer, ai = AIAnswer answer → acceptsAssign answer candidates = false →
       dec_action decision = create).
Proof.
  intros decision. subst decision. unfold decideAssignment.
  destruct candidates as [|c0 cs]; simpl.
  { split; [left; by eauto|]. split; [done|]. done. }
  set (candidates := c0 :: cs).
  assert (let d := fallbackAssignment pending candidates defaultTitle in
          (dec_action d = create ∧ dec_threadId d = None ∧ is_Some (dec_title d))
          ∨ (dec_action d = assign
             ∧ (∃ c, c ∈ candidates ∧ dec_threadId d = Some (cand_id c))
             ∧ ∃ confidence, dec_confidence d = Some confidence
                             ∧ (45 # 100 <= confidence)%Q)) as Hfallback.
  { intros d. subst d.
    pose proof (fallbackAssignment_threadId pending candidates defaultTitle) as Hid.
    unfold fallbackAssignment in *.
    destruct (bestOf (scoreCandidates (pend_content pending) candidates))
      as [[bid score]|]; [|left; by eauto].
    destruct (Qge_bool score (26 # 100)) eqn:Hscore; [|left; by eauto].
    right. simpl in *. split; [done|].
    destruct (Hid bid eq_refl) as (c & Hc & <-). split; [by exists c|].
    eexists. split; [done|]. apply Qge_bool_iff in Hscore. rewrite min1_Qmin.
    apply Q.min_glb; [done|].
    apply Qle_trans with ((26 # 100) + (25 # 100))%Q; [by vm_compute|].
    by apply Qplus_le_l. }
  destruct ai as [| |answer].
  - split; [exact Hfallback|]. split; [done|]. intros ? [=].
  - split; [exact Hfallback|]. split; [done|]. intros ? [=].
  - unfold normalizeAssignmentDecision.
    destruct (acceptsAssign answer candidates) eqn:Haccepts.
    + split; [|split; [done|]; intros ? [= <-]; congruence].
      right. unfold acceptsAssign in Haccepts. rewrite !andb_true_iff in Haccepts.
      destruct Haccepts as [[[Hact _] Hid] Hconf].
      apply bool_decide_eq_true in Hact. split; [done|]. split.
      * unfold has_id in Hid. destruct (dec_threadId answer) as [threadId|]; [|done].
        apply bool_decide_eq_true, elem_of_list_to_set, list_elem_of_fmap in Hid
          as (c & -> & Hc).
        by exists c.
      * destruct (dec_confidence answer) as [confidence|]; [|done].
        exists confidence. split; [done|]. by apply Qge_bool_iff.
    + split; [left; by eauto|]. split; [done|]. done.
Qed.
